(** * Generation orchestrator and history recorder

    A shallow embedding of [src/services/geminiService.ts] (the image and
    video generation workflows) and of the in-memory history store of
    [firestoreService] (getHistory, addToHistory), together with the
    properties of the poll loop, the progress callback, the error paths and
    the history log.

    The asynchronous functions are sequential between their [await]s, so each
    one is embedded as a computation in a monad of state, exceptions and
    output: it threads the world outside the module (provider, network,
    timers, caller, history store), may reject, and writes the trace of the
    calls it makes, each with the value that came back. The unbounded poll
    loop takes fuel: a run that exhausts it is cut before the next turn of
    the loop, with its promise still [Pending] and its trace the calls made
    so far. *)

From stdpp Require Import gmap strings list fin_maps pretty sorting.
From Stdlib Require Import ZArith Lia Ascii.

Open Scope Z_scope.
Open Scope string_scope.
Open Scope list_scope.

(** ** types.ts *)

Inductive MediaType := image | video.

Record GeneratedMedia := {
  media_id : string;
  media_type : MediaType;
  media_prompt : string;
  media_url : string;
  media_caption : string;
  media_timestamp : Z;
}.

(** [Omit<GeneratedMedia, 'id' | 'timestamp' | 'type' | 'prompt'>] *)
Record MediaResult := {
  url : string;
  caption : string;
}.

(** [Omit<GeneratedMedia, 'id' | 'timestamp'>] *)
Record MediaItemData := {
  item_url : string;
  item_caption : string;
  item_prompt : string;
  item_type : MediaType;
}.

(** ** The provider's values, as the code reads them *)

Record Video := { uri : option string }.
Record GeneratedVideo := { gv_video : option Video }.
Record GenerateVideosResponse := {
  generatedVideos : option (list GeneratedVideo);
}.

(** The operation handle: [done] is read for its truthiness, [response] with
    optional chaining; [op_name] is the provider's continuation token. *)
Record Operation := {
  op_name : string;
  op_done : bool;
  op_response : option GenerateVideosResponse;
}.

Record Image := { imageBytes : string }.
Record GeneratedImage := { gi_image : Image }.
Record GenerateImagesResponse := { generatedImages : list GeneratedImage }.
Record GenerateContentResponse := { text : string }.

Record GenerateImagesParams := {
  gip_model : string;
  gip_prompt : string;
  gip_numberOfImages : Z;
  gip_outputMimeType : string;
  gip_aspectRatio : string;
}.

Record GenerateContentParams := {
  gcp_model : string;
  gcp_contents : string;
}.

Record GenerateVideosParams := {
  gvp_model : string;
  gvp_prompt : string;
  gvp_numberOfVideos : Z;
}.

Record FetchResponse := { resp_body : string }.
Record Blob := { blob_bytes : string }.

(** A value thrown inside the module: an [Error] the module constructs
    itself, or the reason a collaborator's promise rejected with. *)
Inductive Exn (Reason : Type) :=
| JsError (message : string)
| Rejection (reason : Reason).
Arguments JsError {Reason} message.
Arguments Rejection {Reason} reason.

(** How the promise returned by an async function stands once the run stops. *)
Inductive Outcome (Reason A : Type) :=
| Resolved (value : A)
| Rejected (e : Exn Reason)
| Pending.
Arguments Resolved {Reason A} value.
Arguments Rejected {Reason A} e.
Arguments Pending {Reason A}.

(** The calls that leave the module, with what came back. *)
Inductive Event (Reason : Type) :=
| Progress (message : string)
| GenerateImages (params : GenerateImagesParams)
                 (ret : Reason + GenerateImagesResponse)
| GenerateContent (params : GenerateContentParams)
                  (ret : Reason + GenerateContentResponse)
| GenerateVideos (params : GenerateVideosParams) (ret : Reason + Operation)
| SetTimeout (ms : Z)
| GetVideosOperation (operation : Operation) (ret : Reason + Operation)
| Fetch (input : string) (ret : Reason + FetchResponse)
| ReadBlob (response : FetchResponse) (ret : Reason + Blob)
| CreateObjectURL (blob : Blob) (ret : string)
| AddToHistory (userId : string) (itemData : MediaItemData).
Arguments Progress {Reason} message.
Arguments GenerateImages {Reason} params ret.
Arguments GenerateContent {Reason} params ret.
Arguments GenerateVideos {Reason} params ret.
Arguments SetTimeout {Reason} ms.
Arguments GetVideosOperation {Reason} operation ret.
Arguments Fetch {Reason} input ret.
Arguments ReadBlob {Reason} response ret.
Arguments CreateObjectURL {Reason} blob ret.
Arguments AddToHistory {Reason} userId itemData.

(** The History Recorder, [addToHistory] of [firestoreService] as the
    workflows see it: a call on the world, which holds its store, that
    returns the new entry or rejects. *)
Record Recorder (RWorld Reason : Type) := {
  append : string → MediaItemData → RWorld → (Reason + GeneratedMedia) * RWorld;
}.
Arguments append {RWorld Reason} _ _ _ _.

(** The collaborators of the module: the [ai] client, [fetch], [URL], the
    timer and the recorder, each a function of the world that may reject.
    [settleOrder n w] is the order in which [n] concurrently pending caption
    requests settle. *)
Record Provider (World Reason : Type) := {
  generateImages :
    GenerateImagesParams → World → (Reason + GenerateImagesResponse) * World;
  generateContent :
    GenerateContentParams → World → (Reason + GenerateContentResponse) * World;
  generateVideos :
    GenerateVideosParams → World → (Reason + Operation) * World;
  getVideosOperation :
    Operation → World → (Reason + Operation) * World;
  fetch : string → World → (Reason + FetchResponse) * World;
  blob : FetchResponse → World → (Reason + Blob) * World;
  createObjectURL : Blob → World → string * World;
  setTimeout : Z → World → World;
  settleOrder : nat → World → list nat;
  recorder : Recorder World Reason;
}.
Arguments generateImages {World Reason} _ _ _.
Arguments generateContent {World Reason} _ _ _.
Arguments generateVideos {World Reason} _ _ _.
Arguments getVideosOperation {World Reason} _ _ _.
Arguments fetch {World Reason} _ _ _.
Arguments blob {World Reason} _ _ _.
Arguments createObjectURL {World Reason} _ _ _.
Arguments setTimeout {World Reason} _ _ _.
Arguments settleOrder {World Reason} _ _ _.
Arguments recorder {World Reason} _.

(** ** The monad of one invocation

    A computation reads the world and gives the state of its promise, the
    world it leaves, the calls it made until the promise settled ([trace])
    and the calls made on its behalf after that ([late]), both in order.
    Code that runs in sequence makes no late call; [Promise.all] does, when
    it rejects while other branches are still pending. *)

Record Run (World Reason A : Type) := mkRun {
  outcome : Outcome Reason A;
  world : World;
  trace : list (Event Reason);
  late : list (Event Reason);
}.
Arguments mkRun {World Reason A} outcome world trace late.
Arguments outcome {World Reason A} _.
Arguments world {World Reason A} _.
Arguments trace {World Reason A} _.
Arguments late {World Reason A} _.

Definition M (World Reason A : Type) : Type := World → Run World Reason A.

Global Instance M_ret {World Reason} : MRet (M World Reason) :=
  λ A (a : A) w, mkRun (Resolved a) w [] [].

Global Instance M_bind {World Reason} : MBind (M World Reason) :=
  λ A B (k : A → M World Reason B) (m : M World Reason A) w,
    match m w with
    | mkRun (Resolved a) w1 t1 l1 =>
        match k a w1 with
        | mkRun o w2 t2 l2 => mkRun o w2 (t1 ++ t2) (l1 ++ l2)
        end
    | mkRun (Rejected e) w1 t1 l1 => mkRun (Rejected e) w1 t1 l1
    | mkRun Pending w1 t1 l1 => mkRun Pending w1 t1 l1
    end.

Definition throw {World Reason A} (e : Exn Reason) : M World Reason A :=
  λ w, mkRun (Rejected e) w [] [].

(** The promise is still pending when the fuel runs out: the run is cut
    there, and what it has done so far is a prefix of what the code does. *)
Definition suspended {World Reason A} : M World Reason A :=
  λ w, mkRun Pending w [] [].

(** [await] on a collaborator's call: the world moves, the call is logged
    with its result, a rejection is rethrown. *)
Definition await {World Reason A}
    (call : World → (Reason + A) * World)
    (ev : Reason + A → Event Reason) : M World Reason A :=
  λ w,
    let '(r, w') := call w in
    match r with
    | inr a => mkRun (Resolved a) w' [ev r] []
    | inl reason => mkRun (Rejected (Rejection reason)) w' [ev r] []
    end.

(** A call that cannot fail: it moves the world and is logged. *)
Definition perform {World Reason A}
    (call : World → A * World)
    (ev : A → Event Reason) : M World Reason A :=
  λ w, let '(a, w') := call w in mkRun (Resolved a) w' [ev a] [].

(** ** JavaScript helpers *)

(** The double-quote character of the template literals. *)
Definition dq : string := String "034"%char EmptyString.

(** Truthiness of a string: only the empty string is falsy. *)
Definition truthy (s : string) : bool :=
  match s with
  | EmptyString => false
  | String _ _ => true
  end.

(** Truthiness of [string | undefined]. *)
Definition truthy_opt (o : option string) : bool :=
  match o with
  | Some s => truthy s
  | None => false
  end.

(** [operation.response?.generatedVideos?.[0]?.video?.uri] *)
Definition downloadLinkOf (operation : Operation) : option string :=
  r ← op_response operation;
  vs ← generatedVideos r;
  v0 ← head vs;
  v ← gv_video v0;
  uri v.

(** ** geminiService.ts: generateVideoAndCaption *)

Definition progressMessages : list string := [
  "Warming up the pixels...";
  "Directing the digital actors...";
  "Composing the visual symphony...";
  "Rendering final scenes...";
  "Almost there, adding the final touches!"
].

Section Orchestrator.
Context {World Reason : Type}.
Context (ai : Provider World Reason).
Context (API_KEY : string).

Local Abbreviation Mo := (M World Reason).

(** The caller's callback, [(message: string) => void]: an effect on the
    world that returns nothing; it is taken to return normally. *)
Definition report (onProgress : string → World → World)
    (message : string) : Mo () :=
  perform (λ w, ((), onProgress message w)) (λ _, Progress message).

(** [await new Promise(resolve => setTimeout(resolve, ms))] *)
Definition sleep (ms : Z) : Mo () :=
  perform (λ w, ((), setTimeout ai ms w)) (λ _, SetTimeout ms).

(** [addToHistory(userId, itemData)], not awaited: the recorder runs on the
    world, and the promise it returns is dropped, fulfilled or rejected.
    The recorder writes when its own timer fires, after the caller has gone
    on; nothing in the module reads the store, and the writes happen in the
    order of the calls, so the write is placed at the call. *)
Definition addToHistoryDetached (userId : string)
    (itemData : MediaItemData) : Mo () :=
  perform (λ w, ((), (append (recorder ai) userId itemData w).2))
          (λ _, AddToHistory userId itemData).

(** The [while (!operation.done)] loop. [messageIndex] counts from 0 by
    one (as a JavaScript number it is exact below 2^53 iterations). *)
Fixpoint pollLoop (fuel : nat) (onProgress : string → World → World)
    (messageIndex : nat) (operation : Operation) : Mo Operation :=
  if op_done operation then mret operation
  else
    match fuel with
    | O => suspended
    | S fuel' =>
        report onProgress
          (nth (messageIndex mod List.length progressMessages)
               progressMessages "undefined");;
        let messageIndex := S messageIndex in
        sleep 10000;;
        operation ← await (getVideosOperation ai operation)
                          (GetVideosOperation operation);
        pollLoop fuel' onProgress messageIndex operation
    end.

Definition videoPrompt (prompt musicSuggestion : string) : string :=
  prompt +:+ ". The video should have a background music vibe of: "
    +:+ musicSuggestion
    +:+ ". The video should be high-quality and suitable for social media.".

Definition videoCaptionPrompt (prompt : string) : string :=
  "Generate a short, engaging social media caption for a video about: "
    +:+ dq +:+ prompt +:+ dq +:+ ". Include 3-5 relevant hashtags.".

Definition generateVideoAndCaption (fuel : nat)
    (prompt musicSuggestion : string)
    (onProgress : string → World → World)
    (userId : option string) : Mo MediaResult :=
  report onProgress "Crafting your video prompt...";;
  let fullPrompt := videoPrompt prompt musicSuggestion in
  report onProgress
    "Sending request to video model... this can take a few minutes.";;
  let params := {| gvp_model := "veo-2.0-generate-001";
                   gvp_prompt := fullPrompt;
                   gvp_numberOfVideos := 1 |} in
  operation ← await (generateVideos ai params) (GenerateVideos params);
  operation ← pollLoop fuel onProgress 0 operation;
  report onProgress "Video generation complete! Fetching the file...";;
  let downloadLink := downloadLinkOf operation in
  if negb (truthy_opt downloadLink) then
    throw (JsError "Video generation failed or returned no link.")
  else
    let input := default "undefined" downloadLink +:+ "&key=" +:+ API_KEY in
    videoDataResponse ← await (fetch ai input) (Fetch input);
    videoBlob ← await (blob ai videoDataResponse)
                      (ReadBlob videoDataResponse);
    videoUrl ← perform (createObjectURL ai videoBlob)
                       (CreateObjectURL videoBlob);
    report onProgress "Generating a catchy caption...";;
    let captionPrompt := videoCaptionPrompt prompt in
    let cparams := {| gcp_model := "gemini-2.5-flash";
                      gcp_contents := captionPrompt |} in
    captionResponse ← await (generateContent ai cparams)
                            (GenerateContent cparams);
    report onProgress "Done!";;
    let result := {| url := videoUrl; caption := text captionResponse |} in
    (if truthy_opt userId then
       addToHistoryDetached (default "" userId)
         {| item_url := url result; item_caption := caption result;
            item_prompt := prompt; item_type := video |}
     else mret ());;
    mret result.

(** ** geminiService.ts: generateImagesAndCaptions *)

Definition imagePrompt (prompt textOverlay : string) : string :=
  if truthy textOverlay then
    prompt +:+ ", with the text " +:+ dq +:+ textOverlay +:+ dq
      +:+ " clearly visible and elegantly integrated."
  else prompt.

Definition imageCaptionPrompt (prompt : string) : string :=
  "Generate a short, catchy social media caption for an image about: "
    +:+ dq +:+ prompt +:+ dq +:+ ". Include 3-5 relevant hashtags.".

(** One [async (img) => ...] callback of the [map], cut at its [await].
    Up to the [await] it runs inside [map], synchronously: the caption
    request is issued, and the promise it returns will settle with [r]. *)
Record Branch := mkBranch {
  br_imageUrl : string;
  br_caption : Reason + GenerateContentResponse;
}.

Definition startBranch (prompt : string) (img : GeneratedImage)
    : Mo Branch :=
  let imageUrl := "data:image/jpeg;base64," +:+ imageBytes (gi_image img) in
  let captionPrompt := imageCaptionPrompt prompt in
  let cparams := {| gcp_model := "gemini-2.5-flash";
                    gcp_contents := captionPrompt |} in
  r ← perform (generateContent ai cparams) (GenerateContent cparams);
  mret (mkBranch imageUrl r).

(** The rest of the callback, run when the caption promise settles. *)
Definition finishBranch (prompt : string) (userId : option string)
    (b : Branch) : Mo MediaResult :=
  match br_caption b with
  | inl reason => throw (Rejection reason)
  | inr captionResponse =>
      let result := {| url := br_imageUrl b;
                       caption := text captionResponse |} in
      (if truthy_opt userId then
         addToHistoryDetached (default "" userId)
           {| item_url := url result; item_caption := caption result;
              item_prompt := prompt; item_type := image |}
       else mret ());;
      mret result
  end.

(** The continuations of pending promises run in the order the promises
    settle, each whatever became of the others. *)
Fixpoint runSettled {A} (order : list nat) (conts : list (Mo A))
    (w : World) : list (nat * Run World Reason A) :=
  match order with
  | [] => []
  | i :: order' =>
      match conts !! i with
      | Some m =>
          let r := m w in (i, r) :: runSettled order' conts (world r)
      | None => runSettled order' conts w
      end
  end.

Definition isRejected {A} (o : Outcome Reason A) : bool :=
  match o with
  | Rejected _ => true
  | _ => false
  end.

Definition resolvedValue {A} (o : Outcome Reason A) : option A :=
  match o with
  | Resolved a => Some a
  | _ => None
  end.

(** The settled branches up to and including the first one that rejects,
    and those after it. *)
Fixpoint splitAtRejection {A} (settled : list (nat * Run World Reason A))
    : list (nat * Run World Reason A) * list (nat * Run World Reason A) :=
  match settled with
  | [] => ([], [])
  | (i, r) :: settled' =>
      if isRejected (outcome r) then ([(i, r)], settled')
      else
        let '(upTo, later) := splitAtRejection settled' in
        ((i, r) :: upTo, later)
  end.

Definition eventsOf {A} (settled : list (nat * Run World Reason A))
    : list (Event Reason) :=
  concat ((λ ir, trace ir.2 ++ late ir.2) <$> settled).

(** Every index below [n] once: first as the provider has them settle,
    then whatever it left out, in index order. *)
Definition settleSequence (n : nat) (order : list nat) : list nat :=
  reverse (remove_dups (reverse (filter (λ i, i < n)%nat order ++ seq 0 n))).

(** [Promise.all]: rejects with the first rejection to happen, otherwise
    resolves with the values in the order of the input array. What the
    other branches do after a rejection comes after the settlement. *)
Definition promiseAll {A} (order : list nat) (conts : list (Mo A))
    : Mo (list A) :=
  λ w,
    let n := List.length conts in
    let settled := runSettled (settleSequence n order) conts w in
    let w' := default w (last (world ∘ snd <$> settled)) in
    let '(upTo, later) := splitAtRejection settled in
    match last (outcome ∘ snd <$> upTo) with
    | Some (Rejected e) =>
        mkRun (Rejected e) w' (eventsOf upTo) (eventsOf later)
    | _ =>
        let results : gmap nat (Outcome Reason A) :=
          list_to_map (prod_map id outcome <$> settled) in
        match mapM (λ i, results !! i ≫= resolvedValue) (seq 0 n) with
        | Some values => mkRun (Resolved values) w' (eventsOf upTo) []
        | None => mkRun Pending w' (eventsOf upTo) []
        end
    end.

Definition generateImagesAndCaptions
    (prompt textOverlay : string) (variations : Z)
    (userId : option string) : Mo (list MediaResult) :=
  let fullPrompt := imagePrompt prompt textOverlay in
  let params := {| gip_model := "imagen-4.0-generate-001";
                   gip_prompt := fullPrompt;
                   gip_numberOfImages := variations;
                   gip_outputMimeType := "image/jpeg";
                   gip_aspectRatio := "1:1" |} in
  imageResponse ← await (generateImages ai params) (GenerateImages params);
  branches ← mapM (startBranch prompt) (generatedImages imageResponse);
  order ← (λ w, mkRun (Resolved (settleOrder ai (List.length branches) w))
                      w [] []);
  generatedImages ← promiseAll order
                      (finishBranch prompt userId <$> branches);
  mret generatedImages.

End Orchestrator.

(** ** firestoreService: the in-memory history store

    [db.history] is an object used as a map from user ids to arrays. Each
    function awaits a timer first and then runs to its end without another
    [await], so it acts on the store in one step. *)

Abbreviation HistoryDb := (gmap string (list GeneratedMedia)).

(** [Array.prototype.sort(compareFn)] is stable: an element goes behind those
    it compares greater than, and ahead of the rest. *)
Fixpoint insertSorted {A} (compareFn : A → A → Z) (x : A) (l : list A)
    : list A :=
  match l with
  | [] => [x]
  | y :: l' =>
      if (0 <? compareFn x y)%Z then y :: insertSorted compareFn x l'
      else x :: y :: l'
  end.

Definition sort {A} (compareFn : A → A → Z) (l : list A) : list A :=
  foldr (insertSorted compareFn) [] l.

(** [(a, b) => b.timestamp - a.timestamp] *)
Definition newestFirst (a b : GeneratedMedia) : Z :=
  media_timestamp b - media_timestamp a.

(** The store is a plain object, [{}], so next to the logs written to it
    a read finds the members every object inherits from [Object.prototype].
    These are their names. *)
Definition objectPrototypeNames : list string := [
  "constructor"; "__proto__"; "hasOwnProperty"; "isPrototypeOf";
  "propertyIsEnumerable"; "toLocaleString"; "toString"; "valueOf";
  "__defineGetter__"; "__defineSetter__"; "__lookupGetter__";
  "__lookupSetter__"
].

(** [if (!db.history[userId]) db.history[userId] = [];], at a user id that
    is not one of [objectPrototypeNames]: the read finds the user's log or
    [undefined]. *)
Definition ensureLog (userId : string) (history : HistoryDb) : HistoryDb :=
  match history !! userId with
  | Some _ => history
  | None => <[userId := []]> history
  end.

Definition getHistory (userId : string) (history : HistoryDb)
    : list GeneratedMedia * HistoryDb :=
  let history := ensureLog userId history in
  (sort newestFirst (default [] (history !! userId)), history).

(** What a read [db.history[userId]] finds: the user's own log, a member
    inherited from [Object.prototype], or [undefined]. *)
Inductive Property (A : Type) :=
| ownValue (a : A)
| inheritedMember
| undefinedValue.
Arguments ownValue {A} a.
Arguments inheritedMember {A}.
Arguments undefinedValue {A}.

Definition readProperty {A} (name : string) (object : gmap string A)
    : Property A :=
  match object !! name with
  | Some a => ownValue a
  | None =>
      if bool_decide (name ∈ objectPrototypeNames) then inheritedMember
      else undefinedValue
  end.

(** [getHistory] at any user id. A log, even an empty one, and an
    inherited member are truthy, so the guard writes only where the read
    finds [undefined]. The inherited members are functions and
    [Object.prototype] itself, none of them iterable: the spread throws a
    [TypeError], the promise rejects ([None]), and the store stays as it
    was. *)
Definition getHistoryAt (userId : string) (history : HistoryDb)
    : option (list GeneratedMedia) * HistoryDb :=
  let history :=
    match readProperty userId history with
    | undefinedValue => <[userId := []]> history
    | _ => history
    end in
  match readProperty userId history with
  | ownValue log => (Some (sort newestFirst log), history)
  | _ => (None, history)
  end.

(** [idNow] and [stamp] are the two readings of [Date.now()], [random] the
    rendering of [Math.random()] in the template literal. *)
Definition addToHistory (idNow : Z) (random : string) (stamp : Z)
    (userId : string) (itemData : MediaItemData) (history : HistoryDb)
    : GeneratedMedia * HistoryDb :=
  let history := ensureLog userId history in
  let newItem := {|
    media_id := "media-" +:+ pretty idNow +:+ "-" +:+ random;
    media_type := item_type itemData;
    media_prompt := item_prompt itemData;
    media_url := item_url itemData;
    media_caption := item_caption itemData;
    media_timestamp := stamp;
  |} in
  (newItem, <[userId := default [] (history !! userId) ++ [newItem]]> history).

(** What a caller can see of a user's log. *)
Definition historyOf (history : HistoryDb) (userId : string)
    : list GeneratedMedia :=
  default [] (history !! userId).

(** [newerOrEqual a b]: [a] may stand before [b] in a newest-first list. *)
Definition newerOrEqual (a b : GeneratedMedia) : Prop :=
  (media_timestamp b ≤ media_timestamp a)%Z.

(** ** The History Recorder behind the detached calls *)

(** The store of [firestoreService]; the world also holds what the clock and
    the random source will give to the writes to come. *)
Record MemWorld := mkMem {
  mem_history : HistoryDb;
  mem_readings : list (Z * string * Z);
}.

Definition memoryRecorder {Reason} : Recorder MemWorld Reason := {|
  append userId itemData rw :=
    let '(idNow, random, stamp) := default (0, "0", 0) (head (mem_readings rw)) in
    let '(item, history) :=
      addToHistory idNow random stamp userId itemData (mem_history rw) in
    (inr item, mkMem history (tail (mem_readings rw)))
|}.

(** A recorder whose every write fails. *)
Definition failingRecorder {RWorld Reason} (reason : Reason)
    : Recorder RWorld Reason := {|
  append userId itemData rw := (inl reason, rw)
|}.

(** The provider [ai] with the recorder [rec] behind it. The world is that
    of the provider together with that of the recorder: the collaborators
    act on the first, the recorder on the second. *)
Definition withRecorder {World RWorld Reason}
    (rec : Recorder RWorld Reason) (ai : Provider World Reason)
    : Provider (World * RWorld) Reason := {|
  generateImages := λ p ww,
    let '(r, w) := generateImages ai p ww.1 in (r, (w, ww.2));
  generateContent := λ p ww,
    let '(r, w) := generateContent ai p ww.1 in (r, (w, ww.2));
  generateVideos := λ p ww,
    let '(r, w) := generateVideos ai p ww.1 in (r, (w, ww.2));
  getVideosOperation := λ op ww,
    let '(r, w) := getVideosOperation ai op ww.1 in (r, (w, ww.2));
  fetch := λ input ww,
    let '(r, w) := fetch ai input ww.1 in (r, (w, ww.2));
  blob := λ resp ww,
    let '(r, w) := blob ai resp ww.1 in (r, (w, ww.2));
  createObjectURL := λ b ww,
    let '(r, w) := createObjectURL ai b ww.1 in (r, (w, ww.2));
  setTimeout := λ ms ww, (setTimeout ai ms ww.1, ww.2);
  settleOrder := λ n ww, settleOrder ai n ww.1;
  recorder := {|
    append userId itemData ww :=
      let '(r, rw) := append rec userId itemData ww.2 in (r, (ww.1, rw))
  |};
|}.

(** The caller's callback in front of that provider: it does not see the
    recorder's world. *)
Definition besideRecorder {World RWorld}
    (onProgress : string → World → World)
    : string → World * RWorld → World * RWorld :=
  λ message ww, (onProgress message ww.1, ww.2).

(** Two calls agree on related worlds: they answer the same, and the worlds
    they leave are related. *)
Definition Agree {W1 W2 X} (R : W1 → W2 → Prop)
    (call1 : W1 → X * W1) (call2 : W2 → X * W2) : Prop :=
  ∀ w1 w2, R w1 w2 →
    (call1 w1).1 = (call2 w2).1 ∧ R (call1 w1).2 (call2 w2).2.

(** Two providers that differ in the recorder at most. On worlds related by
    [R] every collaborator but the recorder answers the same; of the two
    recorders only this is asked, that a write keeps the worlds related:
    what a write returns, a new entry or a rejection, is left open. *)
Record SameButRecorder {W1 W2 Reason} (R : W1 → W2 → Prop)
    (ai1 : Provider W1 Reason) (ai2 : Provider W2 Reason) : Prop := {
  same_generateImages p :
    Agree R (generateImages ai1 p) (generateImages ai2 p);
  same_generateContent p :
    Agree R (generateContent ai1 p) (generateContent ai2 p);
  same_generateVideos p :
    Agree R (generateVideos ai1 p) (generateVideos ai2 p);
  same_getVideosOperation op :
    Agree R (getVideosOperation ai1 op) (getVideosOperation ai2 op);
  same_fetch input : Agree R (fetch ai1 input) (fetch ai2 input);
  same_blob resp : Agree R (blob ai1 resp) (blob ai2 resp);
  same_createObjectURL b :
    Agree R (createObjectURL ai1 b) (createObjectURL ai2 b);
  same_setTimeout ms w1 w2 :
    R w1 w2 → R (setTimeout ai1 ms w1) (setTimeout ai2 ms w2);
  same_settleOrder n w1 w2 :
    R w1 w2 → settleOrder ai1 n w1 = settleOrder ai2 n w2;
  recorder_apart userId itemData w1 w2 :
    R w1 w2 →
    R (append (recorder ai1) userId itemData w1).2
      (append (recorder ai2) userId itemData w2).2;
}.

(** Two computations a caller cannot tell apart: from related worlds they
    settle alike, make the same calls, and leave related worlds. *)
Definition Alike {W1 W2 Reason A} (R : W1 → W2 → Prop)
    (m1 : M W1 Reason A) (m2 : M W2 Reason A) : Prop :=
  ∀ w1 w2, R w1 w2 →
    outcome (m1 w1) = outcome (m2 w2) ∧
    trace (m1 w1) = trace (m2 w2) ∧
    late (m1 w1) = late (m2 w2) ∧
    R (world (m1 w1)) (world (m2 w2)).

Definition detachedCalls {Reason} (t : list (Event Reason))
    : list (string * MediaItemData) :=
  omap (λ e, match e with
             | AddToHistory userId itemData => Some (userId, itemData)
             | _ => None
             end) t.

(** ** Reading a trace *)

Section Traces.
Context {Reason : Type}.
Implicit Types (t : list (Event Reason)) (e : Event Reason).

Definition progressOf t : list string :=
  omap (λ e, match e with Progress m => Some m | _ => None end) t.

(** The refresh calls: the handle passed, and what came back. *)
Definition refreshesOf t : list (Operation * (Reason + Operation)) :=
  omap (λ e, match e with
             | GetVideosOperation op ret => Some (op, ret)
             | _ => None
             end) t.

(** What the submit and the refreshes returned, in order. *)
Definition handlesOf t : list (Reason + Operation) :=
  omap (λ e, match e with
             | GenerateVideos _ ret => Some ret
             | GetVideosOperation _ ret => Some ret
             | _ => None
             end) t.

(** The handle the workflow holds at the end of the trace. *)
Definition lastHandle t : option Operation :=
  match last (handlesOf t) with
  | Some (inr op) => Some op
  | _ => None
  end.

Definition isFetch e : bool :=
  match e with Fetch _ _ => true | _ => false end.

Definition isRefresh e : bool :=
  match e with GetVideosOperation _ _ => true | _ => false end.

(** The events before the first one that satisfies [p], and those after. *)
Fixpoint before (p : Event Reason → bool) t : list (Event Reason) :=
  match t with
  | [] => []
  | e :: t' => if p e then [] else e :: before p t'
  end.

Fixpoint after (p : Event Reason → bool) t : list (Event Reason) :=
  match t with
  | [] => []
  | e :: t' => if p e then t' else after p t'
  end.

(** The flavor message of poll iteration [k]. *)
Definition flavor (k : nat) : string :=
  nth (k mod 5) progressMessages "undefined".

(** The loop only reports progress, sleeps and refreshes. *)
Definition isPollEvent (e : Event Reason) : bool :=
  match e with
  | Progress m => bool_decide (m ∈ progressMessages)
  | SetTimeout _ | GetVideosOperation _ _ => true
  | _ => false
  end.

(** The batch requests made, with what came back. *)
Definition batchRequests t
    : list (GenerateImagesParams * (Reason + GenerateImagesResponse)) :=
  omap (λ e, match e with
             | GenerateImages params ret => Some (params, ret)
             | _ => None
             end) t.

(** The caption requests made, with what came back. *)
Definition captionRequests t
    : list (GenerateContentParams * (Reason + GenerateContentResponse)) :=
  omap (λ e, match e with
             | GenerateContent params ret => Some (params, ret)
             | _ => None
             end) t.

(** The images the provider returned, in its order. *)
Definition imagesReturned t : list GeneratedImage :=
  mjoin (omap (λ e, match e with
                    | GenerateImages _ (inr resp) => Some (generatedImages resp)
                    | _ => None
                    end) t).

End Traces.

(** ** The shape of a run of the poll loop

    [PollTrace k op t o]: from iteration [k] with handle [op] in hand, the
    loop makes the calls [t] and leaves its promise as [o]. *)

Inductive PollTrace {Reason : Type}
    : nat → Operation → list (Event Reason) → Outcome Reason Operation → Prop :=
| poll_exit k op :
    op_done op = true → PollTrace k op [] (Resolved op)
| poll_out_of_fuel k op :
    op_done op = false → PollTrace k op [] Pending
| poll_rejected k op reason :
    op_done op = false →
    PollTrace k op
      [Progress (flavor k); SetTimeout 10000;
       GetVideosOperation op (inl reason)]
      (Rejected (Rejection reason))
| poll_again k op op' t o :
    op_done op = false →
    PollTrace (S k) op' t o →
    PollTrace k op
      (Progress (flavor k) :: SetTimeout 10000 ::
       GetVideosOperation op (inr op') :: t) o.

Section PollFacts.
Context {World Reason : Type}.
Context (ai : Provider World Reason).
Context (onProgress : string → World → World).

(** One turn of the loop. *)
Lemma pollLoop_step fuel k op w :
  op_done op = false →
  pollLoop ai (S fuel) onProgress k op w =
  match getVideosOperation ai op
          (setTimeout ai 10000 (onProgress (flavor k) w)) with
  | (inl reason, w') =>
      mkRun (Rejected (Rejection reason)) w'
        [Progress (flavor k); SetTimeout 10000;
         GetVideosOperation op (inl reason)] []
  | (inr op', w') =>
      match pollLoop ai fuel onProgress (S k) op' w' with
      | mkRun o w'' t l =>
          mkRun o w''
            (Progress (flavor k) :: SetTimeout 10000 ::
             GetVideosOperation op (inr op') :: t) l
      end
  end.
Proof.
  intros Hd. simpl. rewrite Hd.
  unfold mbind, M_bind, report, sleep, perform, await; simpl.
  unfold flavor. simpl.
  destruct (getVideosOperation ai op _) as [[reason|op'] w']; [done|].
  by destruct (pollLoop ai fuel onProgress (S k) op' w').
Qed.

Lemma pollLoop_shape fuel : ∀ k op w,
  let r := pollLoop ai fuel onProgress k op w in
  PollTrace k op (trace r) (outcome r) ∧ late r = [].
Proof.
  induction fuel as [|fuel IH]; intros k op w; simpl.
  - destruct (op_done op) eqn:Hd; simpl; split; auto using @PollTrace.
  - destruct (op_done op) eqn:Hd; simpl; [split; auto using @PollTrace|].
    unfold mbind, M_bind, report, sleep, perform, await; simpl.
    destruct (getVideosOperation ai op _) as [[reason|op'] w'] eqn:Hg; simpl.
    + split; [|done]. by apply poll_rejected.
    + destruct (IH (S k) op' w') as [Ht Hl].
      destruct (pollLoop ai fuel onProgress (S k) op' w') as [o w'' t l].
      simpl in *. subst l. split; [|done]. by apply poll_again.
Qed.

(** Once the handle in hand is complete, the loop exits whatever fuel is
    left; and more fuel never changes a run that has settled. *)
Lemma pollLoop_fuel_mono fuel : ∀ fuel' k op w,
  (fuel ≤ fuel')%nat →
  outcome (pollLoop ai fuel onProgress k op w) ≠ Pending →
  pollLoop ai fuel' onProgress k op w = pollLoop ai fuel onProgress k op w.
Proof.
  induction fuel as [|fuel IH]; intros fuel' k op w Hle Hne.
  - simpl in *. destruct (op_done op) eqn:Hd.
    + destruct fuel'; simpl; by rewrite Hd.
    + by destruct Hne.
  - destruct fuel' as [|fuel']; [lia|]. simpl in *.
    destruct (op_done op) eqn:Hd; [done|].
    unfold mbind, M_bind, report, sleep, perform, await in *; simpl in *.
    destruct (getVideosOperation ai op _) as [[reason|op'] w'] eqn:Hg;
      simpl in *; [done|].
    rewrite (IH fuel' (S k) op' w'); [done|lia|].
    intros Hp. apply Hne.
    destruct (pollLoop ai fuel onProgress (S k) op' w') as [o w'' t l].
    simpl in Hp. by subst o.
Qed.

End PollFacts.

Section PollTraceFacts.
Context {Reason : Type}.
Implicit Types (t : list (Event Reason)) (o : Outcome Reason Operation).

Lemma PollTrace_progress k op t o :
  PollTrace k op t o →
  progressOf t = flavor <$> seq k (length (refreshesOf t)).
Proof. induction 1; simpl; [done..|]. by f_equal. Qed.

Lemma PollTrace_handles k op t o :
  PollTrace k op t o → handlesOf t = snd <$> refreshesOf t.
Proof. induction 1; simpl; [done..|]. by f_equal. Qed.

Lemma flavor_lookup k : progressMessages !! (k mod 5)%nat = Some (flavor k).
Proof.
  unfold flavor. pose proof (Nat.mod_upper_bound k 5).
  destruct (k mod 5)%nat as [|[|[|[|[|n]]]]]; simpl; try done; lia.
Qed.

Lemma flavor_elem k : flavor k ∈ progressMessages.
Proof. eapply list_elem_of_lookup_2, flavor_lookup. Qed.

Lemma PollTrace_events k op t o :
  PollTrace k op t o → Forall (λ e, isPollEvent e = true) t.
Proof.
  assert (∀ k, isPollEvent (Reason:=Reason) (Progress (flavor k)) = true)
    as Hf.
  { intros k'. simpl. apply bool_decide_eq_true, flavor_elem. }
  induction 1; repeat constructor; auto.
Qed.

(** A handle with its flag set ends the loop, and only such a handle. *)
Lemma PollTrace_done k op t o :
  PollTrace k op t o →
  ∀ op', inr op' ∈ inr op :: handlesOf t → op_done op' = true →
         o = Resolved op'.
Proof.
  induction 1 as [k op Hd|k op Hd|k op reason Hd|k op op' t o Hd Hp IH];
    intros op'' Hin Hd'; simpl in *.
  - apply elem_of_cons in Hin as [[= ->]|Hin]; [done|].
    by apply elem_of_nil in Hin.
  - apply elem_of_cons in Hin as [[= ->]|Hin]; [congruence|].
    by apply elem_of_nil in Hin.
  - apply elem_of_cons in Hin as [[= ->]|Hin]; [congruence|].
    apply elem_of_cons in Hin as [[=]|Hin]. by apply elem_of_nil in Hin.
  - apply elem_of_cons in Hin as [[= ->]|Hin]; [congruence|]. eauto.
Qed.

Lemma PollTrace_passed k0 op t o :
  PollTrace k0 op t o →
  ∀ k a ret, refreshesOf t !! k = Some (a, ret) →
    (inr op :: handlesOf t) !! k = Some (inr a) ∧ op_done a = false.
Proof.
  induction 1 as [k0 op Hd|k0 op Hd|k0 op reason Hd|k0 op op' t o Hd Hp IH];
    intros k a ret Hk; simpl in *; try done.
  - destruct k as [|k]; simpl in *; [|done]. by injection Hk as <- <-.
  - destruct k as [|k]; simpl in *; [by injection Hk as <- <-|]. eauto.
Qed.

(** The handle in hand when the loop stops: the last one returned, or the
    one it started with. *)
Lemma PollTrace_last k op t o :
  PollTrace k op t o →
  match o with
  | Resolved op' =>
      last (inr op :: handlesOf t) = Some (inr op') ∧ op_done op' = true
  | Pending =>
      ∃ op', last (inr op :: handlesOf t) = Some (inr op') ∧
             op_done op' = false
  | Rejected e =>
      ∃ reason, e = Rejection reason ∧
                last (inr op :: handlesOf t) = Some (inl reason)
  end.
Proof.
  induction 1 as [k op Hd|k op Hd|k op reason Hd|k op op' t o Hd Hp IH];
    simpl; eauto.
Qed.

(** No handle but the last has its flag set. *)
Lemma PollTrace_flags k op t o :
  PollTrace k op t o →
  ∀ i ret, (inr op :: handlesOf t) !! i = Some ret →
    (S i < length (inr op :: handlesOf t))%nat →
    ∃ op', ret = inr op' ∧ op_done op' = false.
Proof.
  induction 1 as [k op Hd|k op Hd|k op reason Hd|k op op' t o Hd Hp IH];
    intros i ret Hi Hlt; simpl in *; try lia.
  - destruct i as [|[|i]]; simpl in *; try lia. naive_solver.
  - destruct i as [|i]; simpl in *; [naive_solver|].
    apply (IH i ret Hi). lia.
Qed.

End PollTraceFacts.

(** ** The shape of a run of the video workflow *)

Section VideoShape.
Context {Reason : Type}.
Context (API_KEY prompt musicSuggestion : string) (userId : option string).

Definition submitParams : GenerateVideosParams :=
  {| gvp_model := "veo-2.0-generate-001";
     gvp_prompt := videoPrompt prompt musicSuggestion;
     gvp_numberOfVideos := 1 |}.

Definition craftingMessage : string := "Crafting your video prompt...".
Definition sendingMessage : string :=
  "Sending request to video model... this can take a few minutes.".
Definition fetchingMessage : string :=
  "Video generation complete! Fetching the file...".
Definition captioningMessage : string := "Generating a catchy caption...".
Definition doneMessage : string := "Done!".
Definition noLinkMessage : string :=
  "Video generation failed or returned no link.".

(** The submission phase, with what the job creation returned. *)
Definition submission (ret : Reason + Operation) : list (Event Reason) :=
  [Progress craftingMessage; Progress sendingMessage;
   GenerateVideos submitParams ret].

Definition fetchInput (op : Operation) : string :=
  default "undefined" (downloadLinkOf op) +:+ "&key=" +:+ API_KEY.

Definition videoCaptionParams : GenerateContentParams :=
  {| gcp_model := "gemini-2.5-flash";
     gcp_contents := videoCaptionPrompt prompt |}.

Definition videoHistoryCall (result : MediaResult) : list (Event Reason) :=
  if truthy_opt userId then
    [AddToHistory (default "" userId)
       {| item_url := url result; item_caption := caption result;
          item_prompt := prompt; item_type := video |}]
  else [].

(** [FetchTrace op t o]: what the workflow does once the loop has exited
    with [op] in hand. *)
Inductive FetchTrace (op : Operation)
    : list (Event Reason) → Outcome Reason MediaResult → Prop :=
| fetch_no_link :
    truthy_opt (downloadLinkOf op) = false →
    FetchTrace op [Progress fetchingMessage]
      (Rejected (JsError noLinkMessage))
| fetch_rejected reason :
    truthy_opt (downloadLinkOf op) = true →
    FetchTrace op
      [Progress fetchingMessage; Fetch (fetchInput op) (inl reason)]
      (Rejected (Rejection reason))
| fetch_blob_rejected resp reason :
    truthy_opt (downloadLinkOf op) = true →
    FetchTrace op
      [Progress fetchingMessage; Fetch (fetchInput op) (inr resp);
       ReadBlob resp (inl reason)]
      (Rejected (Rejection reason))
| fetch_caption_rejected resp b videoUrl reason :
    truthy_opt (downloadLinkOf op) = true →
    FetchTrace op
      [Progress fetchingMessage; Fetch (fetchInput op) (inr resp);
       ReadBlob resp (inr b); CreateObjectURL b videoUrl;
       Progress captioningMessage;
       GenerateContent videoCaptionParams (inl reason)]
      (Rejected (Rejection reason))
| fetch_resolved resp b videoUrl captionResponse :
    truthy_opt (downloadLinkOf op) = true →
    let result := {| url := videoUrl; caption := text captionResponse |} in
    FetchTrace op
      ([Progress fetchingMessage; Fetch (fetchInput op) (inr resp);
        ReadBlob resp (inr b); CreateObjectURL b videoUrl;
        Progress captioningMessage;
        GenerateContent videoCaptionParams (inr captionResponse);
        Progress doneMessage] ++ videoHistoryCall result)
      (Resolved result).

Inductive VideoRun
    : list (Event Reason) → Outcome Reason MediaResult → Prop :=
| run_submit_rejected reason :
    VideoRun (submission (inl reason)) (Rejected (Rejection reason))
| run_poll_pending op t :
    PollTrace 0 op t Pending →
    VideoRun (submission (inr op) ++ t) Pending
| run_poll_rejected op t e :
    PollTrace 0 op t (Rejected e) →
    VideoRun (submission (inr op) ++ t) (Rejected e)
| run_fetch op t op' t' o :
    PollTrace 0 op t (Resolved op') →
    FetchTrace op' t' o →
    VideoRun (submission (inr op) ++ t ++ t') o.

End VideoShape.

(** The loop has exited: the statement that follows it, the call of the
    callback with the fetching message, was reached. *)
Definition pollExited {Reason} (t : list (Event Reason)) : Prop :=
  Progress fetchingMessage ∈ t.

(** The submit or a refresh returned a handle whose flag is set. *)
Definition completionReported {Reason} (t : list (Event Reason)) : Prop :=
  ∃ op, inr op ∈ handlesOf t ∧ op_done op = true.

(** A refresh returned a handle whose flag is set. *)
Definition refreshReportedCompletion {Reason} (t : list (Event Reason))
    : Prop :=
  ∃ held op, GetVideosOperation held (inr op) ∈ t ∧ op_done op = true.

(** ** The shape of a run of the image workflow *)

Section ImageShape.
Context {Reason : Type}.
Context (prompt textOverlay : string) (variations : Z).

Definition imageParams : GenerateImagesParams :=
  {| gip_model := "imagen-4.0-generate-001";
     gip_prompt := imagePrompt prompt textOverlay;
     gip_numberOfImages := variations;
     gip_outputMimeType := "image/jpeg";
     gip_aspectRatio := "1:1" |}.

Definition imageCaptionParams : GenerateContentParams :=
  {| gcp_model := "gemini-2.5-flash";
     gcp_contents := imageCaptionPrompt prompt |}.

Definition imageUrlOf (img : GeneratedImage) : string :=
  "data:image/jpeg;base64," +:+ imageBytes (gi_image img).

Definition imageResult (img : GeneratedImage) (c : GenerateContentResponse)
    : MediaResult :=
  {| url := imageUrlOf img; caption := text c |}.

Definition isHistoryCall (e : Event Reason) : bool :=
  match e with AddToHistory _ _ => true | _ => false end.

(** [ImageRun t l o]: the calls made until the promise settled, those made
    after, and the promise. The caption requests are issued in the order of
    the images; the history calls follow as the captions arrive. *)
Inductive ImageRun
    : list (Event Reason) → list (Event Reason) →
      Outcome Reason (list MediaResult) → Prop :=
| images_rejected reason :
    ImageRun [GenerateImages imageParams (inl reason)] []
             (Rejected (Rejection reason))
| images_resolved resp caps hist :
    length caps = length (generatedImages resp) →
    Forall (λ e, isHistoryCall e = true) hist →
    ImageRun
      (GenerateImages imageParams (inr resp)
         :: (GenerateContent imageCaptionParams ∘ inr <$> caps) ++ hist)
      []
      (Resolved (zip_with imageResult (generatedImages resp) caps))
| images_caption_rejected resp rets reason hist after :
    length rets = length (generatedImages resp) →
    inl reason ∈ rets →
    Forall (λ e, isHistoryCall e = true) hist →
    Forall (λ e, isHistoryCall e = true) after →
    ImageRun
      (GenerateImages imageParams (inr resp)
         :: (GenerateContent imageCaptionParams <$> rets) ++ hist)
      after
      (Rejected (Rejection reason)).

End ImageShape.

Section ImageBranches.
Context {Reason : Type}.

(** What a branch resolves with, when its caption arrived. *)
Definition branchResult (b : Branch (Reason:=Reason)) : option MediaResult :=
  match br_caption b with
  | inr c => Some {| url := br_imageUrl b; caption := text c |}
  | inl _ => None
  end.

(** The branches as [map] leaves them: one per image, in order, each with
    its caption request issued. *)
Definition branchesOf (imgs : list GeneratedImage)
    (rets : list (Reason + GenerateContentResponse)) : list Branch :=
  zip_with (λ img ret, mkBranch (imageUrlOf img) ret) imgs rets.

End ImageBranches.

(** What the provider answers to [n] caption requests, made one after the
    other from the world [w]. *)
Fixpoint captionAnswers {World Reason} (ai : Provider World Reason)
    (cparams : GenerateContentParams) (n : nat) (w : World)
    : list (Reason + GenerateContentResponse) :=
  match n with
  | O => []
  | S n' =>
      let '(r, w') := generateContent ai cparams w in
      r :: captionAnswers ai cparams n' w'
  end.

(** ** Stub providers *)

Module Stub.

Definition videoAt (link : string) : GenerateVideosResponse :=
  {| generatedVideos :=
       Some [ {| gv_video := Some {| uri := Some link |} |} ] |}.

Definition handle (finished : bool) (response : option GenerateVideosResponse)
    : Operation :=
  {| op_name := "operations/1"; op_done := finished;
     op_response := response |}.

(** A provider that plays a script: what each call returns is read from
    the world, which is what is left of the script. *)
Record Script := mkScript {
  images : string + GenerateImagesResponse;
  captions : list (string + GenerateContentResponse);
  submitted : string + Operation;
  refreshed : list (string + Operation);
  fetched : string + FetchResponse;
  blobbed : string + Blob;
  settles : list nat;
}.

Definition scripted : Provider Script string := {|
  generateImages := λ p w, (images w, w);
  generateContent := λ p w,
    (default (inr {| text := "" |}) (head (captions w)),
     mkScript (images w) (tail (captions w)) (submitted w) (refreshed w)
              (fetched w) (blobbed w) (settles w));
  generateVideos := λ p w, (submitted w, w);
  getVideosOperation := λ op w,
    (default (inr op) (head (refreshed w)),
     mkScript (images w) (captions w) (submitted w) (tail (refreshed w))
              (fetched w) (blobbed w) (settles w));
  fetch := λ input w, (fetched w, w);
  blob := λ r w, (blobbed w, w);
  createObjectURL := λ b w, ("blob:" +:+ blob_bytes b, w);
  setTimeout := λ ms w, w;
  settleOrder := λ n w, settles w;
  recorder := failingRecorder "history unavailable";
|}.

Definition picture (bytes : string) : GeneratedImage :=
  {| gi_image := {| imageBytes := bytes |} |}.

(** Everything succeeds: two images, one caption text, a video that is
    complete from the start. *)
Definition happy : Script := {|
  images := inr {| generatedImages := [picture "AAAA"; picture "BBBB"] |};
  captions := [inr {| text := "Ride on! #bike" |};
               inr {| text := "Ride on! #bike" |}];
  submitted := inr (handle true (Some (videoAt "https://video/1?alt=media")));
  refreshed := [];
  fetched := inr {| resp_body := "mp4" |};
  blobbed := inr {| blob_bytes := "mp4" |};
  settles := [];
|}.

(** The world counts the refreshes made; the handle reports completion on
    the refresh that brings the count to [n] (on the submit when [n = 0]). *)
Definition completesOn (n : nat) : Provider nat string := {|
  generateImages := λ p w, (inl "no images", w);
  generateContent := λ p w, (inr {| text := "Watch this! #video" |}, w);
  generateVideos := λ p w,
    (inr (handle (bool_decide (n = 0)%nat)
                 (Some (videoAt "https://video/1?alt=media"))), w);
  getVideosOperation := λ op w,
    (inr (handle (bool_decide (S w = n)%nat) (op_response op)), S w);
  fetch := λ input w, (inr {| resp_body := "mp4" |}, w);
  blob := λ r w, (inr {| blob_bytes := resp_body r |}, w);
  createObjectURL := λ b w, ("blob:1", w);
  setTimeout := λ ms w, w;
  settleOrder := λ n w, [];
  recorder := failingRecorder "history unavailable";
|}.

Definition silent {World} : string → World → World := λ _ w, w.

(** The provider honours every call but returns a single image, whatever
    the number asked for. *)
Definition oneImage : Script := {|
  images := inr {| generatedImages := [picture "AAAA"] |};
  captions := captions happy;
  submitted := submitted happy;
  refreshed := [];
  fetched := fetched happy;
  blobbed := blobbed happy;
  settles := [];
|}.

(** The caption request of the second image is refused; the first image's
    caption arrives last. *)
Definition captionFails : Script := {|
  images := images happy;
  captions := [inr {| text := "Ride on! #bike" |}; inl "rate limited"];
  submitted := submitted happy;
  refreshed := [];
  fetched := fetched happy;
  blobbed := blobbed happy;
  settles := [1; 0]%nat;
|}.

(** The batch request is refused. *)
Definition batchFails : Script := {|
  images := inl "quota exceeded";
  captions := captions happy;
  submitted := submitted happy;
  refreshed := [];
  fetched := fetched happy;
  blobbed := blobbed happy;
  settles := [];
|}.

(** Every call succeeds, and the caption text of the second image is the
    empty string. *)
Definition blankCaption : Script := {|
  images := images happy;
  captions := [inr {| text := "Ride on! #bike" |}; inr {| text := "" |}];
  submitted := submitted happy;
  refreshed := [];
  fetched := fetched happy;
  blobbed := blobbed happy;
  settles := [];
|}.

(** The operation is complete at once, with no video in its payload. *)
Definition noLink : Script := {|
  images := images happy;
  captions := captions happy;
  submitted := inr (handle true None);
  refreshed := [];
  fetched := fetched happy;
  blobbed := blobbed happy;
  settles := [];
|}.

(** The job creation is refused. *)
Definition submitFails : Script := {|
  images := images happy;
  captions := captions happy;
  submitted := inl "quota exceeded";
  refreshed := [];
  fetched := fetched happy;
  blobbed := blobbed happy;
  settles := [];
|}.


End Stub.



Section VideoShapeFacts.
Context {Reason : Type}.
Context (API_KEY prompt musicSuggestion : string) (userId : option string).

Lemma generateVideoAndCaption_shape {World}
    (ai : Provider World Reason) (fuel : nat)
    (onProgress : string → World → World) (w : World) :
  let r := generateVideoAndCaption ai API_KEY fuel prompt musicSuggestion
             onProgress userId w in
  VideoRun API_KEY prompt musicSuggestion userId (trace r) (outcome r) ∧
  late r = [].
Proof.
  unfold generateVideoAndCaption, addToHistoryDetached.
  unfold mbind, M_bind, mret, M_ret, throw, report, perform, await; simpl.
  destruct (generateVideos ai _ _) as [[reason|op] w1]; simpl.
  { split; [apply run_submit_rejected|done]. }
  pose proof (pollLoop_shape ai onProgress fuel 0 op w1) as [Hp Hl].
  simpl in Hp, Hl.
  destruct (pollLoop ai fuel onProgress 0 op w1) as [o w2 t l]; simpl in *.
  subst l. destruct o as [op'|e|]; simpl.
  2:{ split; [by apply run_poll_rejected|done]. }
  2:{ split; [by apply run_poll_pending|done]. }
  destruct (truthy_opt (downloadLinkOf op')) eqn:Hlink; simpl.
  2:{ split; [|done].
      apply (run_fetch _ _ _ _ op t op' [_] _ Hp). by apply fetch_no_link. }
  destruct (fetch ai _ _) as [[reason|resp] w3]; simpl.
  { split; [|done].
    apply (run_fetch _ _ _ _ op t op' [_; _] _ Hp). by apply fetch_rejected. }
  destruct (blob ai _ _) as [[reason|b] w4]; simpl.
  { split; [|done].
    apply (run_fetch _ _ _ _ op t op' [_; _; _] _ Hp).
    by apply fetch_blob_rejected. }
  destruct (createObjectURL ai _ _) as [videoUrl w5]; simpl.
  destruct (generateContent ai _ _) as [[reason|captionResponse] w6]; simpl.
  { split; [|done].
    apply (run_fetch _ _ _ _ op t op' [_; _; _; _; _; _] _ Hp).
    by apply fetch_caption_rejected. }
  pose proof (fetch_resolved (Reason:=Reason) API_KEY prompt userId op' resp b
                videoUrl captionResponse Hlink)
    as Hf.
  unfold videoHistoryCall in Hf.
  destruct (truthy_opt userId); simpl in *; (split; [|done]);
    by apply (run_fetch _ _ _ _ op t op' _ _ Hp).
Qed.

End VideoShapeFacts.

(** ** Reading the traces of the video workflow *)

(** Membership in a list given by its elements: the cases left are those
    where the element can be one of them. *)
Ltac elem_cases H :=
  cbv [submission craftingMessage sendingMessage fetchingMessage
       captioningMessage doneMessage] in H;
  simpl in H;
  repeat (apply elem_of_cons in H as [H|H]; [try discriminate H|]);
  try (by apply elem_of_nil in H).

Ltac elem_here :=
  repeat first [apply list_elem_of_here | apply list_elem_of_further].

Section TraceFacts.
Context {Reason : Type}.
Implicit Types (t : list (Event Reason)) (p : Event Reason → bool).

Lemma progressOf_app t1 t2 :
  progressOf (t1 ++ t2) = progressOf t1 ++ progressOf t2.
Proof. apply omap_app. Qed.

Lemma refreshesOf_app t1 t2 :
  refreshesOf (t1 ++ t2) = refreshesOf t1 ++ refreshesOf t2.
Proof. apply omap_app. Qed.

Lemma handlesOf_app t1 t2 :
  handlesOf (t1 ++ t2) = handlesOf t1 ++ handlesOf t2.
Proof. apply omap_app. Qed.



Lemma before_all p t : Forall (λ e, p e = false) t → before p t = t.
Proof. induction 1 as [|e t He _ IH]; simpl; [done|]. by rewrite He, IH. Qed.

Lemma poll_events_not_fetch t :
  Forall (λ e, isPollEvent e = true) t → Forall (λ e, isFetch e = false) t.
Proof. intros H. eapply Forall_impl; [exact H|]. by intros []. Qed.

Lemma poll_events_progress t m :
  Forall (λ e, isPollEvent e = true) t → Progress m ∈ t →
  m ∈ progressMessages.
Proof.
  intros Hall Hin. rewrite Forall_forall in Hall. apply Hall in Hin.
  simpl in Hin. by apply bool_decide_eq_true in Hin.
Qed.

End TraceFacts.

Section VideoRunFacts.
Context {Reason : Type}.
Context (API_KEY prompt musicSuggestion : string) (userId : option string).
Implicit Types (t : list (Event Reason)) (o : Outcome Reason MediaResult).

Local Abbreviation FetchTrace' := (FetchTrace (Reason:=Reason) API_KEY prompt userId).
Local Abbreviation VideoRun' :=
  (VideoRun (Reason:=Reason) API_KEY prompt musicSuggestion userId).

Lemma FetchTrace_head op t o :
  FetchTrace' op t o → ∃ t', t = Progress fetchingMessage :: t'.
Proof. destruct 1; simpl; eauto. Qed.

Lemma FetchTrace_no_handles op t o :
  FetchTrace' op t o → handlesOf t = [] ∧ refreshesOf t = [].
Proof.
  destruct 1; simpl; try done.
  unfold videoHistoryCall. by destruct (truthy_opt userId).
Qed.

Lemma VideoRun_passed t o :
  VideoRun' t o →
  ∀ k a ret, refreshesOf t !! k = Some (a, ret) →
    handlesOf t !! k = Some (inr a) ∧ op_done a = false.
Proof.
  destruct 1 as [reason|op t Hp|op t e Hp|op t op' t' o Hp Hf];
    intros k a ret Hk.
  - done.
  - eapply PollTrace_passed; eauto.
  - eapply PollTrace_passed; eauto.
  - apply FetchTrace_no_handles in Hf as [Hh Hr].
    rewrite !refreshesOf_app, Hr, app_nil_r in Hk.
    rewrite !handlesOf_app, Hh, app_nil_r.
    eapply PollTrace_passed; eauto.
Qed.


Lemma lead_events op t0 po e :
  PollTrace (Reason:=Reason) 0 op t0 po →
  e ∈ submission prompt musicSuggestion (inr op) ++ t0 →
  isPollEvent e = true ∨ e ∈ submission prompt musicSuggestion (inr op).
Proof.
  intros Hp Hin. apply elem_of_app in Hin as [Hin|Hin]; [by right|left].
  apply PollTrace_events in Hp. rewrite Forall_forall in Hp. auto.
Qed.

Lemma lead_no_fetch op t0 po :
  PollTrace (Reason:=Reason) 0 op t0 po →
  Forall (λ e, isFetch e = false)
         (submission prompt musicSuggestion (inr op) ++ t0).
Proof.
  intros Hp. apply Forall_app. split; [by repeat constructor|].
  by eapply poll_events_not_fetch, PollTrace_events.
Qed.

Lemma VideoRun_lastHandle op t0 po t' :
  PollTrace (Reason:=Reason) 0 op t0 po → handlesOf t' = [] →
  lastHandle (submission prompt musicSuggestion (inr op) ++ t0 ++ t') =
  match po with
  | Resolved op' => Some op'
  | Rejected _ => None
  | Pending => lastHandle (submission prompt musicSuggestion (inr op) ++ t0)
  end.
Proof.
  intros Hp Hh. unfold lastHandle.
  rewrite !handlesOf_app, Hh, app_nil_r.
  change (handlesOf (submission prompt musicSuggestion (inr op)))
    with [inr (A:=Reason) op]. simpl.
  apply PollTrace_last in Hp. destruct po as [op'|e|].
  - destruct Hp as [-> _]. done.
  - destruct Hp as (reason & _ & ->). done.
  - done.
Qed.

Lemma VideoRun_missing_link t o op :
  VideoRun' t o →
  lastHandle t = Some op → op_done op = true →
  truthy_opt (downloadLinkOf op) = false →
  o = Rejected (JsError noLinkMessage) ∧ ∀ input ret, Fetch input ret ∉ t.
Proof.
  destruct 1 as [reason|op0 t Hp|op0 t e Hp|op0 t op' t' o Hp Hf];
    intros Hlast Hd Hlink.
  - done.
  - pose proof (PollTrace_last _ _ _ _ Hp) as (op' & Hl & Hd'); simpl in Hl.
    unfold lastHandle in Hlast. simpl in Hlast.
    rewrite Hl in Hlast. congruence.
  - rewrite <-(app_nil_r t) in Hlast.
    rewrite (VideoRun_lastHandle _ _ _ [] Hp) in Hlast; done.
  - pose proof (FetchTrace_no_handles _ _ _ Hf) as [Hh _].
    rewrite (VideoRun_lastHandle _ _ _ _ Hp Hh) in Hlast.
    injection Hlast as ->.
    destruct Hf; try congruence. split; [done|].
    intros input ret Hin. rewrite app_assoc in Hin.
    apply elem_of_app in Hin as [Hin|Hin]; [|elem_cases Hin].
    pose proof (lead_no_fetch _ _ _ Hp) as Hall.
    rewrite Forall_forall in Hall. by apply Hall in Hin.
Qed.


Lemma lead_not_exited op t0 po :
  PollTrace (Reason:=Reason) 0 op t0 po →
  Progress fetchingMessage ∉ submission prompt musicSuggestion (inr op) ++ t0.
Proof.
  intros Hp Hin. apply (lead_events _ _ _ _ Hp) in Hin as [Hin|Hin].
  - done.
  - elem_cases Hin.
Qed.

Lemma VideoRun_exit t o :
  VideoRun' t o →
  Progress fetchingMessage ∈ t ↔
  ∃ op, inr op ∈ handlesOf t ∧ op_done op = true.
Proof.
  destruct 1 as [reason|op t Hp|op t e Hp|op t op' t' o Hp Hf].
  - split; [intros Hin|intros (op & Hin & _)]; elem_cases Hin.
  - split; [intros Hin; by eapply lead_not_exited in Hin|].
    intros (op' & Hin & Hd). by eapply PollTrace_done in Hp.
  - split; [intros Hin; by eapply lead_not_exited in Hin|].
    intros (op' & Hin & Hd). by eapply PollTrace_done in Hp.
  - split; intros _.
    + exists op'. apply PollTrace_last in Hp as [Hl Hd]. split; [|done].
      apply FetchTrace_no_handles in Hf as [Hh _].
      rewrite !handlesOf_app, Hh, app_nil_r.
      by apply last_Some_elem_of in Hl.
    + apply FetchTrace_head in Hf as [t'' ->].
      rewrite !elem_of_app, elem_of_cons. auto.
Qed.


(** The refresh that returns a complete handle is the last one. *)
Lemma VideoRun_refresh_count t o n opn :
  VideoRun' t o →
  handlesOf t !! n = Some (inr opn) → op_done opn = true →
  length (refreshesOf t) = n.
Proof.
  assert (∀ op t0 po, PollTrace (Reason:=Reason) 0 op t0 po →
    (inr op :: handlesOf t0) !! n = Some (inr opn) → op_done opn = true →
    length (refreshesOf t0) = n) as Hpoll.
  { intros op t0 po Hp Hn Hd.
    destruct (decide (S n < length (inr (A:=Reason) op :: handlesOf t0))%nat)
      as [Hlt|Hge].
    - destruct (PollTrace_flags _ _ _ _ Hp n _ Hn Hlt) as (op' & [= <-] & Hd').
      congruence.
    - apply lookup_lt_Some in Hn.
      rewrite (PollTrace_handles _ _ _ _ Hp) in Hn, Hge.
      simpl in Hn, Hge. rewrite length_fmap in Hn, Hge. lia. }
  destruct 1 as [reason|op t Hp|op t e Hp|op t op' t' o Hp Hf]; intros Hn Hd.
  - by destruct n as [|[|n]].
  - exact (Hpoll op t _ Hp Hn Hd).
  - exact (Hpoll op t _ Hp Hn Hd).
  - pose proof (FetchTrace_no_handles _ _ _ Hf) as [Hh Hr].
    rewrite !handlesOf_app, Hh, app_nil_r in Hn.
    rewrite !refreshesOf_app, Hr, app_nil_r.
    exact (Hpoll op t _ Hp Hn Hd).
Qed.



End VideoRunFacts.

(** ** Properties of the video workflow *)

Section VideoFacts.
Context {World Reason : Type}.
Context (ai : Provider World Reason) (API_KEY : string).
Context (prompt musicSuggestion : string).
Context (onProgress : string → World → World) (userId : option string).

Local Abbreviation video fuel w :=
  (generateVideoAndCaption ai API_KEY fuel prompt musicSuggestion
     onProgress userId w).

Lemma video_shape fuel w :
  VideoRun API_KEY prompt musicSuggestion userId
    (trace (video fuel w)) (outcome (video fuel w)).
Proof. apply generateVideoAndCaption_shape. Qed.

Lemma video_late fuel w : late (video fuel w) = [].
Proof. apply generateVideoAndCaption_shape. Qed.

(** More fuel does not change a run that has settled. *)
Lemma video_fuel_mono fuel fuel' w :
  (fuel ≤ fuel')%nat → outcome (video fuel w) ≠ Pending →
  video fuel' w = video fuel w.
Proof.
  intros Hle. unfold generateVideoAndCaption, addToHistoryDetached.
  unfold mbind, M_bind, mret, M_ret, throw, report, perform, await; simpl.
  destruct (generateVideos ai _ _) as [[reason|op] w1]; simpl; [done|].
  intros Hne.
  rewrite (pollLoop_fuel_mono ai onProgress fuel fuel' 0 op w1 Hle); [done|].
  intros Hp. apply Hne.
  destruct (pollLoop ai fuel onProgress 0 op w1) as [o w2 t l].
  simpl in Hp. by subst o.
Qed.

(** C1 (as amended). On every run, the handle passed to the refresh of poll
    iteration [k] is the one returned by the call before it (the submit for
    [k = 0], the refresh of iteration [k - 1] otherwise), and its flag is
    false. The loop exits to the fetch phase if and only if the submit or a
    refresh returns a handle whose flag is set; a run that has exited is
    the same with any more fuel. *)
Theorem C1_poll_handles_threaded :
  (∀ fuel w k held ret,
     refreshesOf (trace (video fuel w)) !! k = Some (held, ret) →
     handlesOf (trace (video fuel w)) !! k = Some (inr held) ∧
     op_done held = false) ∧
  (∀ fuel w,
     pollExited (trace (video fuel w)) ↔
     completionReported (trace (video fuel w))) ∧
  (∀ w, (∃ fuel, pollExited (trace (video fuel w))) ↔
        (∃ fuel, completionReported (trace (video fuel w)))) ∧
  (∀ fuel fuel' w, (fuel ≤ fuel')%nat →
     pollExited (trace (video fuel w)) → video fuel' w = video fuel w).
Proof.
  assert (∀ fuel w, pollExited (trace (video fuel w)) ↔
                    completionReported (trace (video fuel w))) as Hexit.
  { intros fuel w. eapply VideoRun_exit, video_shape. }
  split; [|split; [done|split]].
  - intros fuel w k held ret. eapply VideoRun_passed, video_shape.
  - intros w. split; intros [fuel H]; exists fuel; by apply Hexit.
  - intros fuel fuel' w Hle Hex. apply video_fuel_mono; [done|].
    intros Hp. pose proof (video_shape fuel w) as Hrun. rewrite Hp in Hrun.
    unfold pollExited in Hex. inversion Hrun as [|op t Hpoll Ht| |]; subst.
    + rewrite <-Ht in Hex. by apply (lead_not_exited _ _ _ _ _ Hpoll) in Hex.
    + match goal with H : FetchTrace _ _ _ _ _ Pending |- _ => inversion H end.
Qed.


(** C3. If the operation in hand is complete and its payload has no result
    locator (absent or empty), the workflow rejects with the no-link error
    and makes no fetch. *)
Theorem C3_missing_link_rejects (fuel : nat) (w : World) (op : Operation) :
  lastHandle (trace (video fuel w)) = Some op →
  op_done op = true →
  truthy_opt (downloadLinkOf op) = false →
  outcome (video fuel w) = Rejected (JsError noLinkMessage) ∧
  ∀ input ret, Fetch input ret ∉ trace (video fuel w) ++ late (video fuel w).
Proof.
  intros Hlast Hd Hlink. rewrite video_late, app_nil_r.
  eapply VideoRun_missing_link; eauto using video_shape.
Qed.

(** C5. If the job-creation call rejects, the workflow rejects with that
    same reason; by then the callback has been invoked (twice, the second
    time with the submitting-request message), and no refresh call has
    been made. *)
Theorem C5_submit_rejection_surfaces (fuel : nat) (w : World)
    (reason : Reason) :
  let r := video fuel w in
  (generateVideos ai (submitParams prompt musicSuggestion)
     (onProgress sendingMessage (onProgress craftingMessage w))).1
    = inl reason →
  outcome r = Rejected (Rejection reason) ∧
  progressOf (trace r) = [craftingMessage; sendingMessage] ∧
  (1 ≤ length (progressOf (trace r)))%nat ∧
  refreshesOf (trace r ++ late r) = [].
Proof.
  intros r Hrej. subst r.
  unfold generateVideoAndCaption.
  unfold mbind, M_bind, mret, M_ret, throw, report, perform, await; simpl.
  unfold submitParams, sendingMessage, craftingMessage in Hrej.
  destruct (generateVideos ai _ _) as [ret w1]; simpl in *. subst ret.
  simpl. repeat split; lia.
Qed.


End VideoFacts.

(** ** The video workflow on the stubs *)

(** C1, counterexample to the termination clause as stated. When the submit
    already returns a complete handle the loop exits without a single
    refresh: it terminates, and no refresh ever returns a handle whose flag
    is set. *)
Lemma C1_counterexample :
  (∃ fuel, pollExited (trace
     (generateVideoAndCaption Stub.scripted "KEY" fuel "a cat" "jazz"
        Stub.silent None Stub.happy))) ∧
  ¬ (∃ fuel, refreshReportedCompletion (trace
     (generateVideoAndCaption Stub.scripted "KEY" fuel "a cat" "jazz"
        Stub.silent None Stub.happy))).
Proof.
  split.
  - exists 0%nat. unfold pollExited. vm_compute. elem_here.
  - intros (fuel & held & op & Hin & _).
    destruct fuel; vm_compute in Hin; elem_cases Hin.
Qed.


(** C3 on the provider whose operation is complete at once, with no video
    in its payload. *)
Lemma C3_witness :
  let r := generateVideoAndCaption Stub.scripted "KEY" 0 "a cat" "jazz"
             Stub.silent None Stub.noLink in
  outcome r = Rejected (JsError "Video generation failed or returned no link.") ∧
  ∀ input ret, Fetch input ret ∉ trace r ++ late r.
Proof.
  intros r.
  apply (C3_missing_link_rejects Stub.scripted "KEY" "a cat" "jazz"
           Stub.silent None 0%nat Stub.noLink (Stub.handle true None));
    reflexivity.
Defined.

(** C5 on the provider that refuses the job creation. *)
Lemma C5_witness :
  let r := generateVideoAndCaption Stub.scripted "KEY" 7 "a cat" "jazz"
             Stub.silent (Some "u1") Stub.submitFails in
  outcome r = Rejected (Rejection "quota exceeded") ∧
  progressOf (trace r) =
    ["Crafting your video prompt...";
     "Sending request to video model... this can take a few minutes."] ∧
  (1 ≤ length (progressOf (trace r)))%nat ∧
  refreshesOf (trace r ++ late r) = [].
Proof.
  intros r.
  apply (C5_submit_rejection_surfaces Stub.scripted "KEY" "a cat" "jazz"
           Stub.silent (Some "u1") 7%nat Stub.submitFails "quota exceeded").
  reflexivity.
Defined.


Section PromiseAllFacts.
Context {World Reason : Type}.
Context (ai : Provider World Reason).
Context (prompt : string) (userId : option string).
Implicit Types (b : Branch (Reason:=Reason)) (w : World).

Local Abbreviation finish := (finishBranch ai prompt userId).

(** The two ways a branch ends whose caption arrived. *)
Lemma finish_run b w c :
  br_caption b = inr c →
  finish b w =
  if truthy_opt userId then
    mkRun (Resolved {| url := br_imageUrl b; caption := text c |})
          (append (recorder ai) (default "" userId)
             {| item_url := br_imageUrl b; item_caption := text c;
                item_prompt := prompt; item_type := image |} w).2
          [AddToHistory (default "" userId)
             {| item_url := br_imageUrl b; item_caption := text c;
                item_prompt := prompt; item_type := image |}] []
  else mkRun (Resolved {| url := br_imageUrl b; caption := text c |}) w [] [].
Proof.
  intros Hc. unfold finishBranch. rewrite Hc.
  destruct (truthy_opt userId); [|done].
  unfold addToHistoryDetached, perform, mbind, M_bind, mret, M_ret.
  by destruct (append _ _ _ w).
Qed.

Lemma finish_late b w : late (finish b w) = [].
Proof.
  destruct (br_caption b) as [reason|c] eqn:Hc.
  - unfold finishBranch. by rewrite Hc.
  - rewrite (finish_run b w c Hc). by destruct (truthy_opt userId).
Qed.

Lemma finish_trace b w :
  Forall (λ e, isHistoryCall e = true) (trace (finish b w)).
Proof.
  destruct (br_caption b) as [reason|c] eqn:Hc.
  - unfold finishBranch. by rewrite Hc.
  - rewrite (finish_run b w c Hc).
    destruct (truthy_opt userId); cbn [trace]; by repeat constructor.
Qed.

Lemma finish_outcome b w :
  outcome (finish b w) =
  match br_caption b with
  | inl reason => Rejected (Rejection reason)
  | inr c => Resolved {| url := br_imageUrl b; caption := text c |}
  end.
Proof.
  destruct (br_caption b) as [reason|c] eqn:Hc.
  - unfold finishBranch. by rewrite Hc.
  - rewrite (finish_run b w c Hc). by destruct (truthy_opt userId).
Qed.

(** Every branch that settled is a branch of the list, run from the world
    the branches before it left. *)
Lemma runSettled_finish_inv (branches : list (Branch (Reason:=Reason)))
    order : ∀ w ir,
  ir ∈ runSettled order (finish <$> branches) w →
  ∃ b w', branches !! ir.1 = Some b ∧ ir.2 = finish b w'.
Proof.
  induction order as [|i order IH]; intros w ir Hin; simpl in Hin.
  { by apply elem_of_nil in Hin. }
  rewrite list_lookup_fmap in Hin.
  destruct (branches !! i) as [b|] eqn:Hb; simpl in Hin; [|by eapply IH].
  apply elem_of_cons in Hin as [->|Hin]; [by exists b, w|by eapply IH].
Qed.

Lemma runSettled_finish_elem (branches : list (Branch (Reason:=Reason)))
    order i b : ∀ w,
  i ∈ order → branches !! i = Some b →
  ∃ w', (i, finish b w') ∈ runSettled order (finish <$> branches) w.
Proof.
  induction order as [|k order IH]; intros w Hin Hb.
  { by apply elem_of_nil in Hin. }
  simpl. rewrite list_lookup_fmap.
  apply elem_of_cons in Hin as [<-|Hin].
  - rewrite Hb. simpl. exists w. left.
  - destruct (branches !! k) as [b'|]; simpl.
    + destruct (IH (world (finish b' w)) Hin Hb) as [w' Hw'].
      exists w'. by right.
    + by apply IH.
Qed.

Lemma runSettled_keys {A} (conts : list (M World Reason A)) order : ∀ w,
  Forall (λ i, i < length conts)%nat order →
  (runSettled order conts w).*1 = order.
Proof.
  induction order as [|i order IH]; intros w Hlt; [done|].
  apply Forall_cons in Hlt as [Hi Hlt].
  change (runSettled (i :: order) conts w)
    with (match conts !! i with
          | Some m => (i, m w) :: runSettled order conts (world (m w))
          | None => runSettled order conts w
          end).
  destruct (conts !! i) as [m|] eqn:Hm.
  - cbn [fmap list_fmap fst]. f_equal. by apply IH.
  - apply lookup_ge_None in Hm. unfold M in *. lia.
Qed.

Lemma settleSequence_NoDup n order : NoDup (settleSequence n order).
Proof.
  unfold settleSequence. rewrite reverse_Permutation. apply NoDup_remove_dups.
Qed.

Lemma settleSequence_elem n order i :
  i ∈ settleSequence n order ↔ (i < n)%nat.
Proof.
  unfold settleSequence.
  rewrite elem_of_reverse, elem_of_remove_dups, elem_of_reverse.
  rewrite elem_of_app, list_elem_of_filter, elem_of_seq.
  intuition lia.
Qed.

Lemma splitAtRejection_none {A}
    (settled : list (nat * Run World Reason A)) :
  Forall (λ ir, isRejected (outcome ir.2) = false) settled →
  splitAtRejection settled = (settled, []).
Proof.
  induction 1 as [|[i r] settled Hr _ IH]; simpl in *; [done|].
  by rewrite Hr, IH.
Qed.

Lemma splitAtRejection_some {A}
    (settled : list (nat * Run World Reason A)) :
  Exists (λ ir, isRejected (outcome ir.2) = true) settled →
  ∃ pre ir post e,
    settled = pre ++ ir :: post ∧ outcome ir.2 = Rejected e ∧
    splitAtRejection settled = (pre ++ [ir], post).
Proof.
  induction settled as [|[i r] settled IH]; intros Hex.
  { by apply Exists_nil in Hex. }
  simpl. destruct (isRejected (outcome r)) eqn:Hr.
  - destruct (outcome r) as [|e|] eqn:Ho; try done.
    by exists [], (i, r), settled, e.
  - apply Exists_cons in Hex as [Hex|Hex]; [simpl in Hex; congruence|].
    destruct (IH Hex) as (pre & ir & post & e & -> & Ho & ->).
    by exists ((i, r) :: pre), ir, post, e.
Qed.

Lemma eventsOf_history (settled : list (nat * Run World Reason MediaResult)) :
  Forall (λ ir, Forall (λ e, isHistoryCall e = true)
                  (trace ir.2 ++ late ir.2)) settled →
  Forall (λ e, isHistoryCall e = true) (eventsOf settled).
Proof.
  unfold eventsOf. induction 1; simpl; [done|]. by apply Forall_app.
Qed.

Lemma fst_prod_map_outcome {A}
    (settled : list (nat * Run World Reason A)) :
  (prod_map id outcome <$> settled).*1 = settled.*1.
Proof. induction settled as [|[i r] settled IH]; simpl; by f_equal. Qed.

(** The join of the branches of the image workflow. *)
Lemma promiseAll_finish (branches : list (Branch (Reason:=Reason))) order w :
  let r := promiseAll order (finish <$> branches) w in
  Forall (λ e, isHistoryCall e = true) (trace r) ∧
  Forall (λ e, isHistoryCall e = true) (late r) ∧
  match mapM branchResult branches with
  | Some results => outcome r = Resolved results ∧ late r = []
  | None =>
      ∃ reason, inl reason ∈ br_caption <$> branches ∧
                outcome r = Rejected (Rejection reason)
  end.
Proof.
  unfold promiseAll. rewrite length_fmap.
  set (n := length branches). set (sq := settleSequence n order).
  set (settled := runSettled sq _ w).
  assert (∀ ir, ir ∈ settled →
            ∃ b w', branches !! ir.1 = Some b ∧ ir.2 = finish b w') as Hin.
  { intros ir Hir. by eapply runSettled_finish_inv. }
  assert (∀ i b, branches !! i = Some b →
            ∃ w', (i, finish b w') ∈ settled) as Hall.
  { intros i b Hb. apply runSettled_finish_elem; [|done].
    apply settleSequence_elem. by apply lookup_lt_Some in Hb. }
  assert (settled.*1 = sq) as Hkeys.
  { apply runSettled_keys, Forall_forall. intros k.
    rewrite length_fmap. apply settleSequence_elem. }
  set (w' := default w (last (world ∘ snd <$> settled))).
  assert (Forall (λ ir, Forall (λ e, isHistoryCall e = true)
                          (trace ir.2 ++ late ir.2)) settled) as Hhist.
  { apply Forall_forall. intros ir Hir.
    destruct (Hin ir Hir) as (b & w0 & _ & ->).
    rewrite finish_late, app_nil_r. apply finish_trace. }
  destruct (mapM branchResult branches) as [results|] eqn:Hres.
  - (* every caption arrived *)
    apply mapM_Some_1 in Hres.
    assert (Forall (λ ir, isRejected (outcome ir.2) = false) settled) as Hok.
    { apply Forall_forall. intros ir Hir.
      destruct (Hin ir Hir) as (b & w0 & Hb & ->).
      destruct (Forall2_lookup_l _ _ _ _ _ Hres Hb) as (y & _ & Hy).
      rewrite finish_outcome. unfold branchResult in Hy.
      by destruct (br_caption b). }
    rewrite (splitAtRejection_none _ Hok).
    assert (∀ e, last (outcome ∘ snd <$> settled) ≠ Some (Rejected e)) as Hl.
    { intros e He. apply last_Some_elem_of, list_elem_of_fmap in He
        as (ir & He & Hir).
      rewrite Forall_forall in Hok. apply Hok in Hir. simpl in He.
      by rewrite <-He in Hir. }
    assert (mapM (λ i, (list_to_map (prod_map id outcome <$> settled)
                          : gmap nat _) !! i ≫= resolvedValue) (seq 0 n)
            = Some results) as ->.
    { apply mapM_Some_2, Forall2_same_length_lookup_2.
      - rewrite length_seq. by apply Forall2_length in Hres.
      - intros i j y Hj Hy. apply lookup_seq in Hj as [-> _]. simpl.
        destruct (Forall2_lookup_r _ _ _ _ _ Hres Hy) as (b & Hb & Hby).
        destruct (Hall i b Hb) as [w0 Hw0].
        rewrite (elem_of_list_to_map_1 _ i (outcome (finish b w0))).
        + rewrite finish_outcome. unfold branchResult in Hby.
          by destruct (br_caption b).
        + rewrite fst_prod_map_outcome, Hkeys. apply settleSequence_NoDup.
        + apply list_elem_of_fmap. by exists (i, finish b w0). }
    destruct (last (outcome ∘ snd <$> settled)) as [[?|e|]|] eqn:Hlast;
      try (by split; [by apply eventsOf_history|split]).
    by destruct (Hl e).
  - (* a caption request was rejected *)
    apply mapM_None_1, Exists_exists in Hres as (b & Hb & Hnone).
    apply list_elem_of_lookup in Hb as [i Hb].
    destruct (Hall i b Hb) as [w0 Hw0].
    destruct (splitAtRejection_some settled) as
      (pre & ir & post & e & Hsplit & Ho & ->).
    { apply Exists_exists. exists (i, finish b w0). split; [done|].
      simpl. rewrite finish_outcome. unfold branchResult in Hnone.
      by destruct (br_caption b). }
    assert (last (outcome ∘ snd <$> pre ++ [ir]) = Some (Rejected e)) as ->.
    { rewrite fmap_last, last_snoc. simpl. by rewrite Ho. }
    rewrite Hsplit in Hhist. apply Forall_app in Hhist as [Hpre Hpost].
    apply Forall_cons in Hpost as [Hir Hpost].
    split; [|split].
    + apply eventsOf_history, Forall_app. split; [done|]. by constructor.
    + by apply eventsOf_history.
    + destruct (Hin ir) as (b' & w1 & Hb' & Hr').
      { rewrite Hsplit, elem_of_app, elem_of_cons. auto. }
      rewrite Hr', finish_outcome in Ho.
      destruct (br_caption b') as [reason|c] eqn:Hc; [|done].
      injection Ho as <-. exists reason. split; [|done].
      apply list_elem_of_fmap. exists b'. split; [done|].
      by eapply list_elem_of_lookup_2.
Qed.

End PromiseAllFacts.

Section ImageRunFacts.
Context {World Reason : Type}.
Context (ai : Provider World Reason).
Context (prompt textOverlay : string) (variations : Z).
Context (userId : option string).

Local Abbreviation images w :=
  (generateImagesAndCaptions ai prompt textOverlay variations userId w).

Lemma bind_run {A B} (m : M World Reason A) (k : A → M World Reason B) w :
  (m ≫= k) w =
  match m w with
  | mkRun (Resolved a) w1 t1 l1 =>
      match k a w1 with
      | mkRun o w2 t2 l2 => mkRun o w2 (t1 ++ t2) (l1 ++ l2)
      end
  | mkRun (Rejected e) w1 t1 l1 => mkRun (Rejected e) w1 t1 l1
  | mkRun Pending w1 t1 l1 => mkRun Pending w1 t1 l1
  end.
Proof. reflexivity. Qed.

Lemma mapM_cons {A B} (f : A → M World Reason B) x l :
  mapM f (x :: l) = (y ← f x; k ← mapM f l; mret (y :: k)).
Proof. reflexivity. Qed.

Lemma mapM_startBranch imgs : ∀ w,
  ∃ rets w',
    length rets = length imgs ∧
    mapM (startBranch ai prompt) imgs w =
      mkRun (Resolved (branchesOf imgs rets)) w'
            (GenerateContent (imageCaptionParams prompt) <$> rets) [].
Proof.
  induction imgs as [|img imgs IH]; intros w.
  { by exists [], w. }
  rewrite mapM_cons, bind_run. unfold startBranch at 1.
  rewrite bind_run. unfold perform.
  destruct (generateContent ai _ w) as [ret w1].
  destruct (IH w1) as (rets & w' & Hlen & Heq).
  exists (ret :: rets), w'. split; [simpl; lia|].
  cbn [mret M_ret]. rewrite bind_run, Heq. unfold mret, M_ret. simpl.
  by rewrite app_nil_r.
Qed.

Lemma captionAnswers_length cparams n : ∀ w,
  length (captionAnswers ai cparams n w) = n.
Proof.
  induction n as [|n IH]; intros w; [done|]. cbn [captionAnswers].
  destruct (generateContent ai cparams w) as [r w']. cbn [length].
  by rewrite IH.
Qed.

(** The caption requests issued by [map] get the provider's answers. *)
Lemma mapM_startBranch_answers imgs : ∀ w,
  ∃ w',
    mapM (startBranch ai prompt) imgs w =
      mkRun (Resolved
               (branchesOf imgs
                  (captionAnswers ai (imageCaptionParams prompt)
                     (length imgs) w)))
            w'
            (GenerateContent (imageCaptionParams prompt)
               <$> captionAnswers ai (imageCaptionParams prompt)
                     (length imgs) w)
            [].
Proof.
  induction imgs as [|img imgs IH]; intros w.
  { by exists w. }
  rewrite mapM_cons, bind_run. unfold startBranch at 1.
  rewrite bind_run. unfold perform. cbn [length captionAnswers].
  fold (imageCaptionPrompt prompt).
  change {| gcp_model := "gemini-2.5-flash";
            gcp_contents := imageCaptionPrompt prompt |}
    with (imageCaptionParams prompt).
  destruct (generateContent ai (imageCaptionParams prompt) w) as [ret w1].
  destruct (IH w1) as (w' & Heq).
  exists w'.
  cbn [mret M_ret]. rewrite bind_run, Heq. unfold mret, M_ret. simpl.
  by rewrite app_nil_r.
Qed.

Lemma branchesOf_results imgs :
  ∀ (rets : list (Reason + GenerateContentResponse)) results,
  length rets = length imgs →
  mapM branchResult (branchesOf imgs rets) = Some results →
  ∃ caps, rets = inr <$> caps ∧ results = zip_with imageResult imgs caps.
Proof.
  intros rets results Hlen Hres. apply mapM_Some_1 in Hres.
  revert rets results Hlen Hres.
  induction imgs as [|img imgs IH]; intros [|ret rets] results Hlen Hres;
    simplify_eq/=.
  - inversion Hres. by exists [].
  - inversion Hres as [|b y bs ys Hb Hrest]; subst.
    unfold branchResult in Hb. simpl in Hb.
    destruct ret as [reason|c]; simplify_eq/=.
    destruct (IH rets ys) as (caps & -> & ->); [done..|].
    by exists (c :: caps).
Qed.

Lemma branchesOf_captions imgs :
  ∀ (rets : list (Reason + GenerateContentResponse)) ret,
  ret ∈ br_caption <$> branchesOf imgs rets → ret ∈ rets.
Proof.
  induction imgs as [|img imgs IH]; intros [|ret' rets] ret Hin;
    simpl in *; try by apply elem_of_nil in Hin.
  apply elem_of_cons in Hin as [->|Hin]; [left|right; eauto].
Qed.

Lemma generateImagesAndCaptions_shape w :
  ImageRun prompt textOverlay variations
    (trace (images w)) (late (images w)) (outcome (images w)).
Proof.
  destruct (images w) as [o w' t l] eqn:Hrun. simpl.
  unfold generateImagesAndCaptions in Hrun.
  rewrite bind_run in Hrun. unfold await in Hrun.
  destruct (generateImages ai _ w) as [[reason|resp] w1].
  { injection Hrun as <- <- <- <-. apply images_rejected. }
  rewrite bind_run in Hrun.
  destruct (mapM_startBranch (generatedImages resp) w1)
    as (rets & w2 & Hlen & Heq).
  rewrite Heq, bind_run in Hrun. cbv beta iota in Hrun.
  rewrite bind_run in Hrun.
  pose proof (promiseAll_finish ai prompt userId
                (branchesOf (generatedImages resp) rets)
                (settleOrder ai (length (branchesOf (generatedImages resp) rets)) w2)
                w2) as (Ht & Hl & Hres).
  destruct (promiseAll _ _ w2) as [o3 w3 t3 l3]. simpl in Ht, Hl, Hres.
  destruct (mapM branchResult _) as [results|] eqn:Hmap.
  - destruct Hres as [-> ->]. unfold mret, M_ret in Hrun.
    injection Hrun as <- <- <- <-.
    destruct (branchesOf_results _ _ _ Hlen Hmap) as (caps & -> & ->).
    rewrite <-list_fmap_compose, !app_nil_r. simpl.
    apply images_resolved; [by rewrite length_fmap in Hlen|done].
  - destruct Hres as (reason & Hin & ->). injection Hrun as <- <- <- <-.
    apply branchesOf_captions in Hin. simpl.
    by apply images_caption_rejected.
Qed.

End ImageRunFacts.

(** ** Properties of the image workflow *)

Section ImageTraces.
Context {Reason : Type}.
Implicit Types (t : list (Event Reason)).

Lemma captionRequests_app t1 t2 :
  captionRequests (t1 ++ t2) = captionRequests t1 ++ captionRequests t2.
Proof. apply omap_app. Qed.

Lemma history_no_caption t :
  Forall (λ e, isHistoryCall e = true) t → captionRequests t = [].
Proof. induction 1 as [|[] t]; simpl in *; done. Qed.

Lemma history_no_batch t :
  Forall (λ e, isHistoryCall e = true) t →
  batchRequests t = [] ∧ imagesReturned t = [].
Proof. induction 1 as [|[] t]; simpl in *; done. Qed.

Lemma captionRequests_fmap params
    (rets : list (Reason + GenerateContentResponse)) :
  captionRequests (GenerateContent params <$> rets) = (params,.) <$> rets.
Proof. induction rets; simpl; by f_equal. Qed.

Lemma caption_no_batch params
    (rets : list (Reason + GenerateContentResponse)) :
  batchRequests (GenerateContent params <$> rets) = [] ∧
  imagesReturned (GenerateContent params <$> rets) = [].
Proof. induction rets; simpl; done. Qed.

Lemma batchRequests_app t1 t2 :
  batchRequests (t1 ++ t2) = batchRequests t1 ++ batchRequests t2.
Proof. apply omap_app. Qed.

Lemma imagesReturned_app t1 t2 :
  imagesReturned (t1 ++ t2) = imagesReturned t1 ++ imagesReturned t2.
Proof. unfold imagesReturned. by rewrite omap_app, join_app. Qed.

(** The requests in a trace made of one batch request, the caption requests
    and history calls. *)
Lemma image_trace_requests params cparams ret
    (rets : list (Reason + GenerateContentResponse)) hist l :
  Forall (λ e, isHistoryCall e = true) hist →
  Forall (λ e, isHistoryCall e = true) l →
  let t := GenerateImages params ret
             :: (GenerateContent cparams <$> rets) ++ hist in
  batchRequests (t ++ l) = [(params, ret)] ∧
  batchRequests t = [(params, ret)] ∧
  captionRequests (t ++ l) = (cparams,.) <$> rets ∧
  captionRequests t = (cparams,.) <$> rets ∧
  imagesReturned t =
    match ret with inr resp => generatedImages resp | inl _ => [] end.
Proof.
  intros Hh Hl t. subst t.
  pose proof (history_no_caption _ Hh) as Hc.
  pose proof (history_no_batch _ Hh) as [Hb Hi].
  pose proof (history_no_caption _ Hl) as Hc2.
  pose proof (history_no_batch _ Hl) as [Hb2 Hi2].
  pose proof (caption_no_batch cparams rets) as [Hb' Hi'].
  change (GenerateImages params ret :: ?x) with ([GenerateImages params ret] ++ x).
  rewrite !batchRequests_app, !captionRequests_app, !imagesReturned_app.
  rewrite Hc, Hc2, Hb, Hb2, Hb', Hi, Hi', captionRequests_fmap, !app_nil_r.
  repeat split; try done.
  unfold imagesReturned. simpl. destruct ret; simpl; by rewrite ?app_nil_r.
Qed.

End ImageTraces.

Section ImageFacts.
Context {World Reason : Type}.
Context (ai : Provider World Reason).

Lemma ImageRun_inv prompt textOverlay variations
    (t l : list (Event Reason)) o :
  ImageRun prompt textOverlay variations t l o →
  ∃ ret rets,
    batchRequests (t ++ l) =
      [(imageParams prompt textOverlay variations, ret)] ∧
    batchRequests t = [(imageParams prompt textOverlay variations, ret)] ∧
    captionRequests (t ++ l) = (imageCaptionParams prompt,.) <$> rets ∧
    captionRequests t = (imageCaptionParams prompt,.) <$> rets ∧
    imagesReturned t =
      match ret with inr resp => generatedImages resp | inl _ => [] end ∧
    length rets = length (imagesReturned t) ∧
    (∀ reason, ret = inl reason →
       o = Rejected (Rejection reason) ∧
       t ++ l = [GenerateImages (imageParams prompt textOverlay variations)
                   (inl reason)]) ∧
    match o with
    | Resolved results =>
        l = [] ∧
        ∃ resp caps, ret = inr resp ∧ rets = inr <$> caps ∧
          results = zip_with imageResult (generatedImages resp) caps
    | Rejected e =>
        ∃ reason, e = Rejection reason ∧ (ret = inl reason ∨ inl reason ∈ rets)
    | Pending => False
    end.
Proof.
  destruct 1 as [reason|resp caps hist Hlen Hh
                |resp rets reason hist late Hlen Hin Hh Hl].
  - exists (inl reason), []. simpl. repeat split; eauto; congruence.
  - exists (inr resp), (inr <$> caps). rewrite list_fmap_compose.
    destruct (image_trace_requests
                (imageParams prompt textOverlay variations)
                (imageCaptionParams prompt) (inr resp) (inr <$> caps)
                hist [] Hh) as (Hb & Hb' & Hc & Hc' & Hi); [done|].
    rewrite Hb, Hb', Hc, Hc', Hi, length_fmap.
    repeat split; eauto; intros; discriminate.
  - exists (inr resp), rets.
    destruct (image_trace_requests
                (imageParams prompt textOverlay variations)
                (imageCaptionParams prompt) (inr resp) rets
                hist late Hh Hl) as (Hb & Hb' & Hc & Hc' & Hi).
    rewrite Hb, Hb', Hc, Hc', Hi.
    repeat split; eauto; intros; discriminate.
Qed.

Context (prompt : string) (variations : Z) (userId : option string).

Local Abbreviation images textOverlay w :=
  (generateImagesAndCaptions ai prompt textOverlay variations userId w).

(** A run of the image workflow, from what the provider answers. *)
Lemma images_answers textOverlay w :
  let r := images textOverlay w in
  let batch :=
    generateImages ai (imageParams prompt textOverlay variations) w in
  batchRequests (trace r ++ late r) =
    [(imageParams prompt textOverlay variations, batch.1)] ∧
  batchRequests (trace r) =
    [(imageParams prompt textOverlay variations, batch.1)] ∧
  match batch.1 with
  | inl reason =>
      outcome r = Rejected (Rejection reason) ∧
      trace r ++ late r =
        [GenerateImages (imageParams prompt textOverlay variations)
           (inl reason)]
  | inr resp =>
      let answers :=
        captionAnswers ai (imageCaptionParams prompt)
          (length (generatedImages resp)) batch.2 in
      imagesReturned (trace r) = generatedImages resp ∧
      captionRequests (trace r ++ late r) =
        (imageCaptionParams prompt,.) <$> answers ∧
      captionRequests (trace r) = (imageCaptionParams prompt,.) <$> answers ∧
      match mapM branchResult (branchesOf (generatedImages resp) answers) with
      | Some results => outcome r = Resolved results ∧ late r = []
      | None =>
          ∃ reason, inl reason ∈ answers ∧
                    outcome r = Rejected (Rejection reason)
      end
  end.
Proof.
  intros r batch. subst r batch.
  destruct (images textOverlay w) as [o w' t l] eqn:Hrun.
  cbn [outcome trace late].
  unfold generateImagesAndCaptions in Hrun.
  rewrite bind_run in Hrun. unfold await in Hrun.
  change {| gip_model := "imagen-4.0-generate-001";
            gip_prompt := imagePrompt prompt textOverlay;
            gip_numberOfImages := variations;
            gip_outputMimeType := "image/jpeg";
            gip_aspectRatio := "1:1" |}
    with (imageParams prompt textOverlay variations) in Hrun.
  destruct (generateImages ai (imageParams prompt textOverlay variations) w)
    as [[reason|resp] w1]; cbn [fst snd].
  { by injection Hrun as <- <- <- <-. }
  rewrite bind_run in Hrun.
  destruct (mapM_startBranch_answers ai prompt (generatedImages resp) w1)
    as [w2 Heq].
  rewrite Heq, bind_run in Hrun. cbv beta iota in Hrun.
  rewrite bind_run in Hrun.
  set (answers := captionAnswers ai (imageCaptionParams prompt)
                    (length (generatedImages resp)) w1) in *.
  pose proof (promiseAll_finish ai prompt userId
                (branchesOf (generatedImages resp) answers)
                (settleOrder ai
                   (length (branchesOf (generatedImages resp) answers)) w2)
                w2) as (Ht & Hl & Hres).
  destruct (promiseAll _ _ w2) as [o3 w3 t3 l3].
  cbn [outcome trace late] in Ht, Hl, Hres.
  assert (o = o3 ∧
          t = GenerateImages (imageParams prompt textOverlay variations)
                (inr resp)
              :: (GenerateContent (imageCaptionParams prompt) <$> answers)
                 ++ t3 ∧
          l = l3) as (-> & -> & ->).
  { destruct o3; unfold mret, M_ret in Hrun; injection Hrun as <- <- <- <-;
      by rewrite ?app_nil_r. }
  destruct (image_trace_requests
              (imageParams prompt textOverlay variations)
              (imageCaptionParams prompt) (inr resp) answers t3 l3 Ht Hl)
    as (Hb & Hb' & Hc & Hc' & Hi).
  split; [done|]. split; [done|]. split; [done|]. split; [done|].
  split; [done|].
  destruct (mapM branchResult _) as [results|] eqn:Hmap; [done|].
  destruct Hres as (reason & Hin & ->).
  apply branchesOf_captions in Hin. eauto.
Qed.

Lemma images_inv textOverlay w :
  let r := images textOverlay w in
  ∃ ret rets,
    batchRequests (trace r ++ late r) =
      [(imageParams prompt textOverlay variations, ret)] ∧
    batchRequests (trace r) =
      [(imageParams prompt textOverlay variations, ret)] ∧
    captionRequests (trace r ++ late r) = (imageCaptionParams prompt,.) <$> rets ∧
    captionRequests (trace r) = (imageCaptionParams prompt,.) <$> rets ∧
    imagesReturned (trace r) =
      match ret with inr resp => generatedImages resp | inl _ => [] end ∧
    length rets = length (imagesReturned (trace r)) ∧
    (∀ reason, ret = inl reason →
       outcome r = Rejected (Rejection reason) ∧
       trace r ++ late r =
         [GenerateImages (imageParams prompt textOverlay variations)
            (inl reason)]) ∧
    match outcome r with
    | Resolved results =>
        late r = [] ∧
        ∃ resp caps, ret = inr resp ∧ rets = inr <$> caps ∧
          results = zip_with imageResult (generatedImages resp) caps
    | Rejected e =>
        ∃ reason, e = Rejection reason ∧ (ret = inl reason ∨ inl reason ∈ rets)
    | Pending => False
    end.
Proof. apply ImageRun_inv, generateImagesAndCaptions_shape. Qed.

(** C4 (as amended). The call settles on every run. It resolves when the
    provider fulfils the batch request and every caption request, and then
    the result has exactly one entry per image the provider returned, in
    the provider's order: the locator is the data URL made of the image
    bytes, which is never empty, and the caption is the text the provider
    returned for that image's caption request. So there are exactly N
    entries when the provider returned N images, and the captions are
    non-empty when the provider's texts are. It rejects when the provider
    rejects the batch request or a caption request, and only then. *)
Theorem C4_one_entry_per_returned_image textOverlay w :
  let r := images textOverlay w in
  let batch :=
    generateImages ai (imageParams prompt textOverlay variations) w in
  match outcome r with
  | Resolved results =>
      ∃ resp caps,
        batch.1 = inr resp ∧
        captionAnswers ai (imageCaptionParams prompt)
          (length (generatedImages resp)) batch.2 = inr <$> caps ∧
        imagesReturned (trace r) = generatedImages resp ∧
        (captionRequests (trace r)).*2 = inr <$> caps ∧
        results = zip_with imageResult (imagesReturned (trace r)) caps ∧
        length caps = length (imagesReturned (trace r)) ∧
        length results = length (imagesReturned (trace r)) ∧
        (length (imagesReturned (trace r)) = Z.to_nat variations →
         length results = Z.to_nat variations) ∧
        Forall (λ x, truthy (url x) = true) results ∧
        (Forall (λ c, truthy (text c) = true) caps →
         Forall (λ x, truthy (caption x) = true) results)
  | Rejected e =>
      ∃ reason, e = Rejection reason ∧
        (batch.1 = inl reason ∨
         ∃ resp, batch.1 = inr resp ∧
           inl reason ∈ captionAnswers ai (imageCaptionParams prompt)
                          (length (generatedImages resp)) batch.2) ∧
        (inl reason ∈ (batchRequests (trace r)).*2 ∨
         inl reason ∈ (captionRequests (trace r)).*2)
  | Pending => False
  end.
Proof.
  intros r batch. subst r batch.
  destruct (images_answers textOverlay w) as (_ & Hb & Hans).
  cbv zeta in Hb, Hans.
  destruct ((generateImages ai (imageParams prompt textOverlay variations)
               w).1) as [reason|resp] eqn:Hbatch.
  { destruct Hans as [-> _]. exists reason. split; [done|].
    split; [by left|]. left. rewrite Hb. cbn. elem_here. }
  destruct Hans as (Hi & _ & Hc & Hres).
  pose proof (captionAnswers_length ai (imageCaptionParams prompt)
                (length (generatedImages resp))
                (generateImages ai
                   (imageParams prompt textOverlay variations) w).2) as Hla.
  remember (captionAnswers ai (imageCaptionParams prompt)
              (length (generatedImages resp)) _) as answers eqn:Hanswers.
  assert ((captionRequests (trace (images textOverlay w))).*2 = answers)
    as Hrets.
  { rewrite Hc, <-list_fmap_compose. apply list_fmap_id. }
  destruct (mapM branchResult _) as [results|] eqn:Hmap.
  - destruct Hres as [-> _].
    destruct (branchesOf_results _ _ _ Hla Hmap) as (caps & Hcaps & ->).
    assert (length caps = length (generatedImages resp)) as Hlen.
    { by rewrite Hcaps, length_fmap in Hla. }
    exists resp, caps. rewrite Hrets, Hi.
    assert (length (zip_with imageResult (generatedImages resp) caps)
            = length (generatedImages resp)) as Hzl.
    { rewrite length_zip_with. lia. }
    split; [done|]. split; [congruence|]. split; [done|]. split; [done|].
    split; [done|]. split; [done|]. split; [done|].
    split; [congruence|]. split.
    + clear. revert caps.
      induction (generatedImages resp) as [|img imgs IH]; intros [|c caps];
        simpl; constructor; auto.
    + clear. revert caps.
      induction (generatedImages resp) as [|img imgs IH]; intros [|c caps] Hc;
        simpl; try constructor.
      * by inversion Hc.
      * apply IH. by inversion Hc.
  - destruct Hres as (reason & Hin & ->). exists reason. split; [done|].
    split; [right; exists resp; split; [done|congruence]|].
    right. by rewrite Hrets.
Qed.

(** C7. When the provider rejects the batch request, the call rejects with
    the same reason, and no caption request or history call is made. When
    the provider fulfils it and rejects one of the caption requests (all of
    them are issued, one per image), the call rejects, with the reason of a
    caption request that was rejected. In neither case does the call
    resolve: no partial sequence of results is returned. *)
Theorem C7_image_failures_reject_the_call textOverlay w (reason : Reason) :
  let r := images textOverlay w in
  let batch :=
    generateImages ai (imageParams prompt textOverlay variations) w in
  let answers resp :=
    captionAnswers ai (imageCaptionParams prompt)
      (length (generatedImages resp)) batch.2 in
  (batch.1 = inl reason ∨
   ∃ resp, batch.1 = inr resp ∧ inl reason ∈ answers resp) →
  (∀ results, outcome r ≠ Resolved results) ∧
  match batch.1 with
  | inl reason' =>
      outcome r = Rejected (Rejection reason') ∧
      captionRequests (trace r ++ late r) = [] ∧
      detachedCalls (trace r ++ late r) = []
  | inr resp =>
      (captionRequests (trace r)).*2 = answers resp ∧
      ∃ reason', inl reason' ∈ answers resp ∧
                 outcome r = Rejected (Rejection reason')
  end.
Proof.
  intros r batch answers Hrej. subst r batch answers.
  destruct (images_answers textOverlay w) as (_ & _ & Hans).
  cbv zeta in Hans. cbv beta in Hrej.
  destruct ((generateImages ai (imageParams prompt textOverlay variations)
               w).1) as [reason'|resp] eqn:Hbatch.
  { destruct Hans as [Ho Ht]. rewrite Ho, Ht. by repeat split. }
  destruct Hans as (_ & _ & Hc & Hres).
  destruct Hrej as [Heq|(resp' & Heq & Hin)]; [done|]. injection Heq as <-.
  pose proof (captionAnswers_length ai (imageCaptionParams prompt)
                (length (generatedImages resp))
                (generateImages ai
                   (imageParams prompt textOverlay variations) w).2) as Hla.
  remember (captionAnswers ai (imageCaptionParams prompt)
              (length (generatedImages resp)) _) as answers eqn:Hanswers.
  assert ((captionRequests (trace (images textOverlay w))).*2 = answers)
    as Hrets.
  { rewrite Hc, <-list_fmap_compose. apply list_fmap_id. }
  destruct (mapM branchResult _) as [results|] eqn:Hmap.
  - destruct (branchesOf_results _ _ _ Hla Hmap) as (caps & Hcaps & _).
    rewrite Hcaps in Hin. by apply list_elem_of_fmap in Hin as (c & [=] & _).
  - destruct Hres as (reason' & Hin' & Ho). rewrite Ho.
    split; [done|]. split; [done|]. by exists reason'.
Qed.


End ImageFacts.

(** ** Properties of the history store *)

Section SortFacts.
Context {A : Type} (compareFn : A → A → Z).

Lemma insertSorted_Permutation x l : insertSorted compareFn x l ≡ₚ x :: l.
Proof.
  induction l as [|y l IH]; simpl; [done|].
  destruct (0 <? compareFn x y)%Z; [|done].
  rewrite IH. apply Permutation_swap.
Qed.

Lemma sort_Permutation l : sort compareFn l ≡ₚ l.
Proof.
  induction l as [|x l IH]; simpl; [done|].
  by rewrite insertSorted_Permutation, IH.
Qed.

End SortFacts.

Lemma insertSorted_newestFirst x l :
  StronglySorted newerOrEqual l →
  StronglySorted newerOrEqual (insertSorted newestFirst x l).
Proof.
  induction 1 as [|y l Hs IH Hy]; simpl; [by repeat constructor|].
  unfold newestFirst at 1.
  destruct (0 <? media_timestamp y - media_timestamp x)%Z eqn:Hcmp.
  - apply Z.ltb_lt in Hcmp. constructor; [done|].
    rewrite insertSorted_Permutation. constructor; [|done].
    unfold newerOrEqual. lia.
  - apply Z.ltb_ge in Hcmp. constructor; [by constructor|].
    constructor; [unfold newerOrEqual; lia|].
    eapply Forall_impl; [exact Hy|]. unfold newerOrEqual. intros z ?. lia.
Qed.

Lemma sort_newestFirst l : StronglySorted newerOrEqual (sort newestFirst l).
Proof.
  induction l as [|x l IH]; simpl; [constructor|].
  by apply insertSorted_newestFirst.
Qed.

(** The sort is stable: entries with the same timestamp keep their order. *)
Lemma insertSorted_stable (ts : Z) x l :
  filter (λ y, media_timestamp y = ts) (insertSorted newestFirst x l) =
  filter (λ y, media_timestamp y = ts) (x :: l).
Proof.
  induction l as [|y l IH]; simpl; [done|].
  unfold newestFirst at 1.
  destruct (0 <? media_timestamp y - media_timestamp x)%Z eqn:Hcmp; [|done].
  apply Z.ltb_lt in Hcmp. rewrite !filter_cons in *.
  destruct (decide (media_timestamp y = ts)) as [Hy|Hy];
    destruct (decide (media_timestamp x = ts)) as [Hx|Hx];
    rewrite IH; try done; lia.
Qed.

Lemma sort_stable (ts : Z) l :
  filter (λ y, media_timestamp y = ts) (sort newestFirst l) =
  filter (λ y, media_timestamp y = ts) l.
Proof.
  induction l as [|x l IH]; simpl; [done|].
  by rewrite insertSorted_stable, !filter_cons, IH.
Qed.

Lemma historyOf_ensureLog (history : HistoryDb) userId u :
  historyOf (ensureLog userId history) u = historyOf history u.
Proof.
  unfold historyOf, ensureLog.
  destruct (history !! userId) as [l|] eqn:Hl; [done|].
  destruct (decide (userId = u)) as [->|Hne].
  - by rewrite lookup_insert_eq, Hl.
  - by rewrite lookup_insert_ne.
Qed.

(** At a user id that names no member of [Object.prototype], the call
    is [getHistory] on the logs. *)
Lemma getHistoryAt_ordinary (userId : string) (history : HistoryDb) :
  userId ∉ objectPrototypeNames →
  getHistoryAt userId history =
    (Some (getHistory userId history).1, (getHistory userId history).2).
Proof.
  intros Hname. unfold getHistoryAt, getHistory, ensureLog, readProperty.
  destruct (history !! userId) as [log|] eqn:Hlog.
  - by rewrite Hlog.
  - rewrite bool_decide_eq_false_2 by done. by rewrite lookup_insert_eq.
Qed.

(** C10 (as amended). For every user id that is not the name of a member
    inherited from [Object.prototype], [getHistory] returns that user's
    stored entries (each one, once), sorted by timestamp with the newest
    first, entries of equal timestamp in their stored order. It leaves
    every user's log as it was: at most it creates the empty log of a user
    not seen before, which reads as the empty list. *)
Theorem C10_getHistory_sorted_and_readonly
    (userId : string) (history : HistoryDb) :
  userId ∉ objectPrototypeNames →
  let entries := (getHistory userId history).1 in
  let history' := (getHistory userId history).2 in
  getHistoryAt userId history = (Some entries, history') ∧
  entries ≡ₚ historyOf history userId ∧
  StronglySorted newerOrEqual entries ∧
  (∀ ts, filter (λ y, media_timestamp y = ts) entries =
         filter (λ y, media_timestamp y = ts) (historyOf history userId)) ∧
  (∀ u, historyOf history' u = historyOf history u) ∧
  history' = match history !! userId with
             | Some _ => history
             | None => <[userId := []]> history
             end ∧
  (∀ u, u ≠ userId → history' !! u = history !! u) ∧
  (getHistory userId history').1 = entries.
Proof.
  intros Hname entries history'. subst entries history'.
  split; [by apply getHistoryAt_ordinary|].
  unfold getHistory. simpl.
  fold (historyOf (ensureLog userId history) userId).
  rewrite historyOf_ensureLog.
  split; [apply sort_Permutation|]. split; [apply sort_newestFirst|].
  split; [intros ts; apply sort_stable|].
  split; [intros u; apply historyOf_ensureLog|]. split; [done|]. split.
  - intros u Hne. unfold ensureLog.
    destruct (history !! userId); [done|]. by rewrite lookup_insert_ne.
  - fold (historyOf (ensureLog userId (ensureLog userId history)) userId).
    by rewrite !historyOf_ensureLog.
Qed.

(** C10, counterexample to the claim as stated. On the store as the
    module creates it, the call for the user id [constructor] finds the
    inherited member: it returns no list, the promise rejects, and no
    empty log is created for that user. *)
Lemma C10_counterexample :
  "constructor" ∈ objectPrototypeNames ∧
  getHistoryAt "constructor" ∅ = (None, ∅) ∧
  ¬ (∃ entries, (getHistoryAt "constructor" ∅).1 = Some entries) ∧
  (getHistoryAt "constructor" ∅).2 !! "constructor" ≠ Some [].
Proof.
  split; [apply list_elem_of_here|]. split; [reflexivity|].
  split; [by intros [entries Hentries]|done].
Qed.

(** ** The recorder never reaches the caller *)

Section NonInterference.
Context {W1 W2 Reason : Type} (R : W1 → W2 → Prop).
Context (ai1 : Provider W1 Reason) (ai2 : Provider W2 Reason).
Context (Hsame : SameButRecorder R ai1 ai2).

Lemma Alike_bind {A B} (m1 : M W1 Reason A) (m2 : M W2 Reason A)
    (k1 : A → M W1 Reason B) (k2 : A → M W2 Reason B) :
  Alike R m1 m2 → (∀ a, Alike R (k1 a) (k2 a)) →
  Alike R (m1 ≫= k1) (m2 ≫= k2).
Proof.
  intros Hm Hk w1 w2 Hw. rewrite !bind_run.
  destruct (Hm w1 w2 Hw) as (Ho & Ht & Hl & Hw').
  destruct (m1 w1) as [o1 w1' t1 l1], (m2 w2) as [o2 w2' t2 l2].
  cbn [outcome world trace late] in *. subst o1 t1 l1.
  destruct o2 as [a|e|]; [|done..].
  destruct (Hk a w1' w2' Hw') as (Ho & Ht & Hl & Hw'').
  destruct (k1 a w1') as [o1 w1'' t1 l1], (k2 a w2') as [o3 w2'' t3 l3].
  cbn [outcome world trace late] in *. by subst o1 t1 l1.
Qed.

Lemma Alike_ret {A} (a : A) : Alike (Reason:=Reason) R (mret a) (mret a).
Proof. by intros w1 w2 Hw. Qed.

Lemma Alike_throw {A} (e : Exn Reason) : Alike R (throw (A:=A) e) (throw e).
Proof. by intros w1 w2 Hw. Qed.

Lemma Alike_suspended {A} :
  Alike (Reason:=Reason) R (suspended (A:=A)) suspended.
Proof. by intros w1 w2 Hw. Qed.

Lemma Alike_await {A} call1 call2 (ev : Reason + A → Event Reason) :
  Agree R call1 call2 → Alike R (await call1 ev) (await call2 ev).
Proof.
  intros Hcall w1 w2 Hw. unfold await.
  destruct (Hcall w1 w2 Hw) as [Hr Hw'].
  destruct (call1 w1) as [r1 w1'], (call2 w2) as [r2 w2'].
  cbn [fst snd] in *. subst r1. by destruct r2.
Qed.

Lemma Alike_perform {A} call1 call2 (ev : A → Event Reason) :
  Agree R call1 call2 → Alike R (perform call1 ev) (perform call2 ev).
Proof.
  intros Hcall w1 w2 Hw. unfold perform.
  destruct (Hcall w1 w2 Hw) as [Hr Hw'].
  destruct (call1 w1) as [r1 w1'], (call2 w2) as [r2 w2'].
  cbn [fst snd] in *. by subst r1.
Qed.

(** The one place where the recorders are called: whatever they return is
    dropped on the spot. *)
Lemma Alike_addToHistoryDetached userId itemData :
  Alike R (addToHistoryDetached ai1 userId itemData)
          (addToHistoryDetached ai2 userId itemData).
Proof.
  apply Alike_perform. intros w1 w2 Hw. split; [done|].
  by apply (recorder_apart R ai1 ai2 Hsame).
Qed.

Section Video.
Context (onProgress1 : string → W1 → W1) (onProgress2 : string → W2 → W2).
Context (Hprogress : ∀ message w1 w2,
           R w1 w2 → R (onProgress1 message w1) (onProgress2 message w2)).

Lemma Alike_report message :
  Alike (Reason:=Reason) R (report onProgress1 message)
        (report onProgress2 message).
Proof.
  apply Alike_perform. intros w1 w2 Hw. split; [done|]. by apply Hprogress.
Qed.

Lemma Alike_sleep ms : Alike R (sleep ai1 ms) (sleep ai2 ms).
Proof.
  apply Alike_perform. intros w1 w2 Hw. split; [done|].
  by apply (same_setTimeout R ai1 ai2 Hsame).
Qed.

Lemma Alike_pollLoop fuel : ∀ k op,
  Alike R (pollLoop ai1 fuel onProgress1 k op)
          (pollLoop ai2 fuel onProgress2 k op).
Proof.
  induction fuel as [|fuel IH]; intros k op; simpl;
    destruct (op_done op); try apply Alike_ret; try apply Alike_suspended.
  apply Alike_bind; [apply Alike_report|intros _].
  apply Alike_bind; [apply Alike_sleep|intros _].
  apply Alike_bind; [|intros op'; apply IH].
  apply Alike_await, (same_getVideosOperation R ai1 ai2 Hsame).
Qed.

Lemma Alike_video API_KEY fuel prompt musicSuggestion userId :
  Alike R (generateVideoAndCaption ai1 API_KEY fuel prompt musicSuggestion
             onProgress1 userId)
          (generateVideoAndCaption ai2 API_KEY fuel prompt musicSuggestion
             onProgress2 userId).
Proof.
  unfold generateVideoAndCaption.
  apply Alike_bind; [apply Alike_report|intros _].
  apply Alike_bind; [apply Alike_report|intros _].
  apply Alike_bind;
    [apply Alike_await, (same_generateVideos R ai1 ai2 Hsame)|intros op].
  apply Alike_bind; [apply Alike_pollLoop|intros op'].
  apply Alike_bind; [apply Alike_report|intros _].
  destruct (negb (truthy_opt (downloadLinkOf op'))); [apply Alike_throw|].
  apply Alike_bind;
    [apply Alike_await, (same_fetch R ai1 ai2 Hsame)|intros resp].
  apply Alike_bind; [apply Alike_await, (same_blob R ai1 ai2 Hsame)|intros b].
  apply Alike_bind;
    [apply Alike_perform, (same_createObjectURL R ai1 ai2 Hsame)
    |intros videoUrl].
  apply Alike_bind; [apply Alike_report|intros _].
  apply Alike_bind;
    [apply Alike_await, (same_generateContent R ai1 ai2 Hsame)
    |intros captionResponse].
  apply Alike_bind; [apply Alike_report|intros _].
  apply Alike_bind; [|intros _; apply Alike_ret].
  destruct (truthy_opt userId); [|apply Alike_ret].
  apply Alike_addToHistoryDetached.
Qed.

End Video.

Lemma Alike_mapM {X A} (f1 : X → M W1 Reason A) (f2 : X → M W2 Reason A) l :
  (∀ x, Alike R (f1 x) (f2 x)) → Alike R (mapM f1 l) (mapM f2 l).
Proof.
  intros Hf. induction l as [|x l IH]; [apply Alike_ret|].
  rewrite !mapM_cons.
  apply Alike_bind; [apply Hf|intros y].
  apply Alike_bind; [apply IH|intros k]. apply Alike_ret.
Qed.

Lemma Alike_startBranch prompt img :
  Alike R (startBranch ai1 prompt img) (startBranch ai2 prompt img).
Proof.
  unfold startBranch.
  apply Alike_bind; [|intros r; apply Alike_ret].
  apply Alike_perform, (same_generateContent R ai1 ai2 Hsame).
Qed.

Lemma Alike_finishBranch prompt userId b :
  Alike R (finishBranch ai1 prompt userId b) (finishBranch ai2 prompt userId b).
Proof.
  unfold finishBranch. destruct (br_caption b); [apply Alike_throw|].
  apply Alike_bind; [|intros _; apply Alike_ret].
  destruct (truthy_opt userId); [|apply Alike_ret].
  apply Alike_addToHistoryDetached.
Qed.

(** The branches that settled, in the two runs: the same ones in the same
    order, each settled alike. *)
Definition SettledAlike {A} (s1 : list (nat * Run W1 Reason A))
    (s2 : list (nat * Run W2 Reason A)) : Prop :=
  Forall2 (λ ir1 ir2, ir1.1 = ir2.1 ∧ outcome ir1.2 = outcome ir2.2 ∧
                      trace ir1.2 = trace ir2.2 ∧ late ir1.2 = late ir2.2)
          s1 s2.

Lemma runSettled_alike {A} (conts1 : list (M W1 Reason A))
    (conts2 : list (M W2 Reason A)) order :
  Forall2 (Alike R) conts1 conts2 →
  ∀ w1 w2, R w1 w2 →
    SettledAlike (runSettled order conts1 w1) (runSettled order conts2 w2) ∧
    R (default w1 (last (world ∘ snd <$> runSettled order conts1 w1)))
      (default w2 (last (world ∘ snd <$> runSettled order conts2 w2))).
Proof.
  intros Hconts. induction order as [|i order IH]; intros w1 w2 Hw.
  { split; [constructor|done]. }
  change (runSettled (i :: order) conts1 w1)
    with (match conts1 !! i with
          | Some m => (i, m w1) :: runSettled order conts1 (world (m w1))
          | None => runSettled order conts1 w1
          end).
  change (runSettled (i :: order) conts2 w2)
    with (match conts2 !! i with
          | Some m => (i, m w2) :: runSettled order conts2 (world (m w2))
          | None => runSettled order conts2 w2
          end).
  destruct (conts1 !! i) as [m1|] eqn:H1, (conts2 !! i) as [m2|] eqn:H2.
  - destruct (Forall2_lookup_lr _ _ _ _ _ _ Hconts H1 H2 w1 w2 Hw)
      as (Ho & Ht & Hl & Hw').
    destruct (IH _ _ Hw') as [Hs HR]. split; [by constructor|].
    rewrite !fmap_cons, !last_cons.
    destruct (last (world ∘ snd <$> runSettled order conts1 (world (m1 w1)))),
             (last (world ∘ snd <$> runSettled order conts2 (world (m2 w2))));
      done.
  - apply lookup_lt_Some in H1. apply lookup_ge_None in H2.
    apply Forall2_length in Hconts. unfold M in *. lia.
  - apply lookup_lt_Some in H2. apply lookup_ge_None in H1.
    apply Forall2_length in Hconts. unfold M in *. lia.
  - by apply IH.
Qed.

Lemma splitAtRejection_alike {A} (s1 : list (nat * Run W1 Reason A))
    (s2 : list (nat * Run W2 Reason A)) :
  SettledAlike s1 s2 →
  SettledAlike (splitAtRejection s1).1 (splitAtRejection s2).1 ∧
  SettledAlike (splitAtRejection s1).2 (splitAtRejection s2).2.
Proof.
  induction 1 as [|[i1 r1] [i2 r2] s1 s2 (Hi & Ho & Ht & Hl) Hs [IH1 IH2]].
  { split; constructor. }
  cbn [fst snd] in *. cbn [splitAtRejection]. rewrite Ho.
  destruct (isRejected (outcome r2)).
  - split; [|done]. by repeat constructor.
  - destruct (splitAtRejection s1) as [up1 later1],
             (splitAtRejection s2) as [up2 later2].
    split; [|done]. by constructor.
Qed.

Lemma SettledAlike_views {A} (s1 : list (nat * Run W1 Reason A))
    (s2 : list (nat * Run W2 Reason A)) :
  SettledAlike s1 s2 →
  eventsOf s1 = eventsOf s2 ∧
  outcome ∘ snd <$> s1 = outcome ∘ snd <$> s2 ∧
  prod_map id outcome <$> s1 = prod_map id outcome <$> s2.
Proof.
  unfold eventsOf.
  induction 1 as [|[i1 r1] [i2 r2] s1 s2 (Hi & Ho & Ht & Hl) Hs (IH1 & IH2 & IH3)];
    [done|].
  cbn [fst snd] in *. subst i1.
  rewrite !fmap_cons. cbn [concat compose prod_map fst snd id].
  by rewrite Ho, Ht, Hl, IH1, IH2, IH3.
Qed.

Lemma promiseAll_alike {A} order (conts1 : list (M W1 Reason A))
    (conts2 : list (M W2 Reason A)) :
  Forall2 (Alike R) conts1 conts2 →
  Alike R (promiseAll order conts1) (promiseAll order conts2).
Proof.
  intros Hconts w1 w2 Hw. unfold promiseAll.
  assert (length conts2 = length conts1) as ->
    by (symmetry; exact (Forall2_length _ _ _ Hconts)).
  destruct (runSettled_alike conts1 conts2
              (settleSequence (length conts1) order) Hconts w1 w2 Hw)
    as [Hs HR].
  destruct (splitAtRejection_alike _ _ Hs) as [Hup Hlater].
  destruct (SettledAlike_views _ _ Hs) as (_ & _ & ->).
  destruct (splitAtRejection (runSettled _ conts1 w1)) as [up1 later1],
           (splitAtRejection (runSettled _ conts2 w2)) as [up2 later2].
  cbn [fst snd] in Hup, Hlater.
  destruct (SettledAlike_views _ _ Hup) as (-> & -> & _).
  destruct (SettledAlike_views _ _ Hlater) as (-> & _ & _).
  destruct (last (outcome ∘ snd <$> up2)) as [[a|e|]|]; try done;
    by destruct (mapM _ _).
Qed.

Lemma Alike_images prompt textOverlay variations userId :
  Alike R (generateImagesAndCaptions ai1 prompt textOverlay variations userId)
          (generateImagesAndCaptions ai2 prompt textOverlay variations userId).
Proof.
  unfold generateImagesAndCaptions.
  apply Alike_bind;
    [apply Alike_await, (same_generateImages R ai1 ai2 Hsame)|intros resp].
  apply Alike_bind;
    [apply Alike_mapM; intros img; apply Alike_startBranch|intros branches].
  apply Alike_bind.
  { intros w1 w2 Hw. cbn [outcome world trace late].
    by rewrite (same_settleOrder R ai1 ai2 Hsame _ w1 w2 Hw). }
  intros order. apply Alike_bind; [|intros results; apply Alike_ret].
  apply promiseAll_alike, Forall2_fmap, Forall_Forall2_diag, Forall_forall.
  intros b _. apply Alike_finishBranch.
Qed.

End NonInterference.

(** Behind one provider, two recorders of any kind: the collaborators do
    not see which one it is. *)
Lemma withRecorder_same {World RW1 RW2 Reason}
    (rec1 : Recorder RW1 Reason) (rec2 : Recorder RW2 Reason)
    (ai : Provider World Reason) :
  SameButRecorder (λ ww1 ww2, ww1.1 = ww2.1)
    (withRecorder rec1 ai) (withRecorder rec2 ai).
Proof.
  split.
  1-7: intros x [w rw1] [w' rw2] Hw; cbn [fst snd] in Hw; subst w';
    cbn [withRecorder generateImages generateContent generateVideos
         getVideosOperation fetch blob createObjectURL fst snd];
    by case_match.
  - intros ms [w rw1] [w' rw2] Hw. cbn [fst snd] in Hw. by subst w'.
  - intros n [w rw1] [w' rw2] Hw. cbn [fst snd] in Hw. by subst w'.
  - intros userId itemData [w rw1] [w' rw2] Hw.
    cbn [withRecorder recorder append fst snd] in *.
    by destruct (append rec1 _ _ rw1), (append rec2 _ _ rw2).
Qed.

(** C8. The write to the history recorder is called and never awaited:
    what it returns is dropped. Take two providers that differ in the
    recorder at most, on worlds where the recorders' stores stay out of the
    other collaborators' sight, and let the recorders answer as they like:
    one may record every entry while every write of the other fails. The
    image call and the video call then give the caller the same promise (the
    same resolved value or the same rejection) and make the same calls,
    before and after it settles. *)
Theorem C8_history_write_never_surfaces {W1 W2 Reason : Type}
    (R : W1 → W2 → Prop)
    (ai1 : Provider W1 Reason) (ai2 : Provider W2 Reason)
    (API_KEY : string) (fuel : nat)
    (prompt textOverlay musicSuggestion : string) (variations : Z)
    (onProgress1 : string → W1 → W1) (onProgress2 : string → W2 → W2)
    (userId : option string) (w1 : W1) (w2 : W2) :
  SameButRecorder R ai1 ai2 →
  (∀ message w1 w2,
     R w1 w2 → R (onProgress1 message w1) (onProgress2 message w2)) →
  R w1 w2 →
  let i1 := generateImagesAndCaptions ai1 prompt textOverlay variations
              userId w1 in
  let i2 := generateImagesAndCaptions ai2 prompt textOverlay variations
              userId w2 in
  let v1 := generateVideoAndCaption ai1 API_KEY fuel prompt musicSuggestion
              onProgress1 userId w1 in
  let v2 := generateVideoAndCaption ai2 API_KEY fuel prompt musicSuggestion
              onProgress2 userId w2 in
  outcome i1 = outcome i2 ∧ trace i1 = trace i2 ∧ late i1 = late i2 ∧
  outcome v1 = outcome v2 ∧ trace v1 = trace v2 ∧ late v1 = late v2.
Proof.
  intros Hsame Hprogress Hw i1 i2 v1 v2. subst i1 i2 v1 v2.
  destruct (Alike_images R ai1 ai2 Hsame prompt textOverlay variations userId
              w1 w2 Hw) as (Hio & Hit & Hil & _).
  destruct (Alike_video R ai1 ai2 Hsame onProgress1 onProgress2 Hprogress
              API_KEY fuel prompt musicSuggestion userId w1 w2 Hw)
    as (Hvo & Hvt & Hvl & _).
  by rewrite Hio, Hit, Hil, Hvo, Hvt, Hvl.
Qed.

(** C8 on the stubs. Behind the provider for which everything succeeds
    stands the in-memory store in one run, and in the other a recorder
    whose every write fails: the caller is given the same. *)
Lemma C8_witness :
  let ai1 := withRecorder (memoryRecorder (Reason:=string)) Stub.scripted in
  let ai2 :=
    withRecorder (failingRecorder (RWorld:=()) "store down") Stub.scripted in
  let i1 := generateImagesAndCaptions ai1 "a red bicycle" "" 2 (Some "u1")
              (Stub.happy, mkMem ∅ []) in
  let i2 := generateImagesAndCaptions ai2 "a red bicycle" "" 2 (Some "u1")
              (Stub.happy, ()) in
  let v1 := generateVideoAndCaption ai1 "KEY" 0 "a red bicycle" "jazz"
              (besideRecorder Stub.silent) (Some "u1")
              (Stub.happy, mkMem ∅ []) in
  let v2 := generateVideoAndCaption ai2 "KEY" 0 "a red bicycle" "jazz"
              (besideRecorder Stub.silent) (Some "u1") (Stub.happy, ()) in
  outcome i1 = outcome i2 ∧ trace i1 = trace i2 ∧ late i1 = late i2 ∧
  outcome v1 = outcome v2 ∧ trace v1 = trace v2 ∧ late v1 = late v2.
Proof.
  apply (C8_history_write_never_surfaces (λ ww1 ww2, ww1.1 = ww2.1)).
  - apply withRecorder_same.
  - intros message [w rw1] [w' rw2] Hw. cbn [fst snd] in Hw. by subst w'.
  - reflexivity.
Defined.

(** In those two runs the recorders did not do the same: the store holds
    the two entries of the image call, the failing recorder holds nothing,
    and both calls resolved with the two results. *)
Example images_recorded_or_not :
  let run {RWorld} (rec : Recorder RWorld string) (rw : RWorld) :=
    generateImagesAndCaptions (withRecorder rec Stub.scripted)
      "a red bicycle" "" 2 (Some "u1") (Stub.happy, rw) in
  media_url <$> historyOf (mem_history (world (run memoryRecorder
                                                 (mkMem ∅ []))).2) "u1"
    = ["data:image/jpeg;base64,AAAA"; "data:image/jpeg;base64,BBBB"] ∧
  (world (run (failingRecorder "store down") ())).2 = () ∧
  url <$> default [] (resolvedValue (outcome (run memoryRecorder
                                                (mkMem ∅ []))))
    = ["data:image/jpeg;base64,AAAA"; "data:image/jpeg;base64,BBBB"].
Proof. by vm_compute. Qed.

(** ** The image workflow on the stubs *)

(** The request for two variations of a red bicycle, against a provider
    that returns two images and one caption text. *)
Example images_two_variations :
  generateImagesAndCaptions Stub.scripted "a red bicycle" "" 2 (Some "u1")
    Stub.happy
  = {| outcome := Resolved
         [ {| url := "data:image/jpeg;base64,AAAA"; caption := "Ride on! #bike" |};
           {| url := "data:image/jpeg;base64,BBBB"; caption := "Ride on! #bike" |} ];
       world := Stub.mkScript (Stub.images Stub.happy) []
                  (Stub.submitted Stub.happy) [] (Stub.fetched Stub.happy)
                  (Stub.blobbed Stub.happy) [];
       trace :=
         [ GenerateImages (imageParams "a red bicycle" "" 2)
             (Stub.images Stub.happy);
           GenerateContent (imageCaptionParams "a red bicycle")
             (inr {| text := "Ride on! #bike" |});
           GenerateContent (imageCaptionParams "a red bicycle")
             (inr {| text := "Ride on! #bike" |});
           AddToHistory "u1"
             {| item_url := "data:image/jpeg;base64,AAAA";
                item_caption := "Ride on! #bike";
                item_prompt := "a red bicycle"; item_type := image |};
           AddToHistory "u1"
             {| item_url := "data:image/jpeg;base64,BBBB";
                item_caption := "Ride on! #bike";
                item_prompt := "a red bicycle"; item_type := image |} ];
       late := [] |}.
Proof. reflexivity. Qed.

(** One caption request is refused: the call rejects as soon as that
    rejection arrives, and the history call of the other branch, whose
    caption arrives later, comes after the settlement. *)
Example images_caption_refused :
  let r := generateImagesAndCaptions Stub.scripted "a red bicycle" "" 2
             (Some "u1") Stub.captionFails in
  outcome r = Rejected (Rejection "rate limited") ∧
  detachedCalls (trace r) = [] ∧
  detachedCalls (late r) =
    [("u1", {| item_url := "data:image/jpeg;base64,AAAA";
               item_caption := "Ride on! #bike";
               item_prompt := "a red bicycle"; item_type := image |})].
Proof. by vm_compute. Qed.

(** C4, counterexamples to the claim as stated, each for a prompt that is
    not empty and two variations. The provider fulfils every request and
    returns one image: the result has one entry, not two. The provider
    fulfils every request and the caption text of the second image is
    empty: the second entry has an empty caption. The provider refuses a
    caption request: the call rejects and returns no sequence at all. *)
Lemma C4_counterexample :
  let run script :=
    generateImagesAndCaptions Stub.scripted "a red bicycle" "" 2 None
      script in
  let asClaimed (r : Run Stub.Script string (list MediaResult)) :=
    ∃ results, outcome r = Resolved results ∧ length results = 2%nat ∧
      Forall (λ x, truthy (url x) = true ∧ truthy (caption x) = true)
             results in
  (outcome (run Stub.oneImage) =
     Resolved [ {| url := "data:image/jpeg;base64,AAAA";
                   caption := "Ride on! #bike" |} ] ∧
   ¬ asClaimed (run Stub.oneImage)) ∧
  (outcome (run Stub.blankCaption) =
     Resolved [ {| url := "data:image/jpeg;base64,AAAA";
                   caption := "Ride on! #bike" |};
                {| url := "data:image/jpeg;base64,BBBB"; caption := "" |} ] ∧
   ¬ asClaimed (run Stub.blankCaption)) ∧
  (outcome (run Stub.captionFails) = Rejected (Rejection "rate limited") ∧
   ¬ asClaimed (run Stub.captionFails)).
Proof.
  cbv zeta. split; [|split].
  - split; [reflexivity|]. intros (results & Hres & Hlen & _).
    vm_compute in Hres. injection Hres as <-. discriminate.
  - split; [reflexivity|]. intros (results & Hres & _ & Hall).
    vm_compute in Hres. injection Hres as <-.
    apply Forall_cons in Hall as [_ Hall].
    apply Forall_cons in Hall as [[_ Hcap] _]. discriminate.
  - split; [reflexivity|]. intros (results & Hres & _).
    vm_compute in Hres. discriminate.
Qed.

(** C7 on the stubs: the second caption request is refused and the call
    rejects with that reason; the batch request is refused and the call
    rejects with that reason, having made no other request. *)
Lemma C7_witness :
  let run script :=
    generateImagesAndCaptions Stub.scripted "a red bicycle" "" 2 (Some "u1")
      script in
  (outcome (run Stub.captionFails) = Rejected (Rejection "rate limited") ∧
   ∀ results, outcome (run Stub.captionFails) ≠ Resolved results) ∧
  (outcome (run Stub.batchFails) = Rejected (Rejection "quota exceeded") ∧
   captionRequests (trace (run Stub.batchFails)
                      ++ late (run Stub.batchFails)) = [] ∧
   ∀ results, outcome (run Stub.batchFails) ≠ Resolved results).
Proof.
  cbv zeta. split.
  - destruct (C7_image_failures_reject_the_call Stub.scripted "a red bicycle"
                2 (Some "u1") "" Stub.captionFails "rate limited")
      as [Hno _].
    { right. eexists. split; [reflexivity|]. vm_compute.
      apply list_elem_of_further, list_elem_of_here. }
    split; [reflexivity|exact Hno].
  - destruct (C7_image_failures_reject_the_call Stub.scripted "a red bicycle"
                2 (Some "u1") "" Stub.batchFails "quota exceeded")
      as [Hno Hrej].
    { left. reflexivity. }
    cbv zeta in Hrej. cbn [Stub.scripted generateImages fst] in Hrej.
    change (Stub.images Stub.batchFails) with
      (inl "quota exceeded" : string + GenerateImagesResponse) in Hrej.
    cbv iota in Hrej. destruct Hrej as (Ho & Hc & _).
    split; [exact Ho|]. split; [exact Hc|exact Hno].
Defined.

(** ** Enough fuel lets the loop finish

    Against the provider that reports completion on its [n]-th refresh, a
    loop started after [w] refreshes, with at least [n - w] units of fuel,
    makes the [n - w] refreshes that are left and exits. *)

Lemma pollLoop_completesOn (n : nat) : ∀ fuel k w op,
  (w < n)%nat → op_done op = false → (n - w ≤ fuel)%nat →
  let r := pollLoop (Stub.completesOn n) fuel Stub.silent k op w in
  outcome r = Resolved (Stub.handle true (op_response op)) ∧
  world r = n ∧
  length (refreshesOf (trace r)) = (n - w)%nat ∧
  progressOf (trace r) = flavor <$> seq k (n - w).
Proof.
  induction fuel as [|fuel IH]; intros k w op Hw Hd Hfuel; [lia|].
  cbv zeta. rewrite pollLoop_step by done. simpl.
  change (Stub.silent (flavor k) w) with w.
  destruct (decide (S w = n)) as [Hn|Hn].
  - rewrite (bool_decide_eq_true_2 _ Hn).
    assert (∀ f op', op_done op' = true →
      pollLoop (Stub.completesOn n) f Stub.silent (S k) op' (S w)
      = mkRun (Resolved op') (S w) [] []) as Hexit.
    { intros f op' Hd'. destruct f; simpl; by rewrite Hd'. }
    rewrite Hexit by done. simpl.
    replace (n - w)%nat with 1%nat by lia.
    repeat split; eauto.
  - rewrite (bool_decide_eq_false_2 _ Hn).
    set (op' := Stub.handle false (op_response op)).
    destruct (IH (S k) (S w) op') as (Ho & Hworld & Hlen & Hprog);
      [lia|done|lia|].
    destruct (pollLoop (Stub.completesOn n) fuel Stub.silent (S k) op' (S w))
      as [o w' t l].
    simpl in *. subst o w'.
    replace (n - w)%nat with (S (n - S w)) by lia.
    repeat split; eauto; simpl; by f_equal.
Qed.

(** The video workflow against that provider, with [n] positive and at
    least [n] units of fuel: it resolves after exactly [n] refreshes, and
    the callback hears the two submission messages, the flavor strings of
    iterations [0 .. n-1], and the three closing messages. *)
Lemma video_completesOn (n fuel : nat) (prompt musicSuggestion : string)
    (userId : option string) :
  (0 < n ≤ fuel)%nat →
  let r := generateVideoAndCaption (Stub.completesOn n) "KEY" fuel prompt
             musicSuggestion Stub.silent userId 0%nat in
  outcome r = Resolved {| url := "blob:1"; caption := "Watch this! #video" |} ∧
  length (refreshesOf (trace r)) = n ∧
  progressOf (trace r) =
    [craftingMessage; sendingMessage] ++ (flavor <$> seq 0 n)
      ++ [fetchingMessage; captioningMessage; doneMessage].
Proof.
  intros [Hpos Hfuel].
  unfold generateVideoAndCaption, addToHistoryDetached.
  unfold mbind, M_bind, mret, M_ret, throw, report, perform, await.
  cbn [generateVideos Stub.completesOn].
  rewrite bool_decide_eq_false_2 by lia.
  change (Stub.silent _ (Stub.silent _ 0%nat)) with 0%nat.
  destruct (pollLoop_completesOn n fuel 0 0
              (Stub.handle false
                 (Some (Stub.videoAt "https://video/1?alt=media"))))
    as (Ho & Hw & Hlen & Hprog); [lia|done|lia|].
  rewrite Nat.sub_0_r in Hlen, Hprog.
  destruct (pollLoop (Stub.completesOn n) fuel Stub.silent 0 _ 0%nat)
    as [o w t l].
  simpl in Ho, Hw, Hlen, Hprog. subst o w. simpl.
  unfold refreshesOf, progressOf in *.
  destruct (truthy_opt userId); simpl;
    rewrite !omap_app, length_app, Hlen, Hprog; simpl;
    (split; [done|]); (split; [lia|done]).
Qed.

(** * The rest of the store and the views that call the workflows

    What follows embeds the other functions of [firestoreService], the
    mock [authService], and the handlers of the views that call the store
    and the two generation workflows. *)

(** ** types.ts: sheets and chat messages *)

Inductive PromptStatus := pending | processing | completed | error.

Record SheetPrompt := mkPrompt {
  sp_id : string;
  sp_prompt : string;
  sp_status : PromptStatus;
  sp_resultUrl : option string;
  sp_caption : option string;
}.

Record Sheet := mkSheet {
  sheet_id : string;
  sheet_name : string;
  sheet_type : MediaType;
  sheet_prompts : list SheetPrompt;
}.

Inductive Role := user | model.

(** [parts] is an array of [{ text }] objects: the list of their texts. *)
Record ChatMessage := mkMessage {
  msg_role : Role;
  msg_parts : list string;
  msg_timestamp : Z;
  msg_prompts : option (list string);
}.

(** ** firestoreService: the other functions of the store

    [db.sheets] and [db.chats] are objects used as maps, like [db.history],
    and are modelled like it at the user ids that are not one of
    [objectPrototypeNames]: there a read finds the user's list or
    [undefined], and a write creates or replaces the user's list.
    [JSON.parse(JSON.stringify(x))] copies a value made of strings, finite
    numbers and arrays: the copy is the value. *)

(** [if (!db.xs[userId]) db.xs[userId] = [];] *)
Definition ensureList {A} (userId : string) (m : gmap string (list A))
    : gmap string (list A) :=
  match m !! userId with
  | Some _ => m
  | None => <[userId := []]> m
  end.

(** What a caller can read of a user's list. *)
Definition listOf {A} (m : gmap string (list A)) (userId : string) : list A :=
  default [] (m !! userId).

Definition deleteFromHistory (userId itemId : string) (history : HistoryDb)
    : HistoryDb :=
  match history !! userId with
  | Some items =>
      <[userId := filter (λ item, media_id item ≠ itemId) items]> history
  | None => history
  end.

Definition getChatHistory (userId : string)
    (chats : gmap string (list ChatMessage))
    : list ChatMessage * gmap string (list ChatMessage) :=
  let chats := ensureList userId chats in
  (default [] (chats !! userId), chats).

(** [db.chats[userId] = messages], at a user id that is not one of
    [objectPrototypeNames]: the assignment creates or replaces the user's
    own list. *)
Definition saveChatHistory (userId : string) (messages : list ChatMessage)
    (chats : gmap string (list ChatMessage))
    : gmap string (list ChatMessage) :=
  <[userId := messages]> chats.

Definition clearChatHistory (userId : string)
    (chats : gmap string (list ChatMessage))
    : gmap string (list ChatMessage) :=
  <[userId := []]> chats.

Definition getSheets (userId : string) (sheets : gmap string (list Sheet))
    : list Sheet * gmap string (list Sheet) :=
  let sheets := ensureList userId sheets in
  (default [] (sheets !! userId), sheets).

(** [Array.prototype.findIndex]: the first index whose element satisfies
    the predicate, [None] for [-1]. *)
Definition findIndex {A} (P : A → Prop) `{∀ x, Decision (P x)} (l : list A)
    : option nat :=
  fst <$> list_find P l.

Definition saveSheet (userId : string) (sheetToSave : Sheet)
    (sheets : gmap string (list Sheet))
    : Sheet * gmap string (list Sheet) :=
  let sheets := ensureList userId sheets in
  let stored := default [] (sheets !! userId) in
  let sheetIndex :=
    findIndex (λ s, sheet_id s = sheet_id sheetToSave) stored in
  (sheetToSave,
   match sheetIndex with
   | Some i => <[userId := <[i := sheetToSave]> stored]> sheets
   | None => <[userId := stored ++ [sheetToSave]]> sheets
   end).

(** [sheets.find(s => s.id === id)] *)
Definition findSheet (id : string) (stored : list Sheet) : option Sheet :=
  snd <$> list_find (λ s, sheet_id s = id) stored.

(** ** HistoryView: the list on screen and the store *)

Global Instance MediaType_eq_dec : EqDecision MediaType.
Proof. solve_decision. Defined.

Inductive HistoryFilter := filterAll | filterOnly (type : MediaType).

Record HistoryViewState := mkHistoryView {
  hv_history : list GeneratedMedia;
  hv_isLoading : bool;
  hv_error : option string;
  hv_filter : HistoryFilter;
}.

(** [fetchHistory]: the store cannot reject, so the [catch] is not taken. *)
Definition fetchHistory (uid : string) (ui : HistoryViewState)
    (history : HistoryDb) : HistoryViewState * HistoryDb :=
  let '(userHistory, history) := getHistory uid history in
  (mkHistoryView userHistory false (hv_error ui) (hv_filter ui), history).

(** [handleDelete]: the list on screen is filtered at once, then the store
    is told; the store cannot reject, so the list is never put back. *)
Definition handleDelete (uid itemId : string) (ui : HistoryViewState)
    (history : HistoryDb) : HistoryViewState * HistoryDb :=
  let shown := filter (λ item, media_id item ≠ itemId) (hv_history ui) in
  (mkHistoryView shown (hv_isLoading ui) (hv_error ui) (hv_filter ui),
   deleteFromHistory uid itemId history).

(** [filteredHistory] *)
Definition filteredHistory (ui : HistoryViewState) : list GeneratedMedia :=
  match hv_filter ui with
  | filterAll => hv_history ui
  | filterOnly type => filter (λ item, media_type item = type) (hv_history ui)
  end.

(** ** Properties of the history store and its view *)

Lemma insertSorted_head x l :
  Forall (λ z, (media_timestamp z ≤ media_timestamp x)%Z) l →
  insertSorted newestFirst x l = x :: l.
Proof.
  destruct 1 as [|y l Hy _]; simpl; [done|].
  unfold newestFirst. by rewrite (proj2 (Z.ltb_ge _ _)) by lia.
Qed.

Lemma Forall_filter_keep {A} (Q P : A → Prop) `{∀ x, Decision (P x)} l :
  Forall Q l → Forall Q (filter P l).
Proof.
  rewrite !Forall_forall. intros HQ x [_ Hx]%list_elem_of_filter. auto.
Qed.

Lemma filter_newerOrEqual (P : GeneratedMedia → Prop) `{∀ x, Decision (P x)}
    l :
  StronglySorted newerOrEqual l → StronglySorted newerOrEqual (filter P l).
Proof.
  induction 1 as [|y l Hs IH Hy]; [constructor|].
  rewrite filter_cons. destruct (decide (P y)); [|done].
  constructor; [done|]. by apply Forall_filter_keep.
Qed.

Lemma insertSorted_filter (P : GeneratedMedia → Prop)
    `{∀ x, Decision (P x)} x l :
  StronglySorted newerOrEqual l →
  filter P (insertSorted newestFirst x l) =
  if decide (P x) then insertSorted newestFirst x (filter P l)
  else filter P l.
Proof.
  induction 1 as [|y l Hs IH Hy]; simpl.
  { rewrite filter_cons. by destruct (decide (P x)). }
  unfold newestFirst at 1.
  destruct (0 <? media_timestamp y - media_timestamp x)%Z eqn:Hcmp.
  - rewrite !filter_cons, IH.
    destruct (decide (P y)), (decide (P x)); try done.
    simpl. unfold newestFirst at 2. by rewrite Hcmp.
  - apply Z.ltb_ge in Hcmp. rewrite filter_cons.
    destruct (decide (P x)); [|done].
    rewrite insertSorted_head; [done|].
    apply Forall_filter_keep. constructor; [lia|].
    eapply Forall_impl; [exact Hy|]. unfold newerOrEqual. intros z ?. lia.
Qed.

(** Sorting newest first and filtering can be done in either order. *)
Lemma sort_filter (P : GeneratedMedia → Prop) `{∀ x, Decision (P x)} l :
  sort newestFirst (filter P l) = filter P (sort newestFirst l).
Proof.
  induction l as [|x l IH]; simpl; [done|].
  rewrite insertSorted_filter by apply sort_newestFirst.
  rewrite filter_cons. destruct (decide (P x)); simpl; by rewrite IH.
Qed.

Lemma sort_snoc_newest x l :
  Forall (λ e, (media_timestamp e < media_timestamp x)%Z) l →
  sort newestFirst (l ++ [x]) = x :: sort newestFirst l.
Proof.
  induction 1 as [|y l Hy _ IH]; simpl; [done|].
  rewrite IH. simpl. unfold newestFirst at 1.
  by rewrite (proj2 (Z.ltb_lt _ _)) by lia.
Qed.

Lemma getHistory_result userId (history : HistoryDb) :
  (getHistory userId history).1 = sort newestFirst (historyOf history userId).
Proof.
  unfold getHistory. cbn [fst].
  change (default [] (ensureLog userId history !! userId))
    with (historyOf (ensureLog userId history) userId).
  by rewrite historyOf_ensureLog.
Qed.

Lemma addToHistory_store idNow random stamp userId itemData
    (history : HistoryDb) :
  (addToHistory idNow random stamp userId itemData history).2 =
  <[userId := historyOf history userId ++
      [(addToHistory idNow random stamp userId itemData history).1]]>
    (ensureLog userId history).
Proof.
  unfold addToHistory. cbn [fst snd].
  change (default [] (ensureLog userId history !! userId))
    with (historyOf (ensureLog userId history) userId).
  by rewrite historyOf_ensureLog.
Qed.

Lemma ensureLog_other userId u (history : HistoryDb) :
  u ≠ userId → ensureLog userId history !! u = history !! u.
Proof.
  intros Hne. unfold ensureLog.
  destruct (history !! userId); [done|]. by rewrite lookup_insert_ne.
Qed.

Lemma addToHistory_log idNow random stamp userId itemData
    (history : HistoryDb) :
  historyOf (addToHistory idNow random stamp userId itemData history).2 userId
  = historyOf history userId ++
      [(addToHistory idNow random stamp userId itemData history).1].
Proof.
  rewrite addToHistory_store. unfold historyOf at 1.
  by rewrite lookup_insert_eq.
Qed.

(** X1. For a user id that names no member of [Object.prototype]:
    [addToHistory] appends the new entry to the user's log and to no
    other log; the entry carries the data it was given and the time that
    was read; [getHistory] then returns the new entry together with what it
    returned before. *)
Theorem addToHistory_then_getHistory (idNow : Z) (random : string) (stamp : Z)
    (userId : string) (itemData : MediaItemData) (history : HistoryDb) :
  userId ∉ objectPrototypeNames →
  let newItem :=
    (addToHistory idNow random stamp userId itemData history).1 in
  let history' :=
    (addToHistory idNow random stamp userId itemData history).2 in
  historyOf history' userId = historyOf history userId ++ [newItem] ∧
  (∀ u, u ≠ userId → history' !! u = history !! u) ∧
  (getHistory userId history').1 ≡ₚ newItem :: (getHistory userId history).1 ∧
  media_url newItem = item_url itemData ∧
  media_caption newItem = item_caption itemData ∧
  media_prompt newItem = item_prompt itemData ∧
  media_type newItem = item_type itemData ∧
  media_timestamp newItem = stamp.
Proof.
  intros _ newItem history'. subst newItem history'.
  split; [apply addToHistory_log|]. split.
  { intros u Hne. rewrite addToHistory_store, lookup_insert_ne by done.
    by apply ensureLog_other. }
  split; [|done].
  rewrite !getHistory_result, addToHistory_log, !sort_Permutation.
  by rewrite Permutation_app_comm.
Qed.

(** X2. For a user id that names no member of [Object.prototype]: when
    the time read by [addToHistory] is later than the timestamp of every
    entry already in the user's log, [getHistory] returns the new entry
    first, followed by exactly what it returned before. *)
Theorem addToHistory_newest_comes_first (idNow : Z) (random : string)
    (stamp : Z) (userId : string) (itemData : MediaItemData)
    (history : HistoryDb)
    (Hname : userId ∉ objectPrototypeNames)
    (Hlater : Forall (λ e, (media_timestamp e < stamp)%Z)
                     (historyOf history userId)) :
  (getHistory userId
     (addToHistory idNow random stamp userId itemData history).2).1 =
  (addToHistory idNow random stamp userId itemData history).1
    :: (getHistory userId history).1.
Proof.
  rewrite !getHistory_result, addToHistory_log.
  by apply sort_snoc_newest.
Qed.

Lemma deleteFromHistory_log userId itemId (history : HistoryDb) :
  historyOf (deleteFromHistory userId itemId history) userId =
  filter (λ item, media_id item ≠ itemId) (historyOf history userId).
Proof.
  unfold deleteFromHistory, historyOf.
  destruct (history !! userId) as [items|] eqn:Hitems.
  - by rewrite lookup_insert_eq.
  - by rewrite Hitems.
Qed.

Lemma filter_filter_same {A} (P : A → Prop) `{∀ x, Decision (P x)}
    (l : list A) :
  filter P (filter P l) = filter P l.
Proof.
  induction l as [|x l IH]; [done|].
  rewrite filter_cons. destruct (decide (P x)) as [HP|HP]; [|done].
  rewrite filter_cons. destruct (decide (P x)); [|done]. by rewrite IH.
Qed.

(** X3. [deleteFromHistory] removes from the user's log every entry with
    the given id and nothing else, keeping the order of the rest; it
    leaves the other users' logs alone; for a user without a log it leaves
    the store as it is (no empty log is created); deleting the same id
    again changes nothing. *)
Theorem deleteFromHistory_removes_only_that_id (userId itemId : string)
    (history : HistoryDb) :
  let history' := deleteFromHistory userId itemId history in
  historyOf history' userId =
    filter (λ item, media_id item ≠ itemId) (historyOf history userId) ∧
  (∀ item, item ∈ historyOf history' userId ↔
           item ∈ historyOf history userId ∧ media_id item ≠ itemId) ∧
  (∀ u, u ≠ userId → history' !! u = history !! u) ∧
  (history !! userId = None → history' = history) ∧
  deleteFromHistory userId itemId history' = history'.
Proof.
  intros history'. subst history'.
  split; [apply deleteFromHistory_log|]. split.
  { intros item. rewrite deleteFromHistory_log, list_elem_of_filter. tauto. }
  split.
  { intros u Hne. unfold deleteFromHistory.
    destruct (history !! userId); [|done]. by rewrite lookup_insert_ne. }
  split.
  { intros Hnone. unfold deleteFromHistory. by rewrite Hnone. }
  unfold deleteFromHistory.
  destruct (history !! userId) as [items|] eqn:Hitems.
  - rewrite lookup_insert_eq, insert_insert_eq. by rewrite filter_filter_same.
  - by rewrite Hitems.
Qed.

(** X4. Adding an entry and then deleting it by the id it was given
    restores the user's log, provided no stored entry already had that id. *)
Theorem addToHistory_then_delete (idNow : Z) (random : string) (stamp : Z)
    (userId : string) (itemData : MediaItemData) (history : HistoryDb)
    (Hfresh : Forall (λ e, media_id e ≠
                 media_id (addToHistory idNow random stamp userId itemData
                                        history).1)
                     (historyOf history userId)) :
  historyOf
    (deleteFromHistory userId
       (media_id (addToHistory idNow random stamp userId itemData history).1)
       (addToHistory idNow random stamp userId itemData history).2)
    userId
  = historyOf history userId.
Proof.
  rewrite deleteFromHistory_log, addToHistory_log, filter_app.
  rewrite filter_cons, decide_False by (intros Hne; by apply Hne).
  rewrite filter_nil, app_nil_r.
  induction Hfresh as [|e l He _ IH]; [done|].
  by rewrite filter_cons, decide_True, IH.
Qed.

(** X5. The History view stays in step with the store: once [fetchHistory]
    has loaded the list, the list [handleDelete] leaves on screen is the
    list a fresh [fetchHistory] would load from the store afterwards. *)
Theorem handleDelete_matches_store (uid itemId : string)
    (ui : HistoryViewState) (history : HistoryDb) :
  let loaded := fetchHistory uid ui history in
  let deleted := handleDelete uid itemId loaded.1 loaded.2 in
  hv_history deleted.1 = hv_history (fetchHistory uid deleted.1 deleted.2).1 ∧
  filteredHistory deleted.1 =
    filter (λ item, media_id item ≠ itemId) (filteredHistory loaded.1).
Proof.
  intros loaded deleted. subst loaded deleted.
  unfold fetchHistory.
  destruct (getHistory uid history) as [userHistory history1] eqn:Hget.
  cbn [fst snd handleDelete hv_history hv_isLoading hv_error hv_filter].
  destruct (getHistory uid (deleteFromHistory uid itemId history1))
    as [userHistory2 history2] eqn:Hget2.
  cbn [fst snd hv_history].
  assert (userHistory = sort newestFirst (historyOf history uid)) as ->.
  { by rewrite <- getHistory_result, Hget. }
  assert (history1 = ensureLog uid history) as ->.
  { unfold getHistory in Hget. by injection Hget as _ <-. }
  assert (userHistory2 = (getHistory uid
            (deleteFromHistory uid itemId (ensureLog uid history))).1) as ->.
  { by rewrite Hget2. }
  split.
  - rewrite getHistory_result, deleteFromHistory_log, historyOf_ensureLog.
    by rewrite sort_filter.
  - unfold filteredHistory. cbn [hv_filter hv_history].
    destruct (hv_filter ui) as [|type]; [done|].
    set (l := sort newestFirst (historyOf history uid)). clearbody l.
    induction l as [|x l IH]; [done|].
    rewrite !filter_cons.
    destruct (decide (media_id x ≠ itemId)), (decide (media_type x = type));
      rewrite ?filter_cons, ?decide_True, ?decide_False by done;
      by rewrite IH.
Qed.

(** ** Properties of the sheet and chat stores *)

Lemma ensureList_lookup {A} userId u (m : gmap string (list A)) :
  listOf (ensureList userId m) u = listOf m u.
Proof.
  unfold listOf, ensureList.
  destruct (m !! userId) as [l|] eqn:Hl; [done|].
  destruct (decide (userId = u)) as [->|Hne].
  - by rewrite lookup_insert_eq, Hl.
  - by rewrite lookup_insert_ne.
Qed.

Lemma ensureList_other {A} userId u (m : gmap string (list A)) :
  u ≠ userId → ensureList userId m !! u = m !! u.
Proof.
  intros Hne. unfold ensureList.
  destruct (m !! userId); [done|]. by rewrite lookup_insert_ne.
Qed.

Lemma ensureList_present {A} userId (m : gmap string (list A)) l :
  m !! userId = Some l → ensureList userId m = m.
Proof. intros Hl. unfold ensureList. by rewrite Hl. Qed.

Lemma list_find_cons {A} (P : A → Prop) `{∀ x, Decision (P x)} x
    (l : list A) :
  list_find P (x :: l) =
  if decide (P x) then Some (0%nat, x)
  else prod_map S id <$> list_find P l.
Proof. done. Qed.

Lemma list_find_replace {A} (P : A → Prop) `{∀ x, Decision (P x)}
    (l : list A) i x y :
  list_find P l = Some (i, y) → P x →
  list_find P (<[i := x]> l) = Some (i, x).
Proof.
  revert i. induction l as [|z l IH]; intros i Hfind HPx; [done|].
  rewrite list_find_cons in Hfind.
  destruct (decide (P z)) as [HPz|HPz].
  - injection Hfind as <- <-.
    change (<[0%nat := x]> (z :: l)) with (x :: l).
    rewrite list_find_cons. by rewrite decide_True.
  - destruct (list_find P l) as [[j y']|] eqn:Hl; [|done].
    injection Hfind as <- <-.
    change (<[S j := x]> (z :: l)) with (z :: <[j := x]> l).
    rewrite list_find_cons, decide_False by done.
    by rewrite (IH j eq_refl HPx).
Qed.

Lemma list_find_replace_other {A} (P : A → Prop) `{∀ x, Decision (P x)}
    (l : list A) i x y :
  l !! i = Some y → ¬ P x → ¬ P y →
  list_find P (<[i := x]> l) = list_find P l.
Proof.
  revert i. induction l as [|z l IH]; intros i Hi HPx HPy; [done|].
  destruct i as [|i].
  - injection Hi as ->.
    change (<[0%nat := x]> (y :: l)) with (x :: l).
    rewrite !list_find_cons. by rewrite !decide_False by done.
  - change (<[S i := x]> (z :: l)) with (z :: <[i := x]> l).
    rewrite !list_find_cons.
    destruct (decide (P z)); [done|]. by rewrite (IH i Hi HPx HPy).
Qed.

Lemma list_find_snoc {A} (P : A → Prop) `{∀ x, Decision (P x)}
    (l : list A) x :
  list_find P l = None → P x →
  list_find P (l ++ [x]) = Some (List.length l, x).
Proof.
  intros Hnone HPx. induction l as [|z l IH].
  - change ([] ++ [x]) with [x].
    rewrite list_find_cons. by rewrite decide_True.
  - rewrite list_find_cons in Hnone.
    change ((z :: l) ++ [x]) with (z :: (l ++ [x])).
    rewrite list_find_cons.
    destruct (decide (P z)); [done|].
    destruct (list_find P l); [done|]. by rewrite IH.
Qed.

Lemma list_find_snoc_other {A} (P : A → Prop) `{∀ x, Decision (P x)}
    (l : list A) x :
  ¬ P x → list_find P (l ++ [x]) = list_find P l.
Proof.
  intros HPx. induction l as [|z l IH].
  - change ([] ++ [x]) with [x].
    rewrite list_find_cons. by rewrite decide_False.
  - change ((z :: l) ++ [x]) with (z :: (l ++ [x])).
    rewrite !list_find_cons. destruct (decide (P z)); [done|].
    by rewrite IH.
Qed.

Lemma saveSheet_store userId sheetToSave
    (sheets : gmap string (list Sheet)) :
  listOf (saveSheet userId sheetToSave sheets).2 userId =
  match findIndex (λ s, sheet_id s = sheet_id sheetToSave)
                  (listOf sheets userId) with
  | Some i => <[i := sheetToSave]> (listOf sheets userId)
  | None => listOf sheets userId ++ [sheetToSave]
  end.
Proof.
  unfold saveSheet. cbn [snd].
  change (default [] (ensureList userId sheets !! userId))
    with (listOf (ensureList userId sheets) userId).
  rewrite ensureList_lookup.
  destruct (findIndex _ _); unfold listOf at 1; by rewrite lookup_insert_eq.
Qed.

(** X6. For a user id that names no member of [Object.prototype]: after
    [saveSheet] the user's list holds the saved sheet under its id ([find]
    by that id returns it), and [find] by any other id returns what it
    returned before; the other users' lists are untouched and the sheet is
    handed back unchanged. *)
Theorem saveSheet_then_find (userId : string) (sheetToSave : Sheet)
    (sheets : gmap string (list Sheet)) :
  userId ∉ objectPrototypeNames →
  let saved := saveSheet userId sheetToSave sheets in
  saved.1 = sheetToSave ∧
  findSheet (sheet_id sheetToSave) (getSheets userId saved.2).1
    = Some sheetToSave ∧
  (∀ id, id ≠ sheet_id sheetToSave →
     findSheet id (getSheets userId saved.2).1 =
     findSheet id (getSheets userId sheets).1) ∧
  (∀ u, u ≠ userId → saved.2 !! u = sheets !! u).
Proof.
  intros _ saved. subst saved. split; [done|].
  assert (∀ m, (getSheets userId m).1 = listOf m userId) as Hget.
  { intros m. unfold getSheets. cbn [fst].
    apply (ensureList_lookup userId userId m). }
  rewrite !Hget, saveSheet_store.
  unfold findIndex, findSheet.
  destruct (list_find (λ s, sheet_id s = sheet_id sheetToSave)
              (listOf sheets userId)) as [[i old]|] eqn:Hfind; cbn [fmap option_fmap option_map fst].
  - split; [|split].
    + by rewrite (list_find_replace _ _ i sheetToSave old Hfind eq_refl).
    + intros id Hne.
      apply list_find_Some in Hfind as (Hi & Hold & _).
      rewrite (list_find_replace_other _ _ i sheetToSave old Hi); [done|..].
      * intros Heq. by apply Hne.
      * intros Heq. apply Hne. by rewrite <- Heq.
    + intros u Hne. unfold saveSheet. cbn [snd].
      destruct (findIndex _ _); rewrite lookup_insert_ne by done;
        by apply ensureList_other.
  - split; [|split].
    + by rewrite (list_find_snoc _ _ sheetToSave Hfind eq_refl).
    + intros id Hne.
      rewrite list_find_snoc_other; [done|]. intros Heq. by apply Hne.
    + intros u Hne. unfold saveSheet. cbn [snd].
      destruct (findIndex _ _); rewrite lookup_insert_ne by done;
        by apply ensureList_other.
Qed.

(** X7. For a user id that names no member of [Object.prototype]:
    [saveSheet] is an insert-or-replace on ids: when the user's list
    already holds a sheet with the id, the list of ids (and so the number
    of sheets) stays as it is; otherwise the id is added at the end. Ids
    that were distinct stay distinct, and saving the same sheet a second
    time changes nothing. *)
Theorem saveSheet_upsert (userId : string) (sheetToSave : Sheet)
    (sheets : gmap string (list Sheet)) :
  userId ∉ objectPrototypeNames →
  let ids := sheet_id <$> listOf sheets userId in
  let saved := (saveSheet userId sheetToSave sheets).2 in
  sheet_id <$> listOf saved userId =
    (if decide (sheet_id sheetToSave ∈ ids) then ids
     else ids ++ [sheet_id sheetToSave]) ∧
  (NoDup ids → NoDup (sheet_id <$> listOf saved userId)) ∧
  (saveSheet userId sheetToSave saved).2 = saved.
Proof.
  intros _ ids saved. subst ids saved.
  assert (sheet_id <$> listOf (saveSheet userId sheetToSave sheets).2 userId
          = if decide (sheet_id sheetToSave ∈ sheet_id <$> listOf sheets userId)
            then sheet_id <$> listOf sheets userId
            else (sheet_id <$> listOf sheets userId) ++ [sheet_id sheetToSave])
    as Hids.
  { rewrite saveSheet_store. unfold findIndex.
    destruct (list_find _ _) as [[i old]|] eqn:Hfind;
      cbn [fmap option_fmap option_map fst].
    - apply list_find_Some in Hfind as (Hi & Hold & _).
      rewrite decide_True.
      + rewrite list_fmap_insert. apply list_insert_id.
        by rewrite list_lookup_fmap, Hi, <- Hold.
      + apply list_elem_of_fmap. exists old. split; [done|].
        by eapply list_elem_of_lookup_2.
    - apply list_find_None in Hfind. rewrite decide_False.
      + by rewrite fmap_app.
      + intros (s & Hs & Hin)%list_elem_of_fmap.
        rewrite Forall_forall in Hfind. by apply (Hfind s Hin). }
  split; [exact Hids|]. split.
  { intros Hnd. rewrite Hids.
    destruct (decide _) as [Hin|Hin]; [done|].
    apply NoDup_app. split; [done|]. split; [|apply NoDup_singleton].
    intros id Hid ->%list_elem_of_singleton. by apply Hin. }
  unfold saveSheet at 1. cbn [snd].
  set (saved := (saveSheet userId sheetToSave sheets).2).
  assert (saved !! userId = Some (listOf saved userId)) as Hsaved.
  { subst saved. unfold saveSheet, listOf. cbn [snd].
    destruct (findIndex _ _); by rewrite lookup_insert_eq. }
  rewrite (ensureList_present _ _ _ Hsaved).
  change (default [] (saved !! userId)) with (listOf saved userId).
  assert (∃ i, findIndex (λ s, sheet_id s = sheet_id sheetToSave)
                 (listOf saved userId) = Some i ∧
               <[i := sheetToSave]> (listOf saved userId)
                 = listOf saved userId) as (i & -> & ->).
  { subst saved. rewrite saveSheet_store. unfold findIndex.
    destruct (list_find _ (listOf sheets userId)) as [[i old]|] eqn:Hfind;
      cbn [fmap option_fmap option_map fst].
    - exists i.
      rewrite (list_find_replace _ _ i sheetToSave old Hfind eq_refl).
      split; [done|]. by rewrite list_insert_insert_eq.
    - exists (List.length (listOf sheets userId)).
      rewrite (list_find_snoc _ _ sheetToSave Hfind eq_refl).
      split; [done|].
      rewrite insert_app_r_alt, Nat.sub_diag by done. done. }
  apply insert_id. done.
Qed.

(** X8. The chat store, among user ids that name no member of
    [Object.prototype]: [getChatHistory] after [saveChatHistory] returns
    exactly the messages saved, after [clearChatHistory] the empty list;
    neither touches another user's messages; reading never changes what a
    later read returns. *)
Theorem chat_store_round_trip (userId : string) (messages : list ChatMessage)
    (chats : gmap string (list ChatMessage)) :
  userId ∉ objectPrototypeNames →
  (getChatHistory userId (saveChatHistory userId messages chats)).1
    = messages ∧
  (getChatHistory userId (clearChatHistory userId chats)).1 = [] ∧
  (∀ u, u ∉ objectPrototypeNames → u ≠ userId →
     (getChatHistory u (saveChatHistory userId messages chats)).1
       = (getChatHistory u chats).1 ∧
     (getChatHistory u (clearChatHistory userId chats)).1
       = (getChatHistory u chats).1) ∧
  (∀ u, u ∉ objectPrototypeNames →
     (getChatHistory u (getChatHistory userId chats).2).1
       = (getChatHistory u chats).1).
Proof.
  intros _.
  assert (∀ u m, (getChatHistory u m).1 = listOf m u) as Hget.
  { intros u m. unfold getChatHistory. cbn [fst].
    apply (ensureList_lookup u u m). }
  rewrite !Hget. unfold saveChatHistory, clearChatHistory, listOf.
  rewrite !lookup_insert_eq. split; [done|]. split; [done|]. split.
  - intros u _ Hne. rewrite !Hget. unfold listOf.
    by rewrite !lookup_insert_ne by done.
  - intros u _. rewrite !Hget. unfold getChatHistory. cbn [snd].
    apply ensureList_lookup.
Qed.

(** ** More ways to read a trace *)

(** The waits asked of the timer, in milliseconds. *)
Definition sleepsOf {Reason} (t : list (Event Reason)) : list Z :=
  omap (λ e, match e with SetTimeout ms => Some ms | _ => None end) t.

(** The reasons with which calls to the collaborators were rejected. *)
Definition rejectionsOf {Reason} (t : list (Event Reason)) : list Reason :=
  omap (λ e, match e with
             | GenerateImages _ (inl reason)
             | GenerateContent _ (inl reason)
             | GenerateVideos _ (inl reason)
             | GetVideosOperation _ (inl reason)
             | Fetch _ (inl reason)
             | ReadBlob _ (inl reason) => Some reason
             | _ => None
             end) t.

Definition isSleep {Reason} (e : Event Reason) : bool :=
  match e with SetTimeout _ => true | _ => false end.

(** Every wait is of ten seconds and is followed at once by a refresh;
    every refresh follows a wait. *)
Definition SleepsPaired {Reason} (t : list (Event Reason)) : Prop :=
  (∀ i ms, t !! i = Some (SetTimeout ms) →
     ms = 10000%Z ∧ ∃ op ret, t !! S i = Some (GetVideosOperation op ret)) ∧
  (∀ i op ret, t !! i = Some (GetVideosOperation op ret) →
     ∃ j, i = S j ∧ t !! j = Some (SetTimeout 10000)).

(** ** More properties of the video workflow *)

Section MoreTraceFacts.
Context {Reason : Type}.
Implicit Types (t : list (Event Reason)).

Lemma sleepsOf_app t1 t2 : sleepsOf (t1 ++ t2) = sleepsOf t1 ++ sleepsOf t2.
Proof. apply omap_app. Qed.

Lemma rejectionsOf_app t1 t2 :
  rejectionsOf (t1 ++ t2) = rejectionsOf t1 ++ rejectionsOf t2.
Proof. apply omap_app. Qed.

Lemma detachedCalls_app t1 t2 :
  detachedCalls (t1 ++ t2) = detachedCalls t1 ++ detachedCalls t2.
Proof. apply omap_app. Qed.

Lemma SleepsPaired_app t1 t2 :
  SleepsPaired t1 → SleepsPaired t2 → SleepsPaired (t1 ++ t2).
Proof.
  intros [Hs1 Hr1] [Hs2 Hr2]. split.
  - intros i ms [Hi|[Hlen Hi]]%lookup_app_Some.
    + destruct (Hs1 i ms Hi) as (-> & op & ret & Hnext).
      split; [done|]. exists op, ret. by apply lookup_app_l_Some.
    + destruct (Hs2 _ ms Hi) as (-> & op & ret & Hnext).
      split; [done|]. exists op, ret.
      rewrite lookup_app_r by lia.
      by replace (S i - length t1)%nat with (S (i - length t1)) by lia.
  - intros i op ret [Hi|[Hlen Hi]]%lookup_app_Some.
    + destruct (Hr1 i op ret Hi) as (j & -> & Hj).
      exists j. split; [done|]. by apply lookup_app_l_Some.
    + destruct (Hr2 _ op ret Hi) as (j & Hij & Hj).
      exists (length t1 + j)%nat. split; [lia|].
      rewrite lookup_app_r by lia.
      by replace (length t1 + j - length t1)%nat with j by lia.
Qed.

Lemma SleepsPaired_none t :
  Forall (λ e, isSleep e = false ∧ isRefresh e = false) t → SleepsPaired t.
Proof.
  rewrite Forall_forall. intros Hall.
  split; [intros i ms Hi|intros i op ret Hi];
    apply list_elem_of_lookup_2, Hall in Hi as [? ?]; done.
Qed.

Lemma flavor_not_done k : Progress (Reason:=Reason) doneMessage ≠ Progress (flavor k).
Proof.
  intros [= Heq]. pose proof (flavor_elem k) as Hin. rewrite <- Heq in Hin.
  elem_cases Hin.
Qed.

Lemma PollTrace_sleeps k op t o :
  PollTrace (Reason:=Reason) k op t o →
  sleepsOf t = replicate (length (refreshesOf t)) 10000%Z ∧
  SleepsPaired t ∧ detachedCalls t = [] ∧
  Progress doneMessage ∉ t.
Proof.
  induction 1 as [k op Hd|k op Hd|k op reason Hd|k op op' t o Hd Hp IH].
  - repeat split; try done; intros; try done. apply not_elem_of_nil.
  - repeat split; try done; intros; try done. apply not_elem_of_nil.
  - split; [done|]. split; [|split; [done|]].
    + split.
      * intros [|[|[|i]]] ms Hi; simplify_eq/=. eauto.
      * intros [|[|[|i]]] op' ret Hi; simplify_eq/=. eauto.
    + intros Hin. apply elem_of_cons in Hin as [Hin|Hin];
        [by apply flavor_not_done in Hin|]. elem_cases Hin.
  - destruct IH as (Hs & [Hs1 Hs2] & Hc & Hdone).
    split; [simpl; by f_equal|]. split; [|split; [done|]].
    + split.
      * intros [|[|[|i]]] ms Hi; simplify_eq/=; eauto.
      * intros [|[|[|i]]] op'' ret Hi; simplify_eq/=; eauto.
        destruct (Hs2 i op'' ret Hi) as (j & -> & Hj).
        exists (S (S (S j))). eauto.
    + intros Hin. apply elem_of_cons in Hin as [Hin|Hin];
        [by apply flavor_not_done in Hin|].
      apply elem_of_cons in Hin as [Hin|Hin]; [done|].
      apply elem_of_cons in Hin as [Hin|Hin]; [done|]. done.
Qed.

Lemma PollTrace_rejections k op t o :
  PollTrace (Reason:=Reason) k op t o →
  match o with
  | Rejected e =>
      ∃ reason held, e = Rejection reason ∧ rejectionsOf t = [reason] ∧
        last t = Some (GetVideosOperation held (inl reason))
  | _ => rejectionsOf t = []
  end.
Proof.
  induction 1 as [k op Hd|k op Hd|k op reason Hd|k op op' t o Hd Hp IH];
    try done.
  - by exists reason, op.
  - destruct o as [op''|e|]; try done.
    destruct IH as (reason & held & -> & Hr & Hl).
    exists reason, held. split; [done|]. split; [done|].
    destruct t as [|e t]; [done|]. done.
Qed.

End MoreTraceFacts.

Section MoreVideoRunFacts.
Context {Reason : Type}.
Context (API_KEY prompt musicSuggestion : string) (userId : option string).
Implicit Types (t : list (Event Reason)) (o : Outcome Reason MediaResult).

Local Abbreviation FetchTrace' :=
  (FetchTrace (Reason:=Reason) API_KEY prompt userId).
Local Abbreviation VideoRun' :=
  (VideoRun (Reason:=Reason) API_KEY prompt musicSuggestion userId).

(** The history entry the workflow asks for. *)
Definition videoHistoryItem (result : MediaResult) : MediaItemData :=
  {| item_url := url result; item_caption := caption result;
     item_prompt := prompt; item_type := video |}.

Lemma FetchTrace_quiet op t o :
  FetchTrace' op t o →
  Forall (λ e, isSleep e = false ∧ isRefresh e = false) t.
Proof.
  destruct 1; repeat constructor.
  unfold videoHistoryCall. destruct (truthy_opt userId); by repeat constructor.
Qed.

Lemma FetchTrace_detached op t o :
  FetchTrace' op t o →
  detachedCalls t =
    match o with
    | Resolved result =>
        if truthy_opt userId
        then [(default "" userId, videoHistoryItem result)] else []
    | _ => []
    end ∧
  (∀ u d, AddToHistory u d ∈ t → last t = Some (AddToHistory u d)).
Proof.
  destruct 1 as [Hl|reason Hl|resp reason Hl|resp b videoUrl reason Hl
                |resp b videoUrl c Hl result];
    try (split; [done|]; intros u d Hin; elem_cases Hin).
  unfold videoHistoryCall. destruct (truthy_opt userId); simpl.
  - split; [done|]. intros u d Hin. elem_cases Hin. by rewrite Hin.
  - split; [done|]. intros u d Hin. elem_cases Hin.
Qed.

Lemma FetchTrace_rejections op t o :
  FetchTrace' op t o →
  match o with
  | Rejected (Rejection reason) =>
      rejectionsOf t = [reason] ∧
      ∃ e, last t = Some e ∧ rejectionsOf [e] = [reason]
  | Rejected (JsError m) => m = noLinkMessage ∧ rejectionsOf t = []
  | _ => rejectionsOf t = []
  end ∧
  (Progress doneMessage ∈ t ↔ ∃ result, o = Resolved result).
Proof.
  destruct 1 as [Hl|reason Hl|resp reason Hl|resp b videoUrl reason Hl
                |resp b videoUrl c Hl result].
  - split; [done|]. split; [intros Hin; elem_cases Hin|by intros [? ?]].
  - split; [split; [done|eauto]|].
    split; [intros Hin; elem_cases Hin|by intros [? ?]].
  - split; [split; [done|eauto]|].
    split; [intros Hin; elem_cases Hin|by intros [? ?]].
  - split; [split; [done|eauto]|].
    split; [intros Hin; elem_cases Hin|by intros [? ?]].
  - split.
    + unfold videoHistoryCall. by destruct (truthy_opt userId).
    + split; [eauto|]. intros _. apply elem_of_app. left. elem_here.
Qed.

Lemma lead_quiet op t0 po :
  PollTrace (Reason:=Reason) 0 op t0 po →
  detachedCalls (submission prompt musicSuggestion (inr op) ++ t0) = [] ∧
  (Progress doneMessage ∉
     submission prompt musicSuggestion (inr op) ++ t0) ∧
  rejectionsOf (submission (Reason:=Reason) prompt musicSuggestion (inr op))
    = [] ∧
  (∀ u d,
     AddToHistory u d ∉ submission prompt musicSuggestion (inr op) ++ t0).
Proof.
  intros Hp. destruct (PollTrace_sleeps _ _ _ _ Hp) as (_ & _ & Hc & Hdone).
  split; [by rewrite detachedCalls_app, Hc|]. split.
  { intros [Hin|Hin]%elem_of_app; [elem_cases Hin|done]. }
  split; [done|].
  intros u d Hin. apply (lead_events _ _ _ _ _ _ Hp) in Hin as [Hin|Hin];
    [done|elem_cases Hin].
Qed.

Lemma last_app_cons {A} (l1 : list A) x l2 :
  last (l1 ++ x :: l2) = last (x :: l2).
Proof. induction l1 as [|y [|z l1] IH]; try done. Qed.

Lemma VideoRun_sleeps t o :
  VideoRun' t o →
  sleepsOf t = replicate (length (refreshesOf t)) 10000%Z ∧ SleepsPaired t.
Proof.
  assert (∀ ret, SleepsPaired
            (submission (Reason:=Reason) prompt musicSuggestion ret)) as Hsub.
  { intros ret. apply SleepsPaired_none. by repeat constructor. }
  destruct 1 as [reason|op t Hp|op t e Hp|op t op' t' o Hp Hf].
  - split; [done|apply Hsub].
  - destruct (PollTrace_sleeps _ _ _ _ Hp) as (Hs & Hpair & _).
    split; [by rewrite sleepsOf_app, refreshesOf_app, Hs|].
    by apply SleepsPaired_app.
  - destruct (PollTrace_sleeps _ _ _ _ Hp) as (Hs & Hpair & _).
    split; [by rewrite sleepsOf_app, refreshesOf_app, Hs|].
    by apply SleepsPaired_app.
  - destruct (PollTrace_sleeps _ _ _ _ Hp) as (Hs & Hpair & _).
    pose proof (FetchTrace_quiet _ _ _ Hf) as Hq.
    pose proof (FetchTrace_no_handles _ _ _ _ _ _ Hf) as [_ Hr].
    split.
    + rewrite !sleepsOf_app, !refreshesOf_app, Hs, Hr, app_nil_r.
      assert (sleepsOf t' = []) as ->; [|by rewrite app_nil_r].
      clear -Hq. induction Hq as [|e t' [He _] _ IH]; [done|].
      by destruct e.
    + apply SleepsPaired_app; [done|]. apply SleepsPaired_app; [done|].
      by apply SleepsPaired_none.
Qed.

Lemma VideoRun_detached t o :
  VideoRun' t o →
  detachedCalls t =
    match o with
    | Resolved result =>
        if truthy_opt userId
        then [(default "" userId, videoHistoryItem result)] else []
    | _ => []
    end ∧
  (∀ u d, AddToHistory u d ∈ t → last t = Some (AddToHistory u d)).
Proof.
  destruct 1 as [reason|op t Hp|op t e Hp|op t op' t' o Hp Hf].
  - split; [done|]. intros u d Hin. elem_cases Hin.
  - destruct (lead_quiet _ _ _ Hp) as (Hc & _ & _ & Hno).
    split; [done|]. intros u d Hin. by apply Hno in Hin.
  - destruct (lead_quiet _ _ _ Hp) as (Hc & _ & _ & Hno).
    split; [done|]. intros u d Hin. by apply Hno in Hin.
  - destruct (lead_quiet _ _ _ Hp) as (Hc & _ & _ & Hno).
    destruct (FetchTrace_detached _ _ _ Hf) as [Hd Hlast].
    rewrite app_assoc. split.
    + by rewrite detachedCalls_app, Hc, Hd.
    + intros u d [Hin|Hin]%elem_of_app; [by apply Hno in Hin|].
      pose proof (Hlast u d Hin) as Hl.
      destruct t' as [|e t']; [done|]. by rewrite last_app_cons.
Qed.

Lemma VideoRun_rejections t o :
  VideoRun' t o →
  match o with
  | Rejected (Rejection reason) =>
      rejectionsOf t = [reason] ∧
      ∃ e, last t = Some e ∧ rejectionsOf [e] = [reason]
  | Rejected (JsError m) => m = noLinkMessage ∧ rejectionsOf t = []
  | _ => rejectionsOf t = []
  end ∧
  (Progress doneMessage ∈ t ↔ ∃ result, o = Resolved result).
Proof.
  destruct 1 as [reason|op t Hp|op t e Hp|op t op' t' o Hp Hf].
  - split; [split; [done|eauto]|].
    split; [intros Hin; elem_cases Hin|by intros [? ?]].
  - destruct (lead_quiet _ _ _ Hp) as (_ & Hdone & Hsub & _).
    pose proof (PollTrace_rejections _ _ _ _ Hp) as Hr. simpl in Hr.
    split; [by rewrite rejectionsOf_app, Hr|].
    split; [done|by intros [? ?]].
  - destruct (lead_quiet _ _ _ Hp) as (_ & Hdone & Hsub & _).
    destruct (PollTrace_rejections _ _ _ _ Hp)
      as (reason & held & -> & Hr & Hl).
    split; [|split; [done|by intros [? ?]]].
    split; [by rewrite rejectionsOf_app, Hr|].
    exists (GetVideosOperation held (inl reason)). split; [|done].
    destruct t as [|e t]; [done|]. by rewrite last_app_cons.
  - destruct (lead_quiet _ _ _ Hp) as (_ & Hdone & Hsub & _).
    pose proof (PollTrace_rejections _ _ _ _ Hp) as Hr. simpl in Hr.
    destruct (FetchTrace_rejections _ _ _ Hf) as [Hrej Hiff].
    pose proof (FetchTrace_head _ _ _ _ _ _ Hf) as [t'' ->].
    rewrite app_assoc. split.
    + rewrite !rejectionsOf_app, Hr, Hsub, last_app_cons.
      destruct o as [result|[m|reason]|]; done.
    + rewrite elem_of_app, <- Hiff. split; [|by right].
      intros [Hin|Hin]; [by apply Hdone in Hin|done].
Qed.

Lemma VideoRun_resolved t result :
  VideoRun' t (Resolved result) →
  ∃ op0 t0 op resp b c,
    PollTrace 0 op0 t0 (Resolved op) ∧
    truthy_opt (downloadLinkOf op) = true ∧
    result = {| url := url result; caption := text c |} ∧
    t = submission prompt musicSuggestion (inr op0) ++ t0 ++
        [Progress fetchingMessage;
         Fetch (fetchInput API_KEY op) (inr resp);
         ReadBlob resp (inr b); CreateObjectURL b (url result);
         Progress captioningMessage;
         GenerateContent (videoCaptionParams prompt) (inr c);
         Progress doneMessage] ++
        videoHistoryCall prompt userId result.
Proof.
  inversion 1 as [| | |op0 t0 op t' o Hp Hf]; subst.
  inversion Hf as [| | | |resp b videoUrl c Hl r]; subst.
  by exists op0, t0, op, resp, b, c.
Qed.

End MoreVideoRunFacts.

(** A provider whose video job never completes: every handle it returns
    has its flag unset. *)
Definition neverDone : Provider () string := {|
  generateImages := λ p w, (inl "no images", w);
  generateContent := λ p w, (inr {| text := "" |}, w);
  generateVideos := λ p w, (inr (Stub.handle false None), w);
  getVideosOperation := λ op w,
    (inr (Stub.handle false (op_response op)), w);
  fetch := λ input w, (inl "no file", w);
  blob := λ r w, (inl "no file", w);
  createObjectURL := λ b w, ("blob:0", w);
  setTimeout := λ ms w, w;
  settleOrder := λ n w, [];
  recorder := failingRecorder "history unavailable";
|}.

Section MoreVideoFacts.
Context {World Reason : Type}.
Context (ai : Provider World Reason) (API_KEY : string).
Context (prompt musicSuggestion : string).
Context (onProgress : string → World → World) (userId : option string).

Local Abbreviation videoOf fuel w :=
  (generateVideoAndCaption ai API_KEY fuel prompt musicSuggestion
     onProgress userId w).

Lemma video_run fuel w :
  VideoRun API_KEY prompt musicSuggestion userId
    (trace (videoOf fuel w)) (outcome (videoOf fuel w)) ∧
  late (videoOf fuel w) = [].
Proof. apply generateVideoAndCaption_shape. Qed.

(** X9. When the video workflow resolves, its result is made of what the
    collaborators returned: the loop ended on a complete handle with a
    download link, the file was fetched from that link with the API key
    appended, the response was read as a blob, the locator of the result is
    the object URL created for that blob, and the caption is the text of
    the one caption request, made for the caption prompt. Nothing but the
    history call follows the final progress message. *)
Theorem video_result_provenance (fuel : nat) (w : World)
    (result : MediaResult)
    (Hres : outcome (videoOf fuel w) = Resolved result) :
  ∃ lead op resp b c,
    trace (videoOf fuel w) =
      lead ++
      [Progress fetchingMessage;
       Fetch (default "undefined" (downloadLinkOf op) +:+ "&key=" +:+ API_KEY)
             (inr resp);
       ReadBlob resp (inr b); CreateObjectURL b (url result);
       Progress captioningMessage;
       GenerateContent {| gcp_model := "gemini-2.5-flash";
                          gcp_contents := videoCaptionPrompt prompt |}
                       (inr c);
       Progress doneMessage] ++
      videoHistoryCall prompt userId result ∧
    lastHandle lead = Some op ∧ op_done op = true ∧
    truthy_opt (downloadLinkOf op) = true ∧
    Forall (λ e, isFetch e = false) lead ∧
    caption result = text c.
Proof.
  destruct (video_run fuel w) as [Hrun _]. rewrite Hres in Hrun.
  apply VideoRun_resolved in Hrun
    as (op0 & t0 & op & resp & b & c & Hp & Hl & Hr & Ht).
  exists (submission prompt musicSuggestion (inr op0) ++ t0), op, resp, b, c.
  split; [by rewrite Ht, app_assoc|]. split.
  { pose proof (VideoRun_lastHandle prompt musicSuggestion op0 t0 _ []
                  Hp eq_refl) as Hlast.
    by rewrite app_nil_r in Hlast. }
  split; [by apply PollTrace_last in Hp as [_ ?]|].
  split; [done|]. split; [by eapply lead_no_fetch|].
  by rewrite Hr.
Qed.

(** X10. The video workflow asks for a history entry exactly when it
    resolves for a user id that is not empty: then it makes one call, the
    last thing it does, with the locator and caption of the result, the
    prompt as given and the type video. A run that rejects or is still
    pending, or a run without user id, asks for none. *)
Theorem video_history_call (fuel : nat) (w : World) :
  let r := videoOf fuel w in
  detachedCalls (trace r ++ late r) =
    match outcome r with
    | Resolved result =>
        if truthy_opt userId
        then [(default "" userId,
               {| item_url := url result; item_caption := caption result;
                  item_prompt := prompt; item_type := video |})]
        else []
    | _ => []
    end ∧
  (∀ u d, AddToHistory u d ∈ trace r ++ late r →
     last (trace r) = Some (AddToHistory u d)).
Proof.
  intros r. destruct (video_run fuel w) as [Hrun Hlate]. fold r in Hrun, Hlate.
  rewrite Hlate, app_nil_r.
  by apply (VideoRun_detached _ _ _ _ _ _ Hrun).
Qed.

(** X11. Between two looks at the job the video workflow waits ten
    seconds: every wait is of 10000 ms and is followed at once by a
    refresh, every refresh comes right after a wait, so a run with [n]
    refreshes has waited [n] times; a job complete at submission is
    fetched without any wait. *)
Theorem video_waits_before_each_refresh (fuel : nat) (w : World) :
  let t := trace (videoOf fuel w) in
  sleepsOf t = replicate (length (refreshesOf t)) 10000%Z ∧
  (∀ i ms, t !! i = Some (SetTimeout ms) →
     ms = 10000%Z ∧ ∃ op ret, t !! S i = Some (GetVideosOperation op ret)) ∧
  (∀ i op ret, t !! i = Some (GetVideosOperation op ret) →
     ∃ j, i = S j ∧ t !! j = Some (SetTimeout 10000)) ∧
  (∀ op, handlesOf t !! 0%nat = Some (inr op) → op_done op = true →
     sleepsOf t = []).
Proof.
  intros t. destruct (video_run fuel w) as [Hrun _]. fold t in Hrun.
  destruct (VideoRun_sleeps _ _ _ _ _ _ Hrun) as [Hs [Hp1 Hp2]].
  split; [done|]. split; [done|]. split; [done|].
  intros op H0 Hd.
  by rewrite Hs, (VideoRun_refresh_count _ _ _ _ _ _ _ _ Hrun H0 Hd).
Qed.

(** X12. The video workflow stops at the first call that is rejected and
    passes the reason on unchanged: a run that rejects with a reason has
    seen exactly one rejected call, its last, with that reason; the only
    error of its own is the missing-link one, raised when no call was
    rejected; a run that resolves or is pending has seen no rejected call.
    The final progress message is reported exactly on the runs that
    resolve. *)
Theorem video_stops_at_first_rejection (fuel : nat) (w : World) :
  let r := videoOf fuel w in
  match outcome r with
  | Rejected (Rejection reason) =>
      rejectionsOf (trace r) = [reason] ∧
      ∃ e, last (trace r) = Some e ∧ rejectionsOf [e] = [reason]
  | Rejected (JsError m) => m = noLinkMessage ∧ rejectionsOf (trace r) = []
  | _ => rejectionsOf (trace r) = []
  end ∧
  (Progress doneMessage ∈ trace r ↔ ∃ result, outcome r = Resolved result).
Proof.
  intros r. destruct (video_run fuel w) as [Hrun _]. fold r in Hrun.
  by apply (VideoRun_rejections _ _ _ _ _ _ Hrun).
Qed.

Lemma pollLoop_never_done
    (Hrefresh : ∀ op w, ∃ op' w',
       getVideosOperation ai op w = (inr op', w') ∧ op_done op' = false)
    fuel : ∀ k op w,
  op_done op = false →
  let r := pollLoop ai fuel onProgress k op w in
  outcome r = Pending ∧ length (refreshesOf (trace r)) = fuel.
Proof.
  induction fuel as [|fuel IH]; intros k op w Hd.
  { simpl. by rewrite Hd. }
  cbv zeta. rewrite pollLoop_step by done.
  destruct (Hrefresh op (setTimeout ai 10000 (onProgress (flavor k) w)))
    as (op' & w' & -> & Hd').
  destruct (IH (S k) op' w' Hd') as [Ho Hlen].
  destruct (pollLoop ai fuel onProgress (S k) op' w') as [o w'' t l].
  simpl in *. by rewrite Hlen.
Qed.

(** X13. The polling has no ceiling: against a provider whose job never
    completes (every handle it returns has its flag unset), the workflow
    is still pending after any number of turns of the loop, having made
    that many refreshes and waited ten seconds before each; it never
    fetches and never gives up. *)
Theorem video_polls_without_bound (fuel : nat) (w : World)
    (Hsubmit : ∀ p w, ∃ op w',
       generateVideos ai p w = (inr op, w') ∧ op_done op = false)
    (Hrefresh : ∀ op w, ∃ op' w',
       getVideosOperation ai op w = (inr op', w') ∧ op_done op' = false) :
  let r := videoOf fuel w in
  outcome r = Pending ∧
  length (refreshesOf (trace r)) = fuel ∧
  sleepsOf (trace r) = replicate fuel 10000%Z ∧
  (∀ input ret, Fetch input ret ∉ trace r).
Proof.
  intros r. destruct (video_run fuel w) as [Hrun _]. fold r in Hrun.
  assert (outcome r = Pending ∧ length (refreshesOf (trace r)) = fuel)
    as [Ho Hlen].
  { subst r. clear Hrun. unfold generateVideoAndCaption.
    unfold mbind, M_bind, mret, M_ret, throw, report, perform, await; simpl.
    destruct (generateVideos ai _ _) as [ret w1] eqn:Hg.
    match type of Hg with
    | generateVideos _ ?p ?w0 = _ =>
        destruct (Hsubmit p w0) as (op & w' & Heq & Hd)
    end.
    rewrite Heq in Hg. injection Hg as <- <-.
    destruct (pollLoop_never_done Hrefresh fuel 0 op w' Hd) as [Ho Hlen].
    destruct (pollLoop ai fuel onProgress 0 op w') as [o w'' t l].
    simpl in *. subst o. split; [done|]. exact Hlen. }
  split; [done|]. split; [done|].
  destruct (VideoRun_sleeps _ _ _ _ _ _ Hrun) as [Hs _].
  split; [by rewrite Hs, Hlen|].
  intros input ret Hin. rewrite Ho in Hrun.
  inversion Hrun as [|op t Hp Ht| |].
  - rewrite <- Ht in Hin.
    pose proof (lead_no_fetch prompt musicSuggestion _ _ _ Hp) as Hall.
    rewrite Forall_forall in Hall. by apply Hall in Hin.
  - match goal with H : FetchTrace _ _ _ _ _ Pending |- _ => inversion H end.
Qed.

(** The recorder's world after the writes [calls], one after the other. *)
Definition storeAfter {RWorld} (rec : Recorder RWorld Reason)
    (calls : list (string * MediaItemData)) (rw : RWorld) : RWorld :=
  foldl (λ rw call, (append rec call.1 call.2 rw).2) rw calls.

Section VideoStore.
Context {RWorld : Type} (rec : Recorder RWorld Reason).

(** [Recorded m]: code that runs in sequence in front of the recorder moves
    the recorder's world by the writes it asks for, and by nothing else. *)
Definition Recorded {A} (m : M (World * RWorld) Reason A) : Prop :=
  ∀ ww, late (m ww) = [] ∧
        (world (m ww)).2 = storeAfter rec (detachedCalls (trace (m ww))) ww.2.

Lemma Recorded_bind {A B} (m : M (World * RWorld) Reason A)
    (k : A → M (World * RWorld) Reason B) :
  Recorded m → (∀ a, Recorded (k a)) → Recorded (m ≫= k).
Proof.
  intros Hm Hk ww. rewrite bind_run.
  destruct (Hm ww) as [Hl Hw].
  destruct (m ww) as [o ww1 t l]. cbn [world trace late] in *. subst l.
  destruct o as [a|e|]; [|done..].
  destruct (Hk a ww1) as [Hl' Hw'].
  destruct (k a ww1) as [o' ww2 t' l']. cbn [world trace late] in *.
  subst l'. split; [done|].
  rewrite detachedCalls_app. unfold storeAfter in *.
  by rewrite foldl_app, <- Hw.
Qed.

Lemma Recorded_ret {A} (a : A) : Recorded (mret a).
Proof. by intros ww. Qed.

Lemma Recorded_throw {A} (e : Exn Reason) : Recorded (throw (A:=A) e).
Proof. by intros ww. Qed.

Lemma Recorded_suspended {A} : Recorded (suspended (A:=A)).
Proof. by intros ww. Qed.

Lemma Recorded_await {A} call (ev : Reason + A → Event Reason) :
  (∀ ww, (call ww).2.2 = ww.2) → (∀ r, detachedCalls [ev r] = []) →
  Recorded (await call ev).
Proof.
  intros Hcall Hev ww. unfold await. specialize (Hcall ww).
  destruct (call ww) as [[reason|a] ww1]; cbn [world trace late fst snd] in *;
    by rewrite Hev.
Qed.

Lemma Recorded_perform {A} call (ev : A → Event Reason) :
  (∀ ww, (call ww).2.2 = ww.2) → (∀ r, detachedCalls [ev r] = []) →
  Recorded (perform call ev).
Proof.
  intros Hcall Hev ww. unfold perform. specialize (Hcall ww).
  destruct (call ww) as [a ww1]; cbn [world trace late fst snd] in *;
    by rewrite Hev.
Qed.

Lemma Recorded_report message :
  Recorded (report (besideRecorder onProgress) message).
Proof. by apply Recorded_perform. Qed.

Lemma Recorded_addToHistoryDetached u itemData :
  Recorded (addToHistoryDetached (withRecorder rec ai) u itemData).
Proof.
  intros [w rw]. unfold addToHistoryDetached, perform, storeAfter. simpl.
  by destruct (append rec u itemData rw).
Qed.

Ltac lifted_call :=
  intros [w rw]; cbn [withRecorder generateVideos getVideosOperation fetch
                      blob createObjectURL generateContent setTimeout
                      fst snd];
  by case_match.

Lemma Recorded_pollLoop fuel : ∀ k op,
  Recorded (pollLoop (withRecorder rec ai) fuel (besideRecorder onProgress)
              k op).
Proof.
  induction fuel as [|fuel IH]; intros k op; simpl;
    destruct (op_done op); try apply Recorded_ret;
    try apply Recorded_suspended.
  apply Recorded_bind; [apply Recorded_report|intros _].
  apply Recorded_bind; [by apply Recorded_perform|intros _].
  apply Recorded_bind; [|intros op'; apply IH].
  apply Recorded_await; [lifted_call|done].
Qed.

Lemma Recorded_video fuel :
  Recorded (generateVideoAndCaption (withRecorder rec ai) API_KEY fuel prompt
              musicSuggestion (besideRecorder onProgress) userId).
Proof.
  unfold generateVideoAndCaption.
  apply Recorded_bind; [apply Recorded_report|intros _].
  apply Recorded_bind; [apply Recorded_report|intros _].
  apply Recorded_bind; [apply Recorded_await; [lifted_call|done]|intros op].
  apply Recorded_bind; [apply Recorded_pollLoop|intros op'].
  apply Recorded_bind; [apply Recorded_report|intros _].
  destruct (negb (truthy_opt (downloadLinkOf op'))); [apply Recorded_throw|].
  apply Recorded_bind; [apply Recorded_await; [lifted_call|done]|intros resp].
  apply Recorded_bind; [apply Recorded_await; [lifted_call|done]|intros b].
  apply Recorded_bind;
    [apply Recorded_perform; [lifted_call|done]|intros videoUrl].
  apply Recorded_bind; [apply Recorded_report|intros _].
  apply Recorded_bind;
    [apply Recorded_await; [lifted_call|done]|intros captionResponse].
  apply Recorded_bind; [apply Recorded_report|intros _].
  apply Recorded_bind; [|intros _; apply Recorded_ret].
  destruct (truthy_opt userId); [|apply Recorded_ret].
  apply Recorded_addToHistoryDetached.
Qed.

End VideoStore.

(** X14. Behind the workflow stands the in-memory store of
    [firestoreService], for a user id that names no member of
    [Object.prototype]: when a video run resolves for a user id that is
    not empty, the detached write, once it has run, has appended one entry
    to that user's log, with the locator and caption of the result, the
    prompt and the type video, and [getHistory] returns it from then on.
    In every other case
    (the run rejected or pending, or no user id) the store is left as it
    was. *)
Theorem video_result_reaches_history (fuel : nat) (w : World)
    (rw : MemWorld) :
  default "" userId ∉ objectPrototypeNames →
  let r := generateVideoAndCaption (withRecorder memoryRecorder ai) API_KEY
             fuel prompt musicSuggestion (besideRecorder onProgress) userId
             (w, rw) in
  let history' := mem_history (world r).2 in
  match outcome r with
  | Resolved result =>
      if truthy_opt userId then
        ∃ item,
          historyOf history' (default "" userId) =
            historyOf (mem_history rw) (default "" userId) ++ [item] ∧
          item ∈ (getHistory (default "" userId) history').1 ∧
          media_url item = url result ∧
          media_caption item = caption result ∧
          media_prompt item = prompt ∧
          media_type item = video
      else (world r).2 = rw
  | _ => (world r).2 = rw
  end.
Proof.
  intros _ r history'. subst history' r.
  destruct (Recorded_video memoryRecorder fuel (w, rw)) as [_ Hstore].
  destruct (generateVideoAndCaption_shape API_KEY prompt musicSuggestion
              userId (withRecorder memoryRecorder ai) fuel
              (besideRecorder onProgress) (w, rw)) as [Hrun _].
  cbv zeta in Hrun.
  destruct (VideoRun_detached _ _ _ _ _ _ Hrun) as [Hcalls _].
  rewrite Hstore, Hcalls. clear Hstore Hcalls Hrun.
  destruct (outcome _) as [result|e|]; [|done..].
  destruct (truthy_opt userId); [|done].
  unfold storeAfter. cbn [foldl fst snd]. unfold memoryRecorder, append.
  destruct (default (0, "0", 0) (head (mem_readings rw)))
    as [[idNow random] stamp].
  destruct (addToHistory idNow random stamp (default "" userId)
              (videoHistoryItem prompt result) (mem_history rw))
    as [item history'] eqn:Hadd.
  cbn [fst snd mem_history].
  assert (item = (addToHistory idNow random stamp (default "" userId)
              (videoHistoryItem prompt result) (mem_history rw)).1) as Hitem
    by (by rewrite Hadd).
  assert (history' = (addToHistory idNow random stamp (default "" userId)
              (videoHistoryItem prompt result) (mem_history rw)).2) as Hhist
    by (by rewrite Hadd).
  exists item.
  assert (historyOf history' (default "" userId) =
          historyOf (mem_history rw) (default "" userId) ++ [item]) as Hlog.
  { rewrite Hhist, Hitem. apply addToHistory_log. }
  split; [done|]. split.
  { rewrite getHistory_result, sort_Permutation, Hlog.
    apply elem_of_app. right. apply list_elem_of_here. }
  by rewrite Hitem.
Qed.

End MoreVideoFacts.

(** ** More properties of the image workflow *)

Section MorePromiseAllFacts.
Context {World Reason : Type}.
Context (ai : Provider World Reason).

Lemma eventsOf_app {A} (s1 s2 : list (nat * Run World Reason A)) :
  eventsOf (s1 ++ s2) = eventsOf s1 ++ eventsOf s2.
Proof. unfold eventsOf. by rewrite fmap_app, concat_app. Qed.

(** The split loses nothing, and nothing is left behind unless a branch
    rejected. *)
Lemma splitAtRejection_app {A} (settled : list (nat * Run World Reason A)) :
  settled = (splitAtRejection settled).1 ++ (splitAtRejection settled).2 ∧
  ((∀ e, last (outcome ∘ snd <$> (splitAtRejection settled).1)
           ≠ Some (Rejected e)) →
   (splitAtRejection settled).2 = []).
Proof.
  induction settled as [|[i r] settled [IH1 IH2]]; [done|].
  cbn [splitAtRejection].
  destruct (isRejected (outcome r)) eqn:Hr.
  - cbn [fst snd]. split; [done|]. intros Hlast.
    destruct (outcome r) as [|e|] eqn:Ho; try done.
    destruct (Hlast e). simpl. by rewrite Ho.
  - destruct (splitAtRejection settled) as [upTo later].
    cbn [fst snd] in *. split; [by rewrite IH1 at 1|].
    intros Hlast. apply IH2. intros e He. apply (Hlast e).
    destruct upTo as [|ir upTo]; [done|]. exact He.
Qed.

(** Whatever the order of settlement and the outcome, everything the
    branches do is done, before or after the join settles. *)
Lemma promiseAll_events {A} (order : list nat)
    (conts : list (M World Reason A)) w :
  let r := promiseAll order conts w in
  trace r ++ late r =
  eventsOf (runSettled (settleSequence (length conts) order) conts w).
Proof.
  unfold promiseAll.
  set (settled := runSettled _ conts w).
  destruct (splitAtRejection_app settled) as [Happ Hnone].
  assert (eventsOf settled =
          eventsOf (splitAtRejection settled).1 ++
          eventsOf (splitAtRejection settled).2) as ->.
  { by rewrite <- eventsOf_app, <- Happ. }
  destruct (splitAtRejection settled) as [upTo later]. cbn [fst snd] in *.
  destruct (last (outcome ∘ snd <$> upTo)) as [[a|e|]|] eqn:Hlast;
    try done;
    (rewrite Hnone by done);
    by destruct (mapM _ _).
Qed.

Lemma detachedCalls_eventsOf {A}
    (settled : list (nat * Run World Reason A)) :
  detachedCalls (eventsOf settled) =
  mjoin ((λ ir, detachedCalls (trace ir.2 ++ late ir.2)) <$> settled).
Proof.
  induction settled as [|ir settled IH]; [done|].
  change (eventsOf (ir :: settled))
    with ((trace ir.2 ++ late ir.2) ++ eventsOf settled).
  by rewrite detachedCalls_app, IH.
Qed.

Lemma settleSequence_Permutation n order :
  settleSequence n order ≡ₚ seq 0 n.
Proof.
  apply NoDup_Permutation.
  - apply settleSequence_NoDup.
  - apply NoDup_seq.
  - intros i. rewrite settleSequence_elem, elem_of_seq. lia.
Qed.

Context (prompt : string) (userId : option string).

(** The history entry the workflow asks for. *)
Definition imageHistoryItem (result : MediaResult) : MediaItemData :=
  {| item_url := url result; item_caption := caption result;
     item_prompt := prompt; item_type := image |}.

(** The history call of a branch, if it makes one. *)
Definition branchHistoryCall (b : Branch (Reason:=Reason))
    : list (string * MediaItemData) :=
  match branchResult b with
  | Some result =>
      if truthy_opt userId
      then [(default "" userId, imageHistoryItem result)] else []
  | None => []
  end.

Lemma finish_detached b (w : World) :
  detachedCalls (trace (finishBranch ai prompt userId b w) ++
                 late (finishBranch ai prompt userId b w)) =
  branchHistoryCall b.
Proof.
  unfold branchHistoryCall, branchResult.
  destruct (br_caption b) as [reason|c] eqn:Hc.
  - unfold finishBranch. by rewrite Hc.
  - rewrite (finish_run ai prompt userId b w c Hc).
    by destruct (truthy_opt userId).
Qed.

Lemma settled_detached (branches : list (Branch (Reason:=Reason))) sq :
  ∀ w : World,
  detachedCalls
    (eventsOf (runSettled sq (finishBranch ai prompt userId <$> branches) w)) =
  mjoin ((λ i, from_option branchHistoryCall [] (branches !! i)) <$> sq).
Proof.
  induction sq as [|i sq IH]; intros w; [done|].
  simpl. rewrite list_lookup_fmap.
  destruct (branches !! i) as [b|]; simpl; [|apply IH].
  change (eventsOf ((i, finishBranch ai prompt userId b w) :: ?s))
    with ((trace (finishBranch ai prompt userId b w) ++
           late (finishBranch ai prompt userId b w)) ++ eventsOf s).
  by rewrite detachedCalls_app, finish_detached, IH.
Qed.

Lemma join_lookup_seq {X Y} (h : X → list Y) (l : list X) : ∀ pre,
  mjoin ((λ i, from_option h [] ((pre ++ l) !! i))
           <$> seq (length pre) (length l)) =
  mjoin (h <$> l).
Proof.
  induction l as [|x l IH]; intros pre; [done|]. simpl.
  rewrite list_lookup_middle by done. simpl. f_equal.
  specialize (IH (pre ++ [x])).
  rewrite length_app, Nat.add_comm, <- app_assoc in IH. exact IH.
Qed.

(** The history calls of the join, before or after it settles: those of
    every branch whose caption arrived, in the order of settlement. *)
Lemma promiseAll_detached (branches : list (Branch (Reason:=Reason)))
    order (w : World) :
  let r := promiseAll order (finishBranch ai prompt userId <$> branches) w in
  detachedCalls (trace r ++ late r) ≡ₚ mjoin (branchHistoryCall <$> branches).
Proof.
  intros r. subst r.
  rewrite promiseAll_events, length_fmap, settled_detached.
  rewrite settleSequence_Permutation.
  pose proof (join_lookup_seq branchHistoryCall branches []) as Hjoin.
  cbn [app length] in Hjoin. by rewrite Hjoin.
Qed.

End MorePromiseAllFacts.

Section MoreImageFacts.
Context {World Reason : Type}.
Context (ai : Provider World Reason).
Context (prompt : string) (variations : Z) (userId : option string).

Local Abbreviation imagesOf textOverlay w :=
  (generateImagesAndCaptions ai prompt textOverlay variations userId w).

Lemma join_branchHistoryCall (branches : list (Branch (Reason:=Reason))) :
  mjoin (branchHistoryCall prompt userId <$> branches) =
  if truthy_opt userId
  then (λ result, (default "" userId, imageHistoryItem prompt result))
         <$> omap branchResult branches
  else [].
Proof.
  induction branches as [|b branches IH].
  { by destruct (truthy_opt userId). }
  change (mjoin (branchHistoryCall prompt userId <$> b :: branches))
    with (branchHistoryCall prompt userId b ++
          mjoin (branchHistoryCall prompt userId <$> branches)).
  rewrite IH. unfold branchHistoryCall. cbn [omap list_omap].
  destruct (branchResult b); [|done].
  by destruct (truthy_opt userId).
Qed.

Lemma branchesOf_arrived (imgs : list GeneratedImage)
    (caps : list GenerateContentResponse) :
  omap branchResult (branchesOf (Reason:=Reason) imgs (inr <$> caps)) =
  zip_with imageResult imgs caps.
Proof.
  revert caps. induction imgs as [|img imgs IH]; intros [|c caps];
    simpl; try done.
  by rewrite <- IH.
Qed.

Lemma images_detached textOverlay w :
  let r := imagesOf textOverlay w in
  ∃ rets,
    captionRequests (trace r) = (imageCaptionParams prompt,.) <$> rets ∧
    detachedCalls (trace r ++ late r) ≡ₚ
      mjoin (branchHistoryCall prompt userId
               <$> branchesOf (imagesReturned (trace r)) rets).
Proof.
  destruct (imagesOf textOverlay w) as [o w' t l] eqn:Hrun. simpl.
  unfold generateImagesAndCaptions in Hrun.
  rewrite bind_run in Hrun. unfold await in Hrun.
  destruct (generateImages ai _ w) as [[reason|resp] w1].
  { injection Hrun as <- <- <- <-. by exists []. }
  rewrite bind_run in Hrun.
  destruct (mapM_startBranch ai prompt (generatedImages resp) w1)
    as (rets & w2 & Hlen & Heq).
  rewrite Heq, bind_run in Hrun. cbv beta iota in Hrun.
  rewrite bind_run in Hrun.
  pose proof (promiseAll_finish ai prompt userId
                (branchesOf (generatedImages resp) rets)
                (settleOrder ai (length (branchesOf (generatedImages resp) rets)) w2)
                w2) as (Ht & Hl & _).
  pose proof (promiseAll_detached ai prompt userId
                (branchesOf (generatedImages resp) rets)
                (settleOrder ai (length (branchesOf (generatedImages resp) rets)) w2)
                w2) as Hcalls.
  cbv zeta in Hcalls.
  destruct (promiseAll _ _ w2) as [o3 w3 t3 l3]. simpl in Ht, Hl, Hcalls.
  assert (t = GenerateImages (imageParams prompt textOverlay variations)
                (inr resp)
              :: (GenerateContent (imageCaptionParams prompt) <$> rets) ++ t3
          ∧ l = l3) as [-> ->].
  { destruct o3; unfold mret, M_ret in Hrun; injection Hrun as <- <- <- <-;
      by rewrite ?app_nil_r. }
  exists rets.
  destruct (image_trace_requests
              (imageParams prompt textOverlay variations)
              (imageCaptionParams prompt) (inr resp) rets t3 l3 Ht Hl)
    as (_ & _ & _ & Hc & Hi).
  rewrite Hc, Hi. split; [done|].
  rewrite <- Hcalls.
  change (GenerateImages ?p ?r :: ?x) with ([GenerateImages p r] ++ x).
  rewrite <- !app_assoc, !detachedCalls_app.
  assert (detachedCalls
            (GenerateContent (Reason:=Reason) (imageCaptionParams prompt)
               <$> rets) = []) as ->.
  { clear. by induction rets. }
  done.
Qed.

(** X15. The image workflow asks for a history entry for every variation
    whose caption arrived, and for no other: when the user id is not
    empty, the history calls made on behalf of a call (before or after its
    promise settled) are, up to the order in which the captions arrived,
    one per arrived caption, with that image's data URL, that caption, the
    prompt as given and the type image. So a call that resolves asks for
    one entry per result, all before it resolves; a call that rejects
    because one caption failed has still asked for the entries of the
    others; without user id nothing is asked for. *)
Theorem images_history_calls (textOverlay : string) (w : World) :
  let r := imagesOf textOverlay w in
  let arrived :=
    omap branchResult
      (branchesOf (imagesReturned (trace r)) (captionRequests (trace r)).*2) in
  detachedCalls (trace r ++ late r) ≡ₚ
    (if truthy_opt userId
     then (λ result,
             (default "" userId,
              {| item_url := url result; item_caption := caption result;
                 item_prompt := prompt; item_type := image |})) <$> arrived
     else []) ∧
  (∀ results, outcome r = Resolved results →
     arrived = results ∧ late r = []).
Proof.
  intros r arrived. subst arrived.
  destruct (images_detached textOverlay w) as (rets & Hc & Hcalls).
  fold r in Hc, Hcalls.
  assert (((imageCaptionParams prompt,.) <$> rets).*2 = rets) as Hrets.
  { rewrite <-list_fmap_compose. apply list_fmap_id. }
  rewrite Hc, Hrets. split.
  { by rewrite Hcalls, join_branchHistoryCall. }
  intros results Hres.
  destruct (images_inv ai prompt variations userId textOverlay w)
    as (ret & rets' & _ & _ & _ & Hc' & Hi & _ & _ & Ho).
  fold r in Hc', Hi, Ho. rewrite Hres in Ho.
  destruct Ho as (Hl & resp & caps & -> & -> & ->).
  split; [|done].
  assert (rets = inr <$> caps) as ->.
  { rewrite <- Hrets, <- Hc, Hc'. rewrite <-list_fmap_compose.
    apply list_fmap_id. }
  by rewrite Hi, branchesOf_arrived.
Qed.

End MoreImageFacts.

(** ** SheetsView: the sheet on screen and the batch run

    The component keeps its state in React state variables; a handler sees
    the values of the render it was created in, and an updater function
    passed to a setter is applied to the value current at that moment.
    [trim] is [String.prototype.trim]. A run is followed with no other
    handler run in between. *)

Record User := mkUser {
  uid : string;
  displayName : string;
  photoURL : string;
}.

Record SheetsViewState := mkSheetsView {
  sv_sheets : list Sheet;
  sv_activeSheet : option Sheet;
  sv_isLoading : bool;
  sv_isProcessing : bool;
  sv_error : option string;
}.

(** [{ ...sheet, prompts }] *)
Definition withPrompts (sheet : Sheet) (prompts : list SheetPrompt) : Sheet :=
  mkSheet (sheet_id sheet) (sheet_name sheet) (sheet_type sheet) prompts.

Definition setActiveSheet (f : option Sheet → option Sheet)
    (ui : SheetsViewState) : SheetsViewState :=
  mkSheetsView (sv_sheets ui) (f (sv_activeSheet ui)) (sv_isLoading ui)
               (sv_isProcessing ui) (sv_error ui).

Definition setIsProcessing (b : bool) (ui : SheetsViewState)
    : SheetsViewState :=
  mkSheetsView (sv_sheets ui) (sv_activeSheet ui) (sv_isLoading ui) b
               (sv_error ui).

Definition setError (e : option string) (ui : SheetsViewState)
    : SheetsViewState :=
  mkSheetsView (sv_sheets ui) (sv_activeSheet ui) (sv_isLoading ui)
               (sv_isProcessing ui) e.

(** [prompts.map(p => p.id === promptId ? f(p) : p)] *)
Definition mapPrompt (f : SheetPrompt → SheetPrompt) (promptId : string)
    (prompts : list SheetPrompt) : list SheetPrompt :=
  (λ p, if decide (sp_id p = promptId) then f p else p) <$> prompts.

Definition withStatus (status : PromptStatus) (p : SheetPrompt)
    : SheetPrompt :=
  mkPrompt (sp_id p) (sp_prompt p) status (sp_resultUrl p) (sp_caption p).

Definition withResult (result : MediaResult) (p : SheetPrompt)
    : SheetPrompt :=
  mkPrompt (sp_id p) (sp_prompt p) completed
           (Some (url result)) (Some (caption result)).

(** [handleAddPrompt]; [now] is the reading of [Date.now()]. *)
Definition handleAddPrompt (now : Z) (ui : SheetsViewState)
    : SheetsViewState :=
  match sv_activeSheet ui with
  | None => ui
  | Some activeSheet =>
      let newPrompt :=
        mkPrompt ("prompt-" +:+ pretty now) "" pending None None in
      let updatedSheet :=
        withPrompts activeSheet (sheet_prompts activeSheet ++ [newPrompt]) in
      setActiveSheet (λ _, Some updatedSheet) ui
  end.

(** [handleRemovePrompt] *)
Definition handleRemovePrompt (promptId : string) (ui : SheetsViewState)
    : SheetsViewState :=
  match sv_activeSheet ui with
  | None => ui
  | Some activeSheet =>
      if bool_decide (length (sheet_prompts activeSheet) ≤ 1)%nat then ui
      else
        let updatedPrompts :=
          filter (λ p, sp_id p ≠ promptId) (sheet_prompts activeSheet) in
        setActiveSheet (λ _, Some (withPrompts activeSheet updatedPrompts)) ui
  end.

(** [loadSheets], the effect run when the view is shown; [idNow] and
    [promptNow] are the two readings of [Date.now()]. *)
Definition loadSheets (idNow promptNow : Z) (user : User)
    (ui : SheetsViewState) (sheets : gmap string (list Sheet))
    : SheetsViewState * gmap string (list Sheet) :=
  let '(userSheets, sheets) := getSheets (uid user) sheets in
  match userSheets with
  | first :: _ =>
      (mkSheetsView userSheets (Some first) false
                    (sv_isProcessing ui) (sv_error ui),
       sheets)
  | [] =>
      let defaultSheet := {|
        sheet_id := "sheet-" +:+ pretty idNow;
        sheet_name := "My First Image Sheet";
        sheet_type := image;
        sheet_prompts :=
          [mkPrompt ("prompt-" +:+ pretty promptNow) "" pending None None];
      |} in
      (mkSheetsView [defaultSheet] (Some defaultSheet) false
                    (sv_isProcessing ui) (sv_error ui),
       (saveSheet (uid user) defaultSheet sheets).2)
  end.

(** What became of a handler that awaits: the state on screen, the world,
    the calls made, and whether the handler ran to its end. *)
Record ViewRun (UI World Reason : Type) := mkViewRun {
  vr_ui : UI;
  vr_world : World;
  vr_trace : list (Event Reason);
  vr_returned : bool;
}.
Arguments mkViewRun {UI World Reason} vr_ui vr_world vr_trace vr_returned.
Arguments vr_ui {UI World Reason} _.
Arguments vr_world {UI World Reason} _.
Arguments vr_trace {UI World Reason} _.
Arguments vr_returned {UI World Reason} _.

Definition failedToProcess (text : string) : string :=
  "Failed to process prompt: " +:+ dq +:+ text +:+ dq.

Section SheetsView.
Context {World Reason : Type}.
Context (ai : Provider World Reason) (API_KEY : string).
Context (trim : string → string).

(** The body of the [try] in [runSheet]: one generation, of the sheet's
    type. [imageResult[0].url] throws a [TypeError] when the workflow
    resolved with no image; the text of the message is the engine's. *)
Definition generateForSheet (fuel : nat) (type : MediaType) (text : string)
    (user : User) : M World Reason MediaResult :=
  match type with
  | image =>
      imageResult ← generateImagesAndCaptions ai text "" 1 (Some (uid user));
      match imageResult with
      | first :: _ => mret {| url := url first; caption := caption first |}
      | [] =>
          throw (JsError "Cannot read properties of undefined (reading 'url')")
      end
  | video =>
      videoResult ← generateVideoAndCaption ai API_KEY fuel text ""
                      (λ _ w, w) (Some (uid user));
      mret {| url := url videoResult; caption := caption videoResult |}
  end.

(** The [for ... of] loop of [runSheet] over the prompts of the sheet the
    handler was created with. *)
Fixpoint runPrompts (fuel : nat) (type : MediaType) (user : User)
    (prompts : list SheetPrompt) (ui : SheetsViewState) (w : World)
    : ViewRun SheetsViewState World Reason :=
  match prompts with
  | [] => mkViewRun ui w [] true
  | prompt :: rest =>
      if negb (truthy (trim (sp_prompt prompt))) then
        runPrompts fuel type user rest ui w
      else
        let ui :=
          setActiveSheet
            (fmap (λ prev, withPrompts prev
                     (mapPrompt (withStatus processing) (sp_id prompt)
                                (sheet_prompts prev)))) ui in
        let r := generateForSheet fuel type (sp_prompt prompt) user w in
        match outcome r with
        | Resolved result =>
            let ui :=
              setActiveSheet
                (fmap (λ prev, withPrompts prev
                         (mapPrompt (withResult result) (sp_id prompt)
                                    (sheet_prompts prev)))) ui in
            let rest := runPrompts fuel type user rest ui (world r) in
            mkViewRun (vr_ui rest) (vr_world rest)
                      (trace r ++ late r ++ vr_trace rest) (vr_returned rest)
        | Rejected e =>
            let ui := setError (Some (failedToProcess (sp_prompt prompt))) ui in
            let ui :=
              setActiveSheet
                (fmap (λ prev, withPrompts prev
                         (mapPrompt (withStatus error) (sp_id prompt)
                                    (sheet_prompts prev)))) ui in
            mkViewRun ui (world r) (trace r ++ late r) true
        | Pending => mkViewRun ui (world r) (trace r) false
        end
  end.

(** [runSheet] *)
Definition runSheet (fuel : nat) (user : User) (ui : SheetsViewState)
    (w : World) : ViewRun SheetsViewState World Reason :=
  match sv_activeSheet ui with
  | None => mkViewRun ui w [] true
  | Some activeSheet =>
      let ui := setError None (setIsProcessing true ui) in
      let r := runPrompts fuel (sheet_type activeSheet) user
                 (sheet_prompts activeSheet) ui w in
      if vr_returned r then
        mkViewRun (setIsProcessing false (vr_ui r)) (vr_world r)
                  (vr_trace r) true
      else r
  end.

End SheetsView.

(** The prompts submitted to the image and video models. *)
Definition submittedPrompts {Reason} (t : list (Event Reason))
    : list string :=
  omap (λ e, match e with
             | GenerateImages params _ => Some (gip_prompt params)
             | GenerateVideos params _ => Some (gvp_prompt params)
             | _ => None
             end) t.

(** The numbers of images asked for. *)
Definition imagesAskedFor {Reason} (t : list (Event Reason)) : list Z :=
  omap (λ e, match e with
             | GenerateImages params _ => Some (gip_numberOfImages params)
             | _ => None
             end) t.

(** What [runSheet] submits for a prompt of a sheet. *)
Definition sheetRequest (type : MediaType) (text : string) : string :=
  match type with
  | image => imagePrompt text ""
  | video => videoPrompt text ""
  end.

(** ** Properties of the sheet handlers *)

Section SheetRequestFacts.
Context {Reason : Type}.
Implicit Types (t : list (Event Reason)).

Lemma submittedPrompts_app t1 t2 :
  submittedPrompts (t1 ++ t2) = submittedPrompts t1 ++ submittedPrompts t2.
Proof. apply omap_app. Qed.

Lemma imagesAskedFor_app t1 t2 :
  imagesAskedFor (t1 ++ t2) = imagesAskedFor t1 ++ imagesAskedFor t2.
Proof. apply omap_app. Qed.

Lemma history_not_submitted t :
  Forall (λ e, isHistoryCall e = true) t →
  submittedPrompts t = [] ∧ imagesAskedFor t = [].
Proof. induction 1 as [|[] t]; simpl in *; done. Qed.

Lemma caption_not_submitted params
    (rets : list (Reason + GenerateContentResponse)) :
  submittedPrompts (GenerateContent params <$> rets) = [] ∧
  imagesAskedFor (GenerateContent params <$> rets) = [].
Proof. induction rets; simpl; done. Qed.

Lemma ImageRun_submitted prompt textOverlay variations t l o :
  ImageRun (Reason:=Reason) prompt textOverlay variations t l o →
  submittedPrompts (t ++ l) = [imagePrompt prompt textOverlay] ∧
  imagesAskedFor (t ++ l) = [variations].
Proof.
  destruct 1 as [reason|resp caps hist Hlen Hh
                |resp rets reason hist after Hlen Hin Hh Hl]; [done|..].
  - rewrite app_nil_r.
    change (GenerateImages ?p ?r :: ?x) with ([GenerateImages p r] ++ x).
    rewrite !submittedPrompts_app, !imagesAskedFor_app, list_fmap_compose.
    destruct (caption_not_submitted (imageCaptionParams prompt)
                (inr <$> caps)) as [-> ->].
    by destruct (history_not_submitted _ Hh) as [-> ->].
  - change (GenerateImages ?p ?r :: ?x) with ([GenerateImages p r] ++ x).
    rewrite !submittedPrompts_app, !imagesAskedFor_app.
    destruct (caption_not_submitted (imageCaptionParams prompt) rets)
      as [-> ->].
    destruct (history_not_submitted _ Hh) as [-> ->].
    by destruct (history_not_submitted _ Hl) as [-> ->].
Qed.

Lemma poll_not_submitted t :
  Forall (λ e, isPollEvent e = true) t →
  submittedPrompts t = [] ∧ imagesAskedFor t = [].
Proof. induction 1 as [|[] t]; simpl in *; done. Qed.

Lemma VideoRun_submitted API_KEY prompt musicSuggestion userId t o :
  VideoRun (Reason:=Reason) API_KEY prompt musicSuggestion userId t o →
  submittedPrompts t = [videoPrompt prompt musicSuggestion] ∧
  imagesAskedFor t = [].
Proof.
  assert (∀ op t0 po, PollTrace (Reason:=Reason) 0 op t0 po →
            submittedPrompts t0 = [] ∧ imagesAskedFor t0 = []) as Hpoll.
  { intros op t0 po Hp. by eapply poll_not_submitted, PollTrace_events. }
  destruct 1 as [reason|op t Hp|op t e Hp|op t op' t' o Hp Hf]; [done|..].
  - rewrite submittedPrompts_app, imagesAskedFor_app.
    by destruct (Hpoll _ _ _ Hp) as [-> ->].
  - rewrite submittedPrompts_app, imagesAskedFor_app.
    by destruct (Hpoll _ _ _ Hp) as [-> ->].
  - rewrite !submittedPrompts_app, !imagesAskedFor_app.
    destruct (Hpoll _ _ _ Hp) as [-> ->].
    destruct Hf; try done. unfold videoHistoryCall.
    by destruct (truthy_opt userId).
Qed.

End SheetRequestFacts.

Section SheetsViewFacts.
Context {World Reason : Type}.
Context (ai : Provider World Reason) (API_KEY : string).
Context (trim : string → string).

Local Abbreviation generation fuel type text user w :=
  (generateForSheet ai API_KEY fuel type text user w).
Local Abbreviation promptsRun fuel type user prompts ui w :=
  (runPrompts ai API_KEY trim fuel type user prompts ui w).
Local Abbreviation sheetRun fuel user ui w :=
  (runSheet ai API_KEY trim fuel user ui w).

(** One generation of a sheet: one submission, with the text of the
    prompt; an image sheet asks for one image, without overlay, and its
    generation always settles; nothing is left to do once it resolved. *)
Lemma generateForSheet_submitted fuel type text user w :
  let r := generation fuel type text user w in
  submittedPrompts (trace r ++ late r) = [sheetRequest type text] ∧
  imagesAskedFor (trace r ++ late r) =
    match type with image => [1%Z] | video => [] end ∧
  (type = image → outcome r ≠ Pending) ∧
  (∀ result, outcome r = Resolved result → late r = []) ∧
  (outcome r = Pending → late r = []).
Proof.
  destruct type; unfold generateForSheet; rewrite bind_run.
  - pose proof (generateImagesAndCaptions_shape ai text "" 1
                  (Some (uid user)) w) as Hrun.
    pose proof (ImageRun_submitted _ _ _ _ _ _ Hrun) as [Hs Hn].
    pose proof (images_inv ai text 1 (Some (uid user)) "" w)
      as (ret & rets & _ & _ & _ & _ & _ & _ & _ & Ho).
    destruct (generateImagesAndCaptions ai text "" 1 (Some (uid user)) w)
      as [[results|e|] w1 t1 l1]; simpl in *; [|done..].
    destruct Ho as [Hl1 _]. subst l1.
    destruct results as [|first results]; simpl; rewrite ?app_nil_r in *;
      repeat split; try done.
  - destruct (generateVideoAndCaption_shape API_KEY text ""
                (Some (uid user)) ai fuel (λ _ w, w) w) as [Hrun Hlate].
    pose proof (VideoRun_submitted _ _ _ _ _ _ Hrun) as [Hs Hn].
    destruct (generateVideoAndCaption ai API_KEY fuel text "" _ _ w)
      as [[result|e|] w1 t1 l1]; simpl in *; subst l1;
      rewrite ?app_nil_r in *; repeat split; done.
Qed.

(** The prompts of the sheet on screen. *)
Definition activePrompts (ui : SheetsViewState) : list SheetPrompt :=
  from_option sheet_prompts [] (sv_activeSheet ui).


Definition nonblank (p : SheetPrompt) : bool := truthy (trim (sp_prompt p)).

(** The three updates of the loop. *)
Definition markPrompt (f : SheetPrompt → SheetPrompt) (promptId : string)
    (ui : SheetsViewState) : SheetsViewState :=
  setActiveSheet
    (fmap (λ prev, withPrompts prev
             (mapPrompt f promptId (sheet_prompts prev)))) ui.

Lemma runPrompts_cons fuel type user prompt rest ui w :
  promptsRun fuel type user (prompt :: rest) ui w =
  if negb (nonblank prompt) then promptsRun fuel type user rest ui w
  else
    let r := generation fuel type (sp_prompt prompt) user w in
    match outcome r with
    | Resolved result =>
        let rest :=
          promptsRun fuel type user rest
            (markPrompt (withResult result) (sp_id prompt)
               (markPrompt (withStatus processing) (sp_id prompt) ui))
            (world r) in
        mkViewRun (vr_ui rest) (vr_world rest)
                  (trace r ++ late r ++ vr_trace rest) (vr_returned rest)
    | Rejected e =>
        mkViewRun
          (markPrompt (withStatus error) (sp_id prompt)
             (setError (Some (failedToProcess (sp_prompt prompt)))
                (markPrompt (withStatus processing) (sp_id prompt) ui)))
          (world r) (trace r ++ late r) true
    | Pending =>
        mkViewRun (markPrompt (withStatus processing) (sp_id prompt) ui)
                  (world r) (trace r) false
    end.
Proof. reflexivity. Qed.


Lemma markPrompt_lookup f promptId ui i :
  activePrompts (markPrompt f promptId ui) !! i =
  (λ p, if decide (sp_id p = promptId) then f p else p)
    <$> activePrompts ui !! i.
Proof.
  unfold activePrompts, markPrompt, setActiveSheet. simpl.
  destruct (sv_activeSheet ui) as [s|]; simpl; [|done].
  unfold mapPrompt. by rewrite list_lookup_fmap.
Qed.

Lemma setError_active e ui :
  activePrompts (setError e ui) = activePrompts ui.
Proof. done. Qed.


(** A prompt on screen that shares its id with no prompt the loop works
    on is left as it is. *)
Lemma runPrompts_untouched fuel type user prompts : ∀ ui w i q,
  activePrompts ui !! i = Some q →
  (∀ p, p ∈ prompts → nonblank p = true → sp_id p ≠ sp_id q) →
  activePrompts (vr_ui (promptsRun fuel type user prompts ui w)) !! i
    = Some q.
Proof.
  induction prompts as [|prompt rest IH]; intros ui w i q Hq Hids; [done|].
  rewrite runPrompts_cons.
  destruct (nonblank prompt) eqn:Hnb; cbn [negb].
  2:{ apply IH; [done|]. intros p Hp. apply Hids. by right. }
  assert (sp_id q ≠ sp_id prompt) as Hne.
  { intros Heq. by apply (Hids prompt); [left| |]. }
  assert (∀ f ui', activePrompts ui' !! i = Some q →
            activePrompts (markPrompt f (sp_id prompt) ui') !! i = Some q)
    as Hmark.
  { intros f ui' Hq'. rewrite markPrompt_lookup, Hq'. simpl.
    by rewrite decide_False. }
  cbv zeta.
  destruct (generation fuel type (sp_prompt prompt) user w)
    as [[result|e|] w1 t1 l1]; cbn [outcome world trace late vr_ui].
  - apply IH; [by auto|]. intros p Hp. apply Hids. by right.
  - apply Hmark. rewrite setError_active. by apply Hmark.
  - by apply Hmark.
Qed.

(** The submissions of the loop: those of the prompts that are not blank,
    in the order of the sheet, up to where the loop stopped. *)
Lemma runPrompts_submitted fuel type user prompts : ∀ ui w,
  let r := promptsRun fuel type user prompts ui w in
  submittedPrompts (vr_trace r) `prefix_of`
    (sheetRequest type ∘ sp_prompt <$> filter (λ p, nonblank p = true) prompts) ∧
  (vr_returned r = true → sv_error (vr_ui r) = sv_error ui →
   sv_error ui = None →
   submittedPrompts (vr_trace r) =
     (sheetRequest type ∘ sp_prompt
        <$> filter (λ p, nonblank p = true) prompts)) ∧
  Forall (λ n, n = 1%Z) (imagesAskedFor (vr_trace r)).
Proof.
  assert (Forall (λ n, n = 1%Z)
            match type with image => [1%Z] | video => [] end) as Hone.
  { destruct type; by repeat constructor. }
  induction prompts as [|prompt rest IH]; intros ui w.
  { repeat split; try done. }
  cbv zeta. rewrite runPrompts_cons, filter_cons.
  destruct (nonblank prompt) eqn:Hnb; cbn [negb].
  2:{ rewrite decide_False by done. apply IH. }
  rewrite decide_True by done. rewrite fmap_cons.
  pose proof (generateForSheet_submitted fuel type (sp_prompt prompt) user w)
    as (Hs & Hn & _ & Hres & Hpend).
  cbv zeta in Hs, Hn, Hres, Hpend |- *.
  destruct (generation fuel type (sp_prompt prompt) user w)
    as [[result|e|] w1 t1 l1]; cbn [outcome world trace late] in *.
  - specialize (IH (markPrompt (withResult result) (sp_id prompt)
                      (markPrompt (withStatus processing) (sp_id prompt) ui))
                   w1).
    cbv zeta in IH. destruct IH as (Hpre & Heq & Himg).
    cbn [vr_ui vr_trace vr_returned].
    rewrite (Hres result eq_refl), app_nil_r in Hs, Hn.
    rewrite (Hres result eq_refl). cbn [app].
    rewrite submittedPrompts_app, imagesAskedFor_app, Hs, Hn.
    split; [by apply prefix_cons|]. split.
    + intros Hret Herr Hnone. cbn [app]. f_equal. by apply Heq.
    + by apply Forall_app.
  - cbn [vr_ui vr_trace vr_returned]. rewrite Hs, Hn.
    split; [apply prefix_cons, prefix_nil|]. split; [|done].
    intros _ Herr Hnone. rewrite Hnone in Herr. done.
  - cbn [vr_ui vr_trace vr_returned].
    rewrite (Hpend eq_refl), app_nil_r in Hs, Hn. rewrite Hs, Hn.
    split; [apply prefix_cons, prefix_nil|]. by split.
Qed.

(** When the loop leaves an error on screen, it is the first failure: the
    prompts after the failing one were not looked at. *)
Lemma runPrompts_failure fuel type user prompts : ∀ ui w msg,
  sv_error ui = None →
  sv_error (vr_ui (promptsRun fuel type user prompts ui w)) = Some msg →
  ∃ pre p post,
    prompts = pre ++ p :: post ∧ nonblank p = true ∧
    msg = failedToProcess (sp_prompt p) ∧
    promptsRun fuel type user (pre ++ [p]) ui w =
      promptsRun fuel type user prompts ui w ∧
    vr_returned (promptsRun fuel type user prompts ui w) = true ∧
    submittedPrompts (vr_trace (promptsRun fuel type user prompts ui w))
      = (sheetRequest type ∘ sp_prompt
           <$> filter (λ p, nonblank p = true) (pre ++ [p])) ∧
    (∀ i q,
       activePrompts (vr_ui (promptsRun fuel type user prompts ui w)) !! i
         = Some q →
       sp_id q = sp_id p → sp_status q = error).
Proof.
  induction prompts as [|prompt rest IH]; intros ui w msg Hnone Herr.
  { simpl in Herr. congruence. }
  rewrite runPrompts_cons in Herr.
  destruct (nonblank prompt) eqn:Hnb; cbn [negb] in Herr.
  2:{ destruct (IH ui w msg Hnone Herr)
        as (pre & p & post & -> & Hp & -> & Hsame & Hret & Hlast & Hst).
      exists (prompt :: pre), p, post.
      change ((prompt :: pre) ++ p :: post)
        with (prompt :: (pre ++ p :: post)).
      change ((prompt :: pre) ++ [p]) with (prompt :: (pre ++ [p])).
      rewrite !runPrompts_cons, filter_cons, Hnb. cbn [negb].
      by rewrite decide_False by done. }
  pose proof (generateForSheet_submitted fuel type (sp_prompt prompt) user w)
    as (Hs & _ & _ & Hres & _).
  cbv zeta in Herr, Hs, Hres.
  destruct (generation fuel type (sp_prompt prompt) user w)
    as [[result|e|] w1 t1 l1] eqn:Hgen; cbn [outcome world trace late] in *.
  - cbn [vr_ui] in Herr.
    destruct (IH (markPrompt (withResult result) (sp_id prompt)
                    (markPrompt (withStatus processing) (sp_id prompt) ui))
                 w1 msg Hnone Herr) as
      (pre & p & post & -> & Hp & -> & Hsame & Hret & Hlast & Hst).
    exists (prompt :: pre), p, post.
    split; [done|]. split; [done|]. split; [done|].
    change ((prompt :: pre) ++ p :: post)
      with (prompt :: (pre ++ p :: post)).
    change ((prompt :: pre) ++ [p]) with (prompt :: (pre ++ [p])).
    rewrite !runPrompts_cons, Hnb. cbn [negb]. cbv zeta.
    rewrite Hgen. cbn [outcome world trace late vr_ui vr_returned vr_trace].
    rewrite Hsame. split; [done|]. split; [done|]. split; [|done].
    rewrite (Hres result eq_refl), app_nil_r in Hs.
    rewrite (Hres result eq_refl). cbn [app].
    rewrite submittedPrompts_app, Hs, Hlast, filter_cons.
    by rewrite decide_True by done.
  - cbn [vr_ui] in Herr.
    assert (msg = failedToProcess (sp_prompt prompt)) as -> by
      (unfold markPrompt, setActiveSheet, setError in Herr; simpl in Herr;
       congruence).
    exists [], prompt, rest. split; [done|]. split; [done|]. split; [done|].
    change ([] ++ prompt :: rest) with (prompt :: rest).
    change ([] ++ [prompt]) with [prompt].
    rewrite !runPrompts_cons, Hnb. cbn [negb]. cbv zeta.
    rewrite Hgen. cbn [outcome world trace late vr_ui vr_returned vr_trace].
    split; [done|]. split; [done|]. split.
    { rewrite Hs, filter_cons. by rewrite decide_True by done. }
    intros i q Hq Hid. rewrite markPrompt_lookup in Hq.
    destruct (activePrompts _ !! i) as [q0|]; [|done]. simpl in Hq.
    destruct (decide (sp_id q0 = sp_id prompt)) as [Heq|Hne].
    + by injection Hq as <-.
    + injection Hq as <-. done.
  - cbn [vr_ui] in Herr.
    unfold markPrompt, setActiveSheet in Herr. simpl in Herr. congruence.
Qed.

(** When the loop ran to its end and shows no error, every prompt on
    screen that shares its id with a prompt that is not blank has been
    completed. *)
Lemma runPrompts_completed fuel type user prompts : ∀ ui w i q,
  vr_returned (promptsRun fuel type user prompts ui w) = true →
  sv_error (vr_ui (promptsRun fuel type user prompts ui w)) = None →
  activePrompts ui !! i = Some q →
  sp_id q ∈ sp_id <$> filter (λ p, nonblank p = true) prompts →
  ∃ result,
    activePrompts (vr_ui (promptsRun fuel type user prompts ui w)) !! i
      = Some (withResult result q).
Proof.
  induction prompts as [|prompt rest IH]; intros ui w i q Hret Herr Hq Hin.
  { by apply elem_of_nil in Hin. }
  rewrite runPrompts_cons in Hret, Herr |- *.
  rewrite filter_cons in Hin.
  destruct (nonblank prompt) eqn:Hnb; cbn [negb] in *.
  2:{ rewrite decide_False in Hin by done. by apply IH. }
  rewrite decide_True in Hin by done. cbv zeta in *.
  destruct (generation fuel type (sp_prompt prompt) user w)
    as [[result|e|] w1 t1 l1] eqn:Hgen;
    cbn [outcome world trace late vr_ui vr_returned] in *; [|done..].
  set (ui2 := markPrompt (withResult result) (sp_id prompt)
                (markPrompt (withStatus processing) (sp_id prompt) ui)) in *.
  assert (∃ q2, activePrompts ui2 !! i = Some q2 ∧ sp_id q2 = sp_id q ∧
                (∀ result', withResult result' q2 = withResult result' q) ∧
                (sp_id q = sp_id prompt → q2 = withResult result q))
    as (q2 & Hq2 & Hid2 & Hover & Hhere).
  { subst ui2. rewrite !markPrompt_lookup, Hq. simpl.
    destruct (decide (sp_id q = sp_id prompt)) as [Heq|Hne]; simpl.
    - rewrite decide_True by done. by eexists.
    - rewrite decide_False by done. by eexists. }
  destruct (decide (sp_id q ∈ sp_id <$> filter (λ p, nonblank p = true) rest))
    as [Hrest|Hrest].
  - destruct (IH ui2 w1 i q2 Hret Herr Hq2) as [result' Hfinal].
    { by rewrite Hid2. }
    exists result'. by rewrite Hfinal, Hover.
  - apply elem_of_cons in Hin as [Heq|Hin]; [|done].
    exists result. rewrite <- (Hhere Heq).
    apply runPrompts_untouched; [done|].
    intros p Hp Hpnb Hpid. apply Hrest.
    apply list_elem_of_fmap. exists p. split; [congruence|].
    by apply list_elem_of_filter.
Qed.

Lemma runSheet_active fuel user ui w sheet :
  sv_activeSheet ui = Some sheet →
  let r := promptsRun fuel (sheet_type sheet) user (sheet_prompts sheet)
             (setError None (setIsProcessing true ui)) w in
  sheetRun fuel user ui w =
  if vr_returned r
  then mkViewRun (setIsProcessing false (vr_ui r)) (vr_world r)
                 (vr_trace r) true
  else r.
Proof. intros Hs. unfold runSheet. by rewrite Hs. Qed.


(** X17. [runSheet] submits the prompts of the sheet one after the other,
    in the order of the sheet, each at most once: what reaches the models
    is a prefix of the sheet's prompts that are not blank, and all of them
    when the handler ran to its end without error, whatever their status
    was (a completed prompt is generated again). A prompt that is blank
    once trimmed is never submitted. An image prompt goes out as it is,
    without overlay, and one image is asked for; a video prompt goes out
    with the music clause built from the empty suggestion. *)
Theorem runSheet_submits_prompts_in_order (fuel : nat) (user : User)
    (ui : SheetsViewState) (w : World) :
  let r := sheetRun fuel user ui w in
  let type := from_option sheet_type image (sv_activeSheet ui) in
  let expected :=
    sheetRequest type ∘ sp_prompt
      <$> filter (λ p, nonblank p = true) (activePrompts ui) in
  submittedPrompts (vr_trace r) `prefix_of` expected ∧
  (vr_returned r = true → sv_error (vr_ui r) = None →
   submittedPrompts (vr_trace r) = expected) ∧
  Forall (λ n, n = 1%Z) (imagesAskedFor (vr_trace r)) ∧
  (∀ text, sheetRequest image text = text) ∧
  (∀ text, sheetRequest video text =
     text +:+ ". The video should have a background music vibe of: "
       +:+ ". The video should be high-quality and suitable for social media.").
Proof.
  intros r type expected. subst r type expected. unfold activePrompts.
  destruct (sv_activeSheet ui) as [sheet|] eqn:Hs.
  2:{ unfold runSheet. rewrite Hs. repeat split; try done. }
  rewrite (runSheet_active _ _ _ _ _ Hs). cbv zeta.
  pose proof (runPrompts_submitted fuel (sheet_type sheet) user
                (sheet_prompts sheet)
                (setError None (setIsProcessing true ui)) w)
    as (Hpre & Heq & Hone).
  cbv zeta in Hpre, Heq, Hone. cbn [from_option].
  destruct (vr_returned (promptsRun _ _ _ _ _ _)) eqn:Hret;
    cbn [vr_ui vr_trace vr_returned].
  - split; [done|]. split; [|by repeat split].
    intros _ Herr. apply Heq; [done| |done]. exact Herr.
  - rewrite Hret. repeat split; done.
Qed.

(** X18. [runSheet] stops at the first prompt whose generation fails: when
    it leaves an error on screen, the message names the text of that
    prompt, the prompts submitted are exactly the non-blank ones up to and
    including it, every prompt on screen with its id shows the error
    status, the handler has run to its end, and a prompt that shares its
    id with none of the prompts worked on is exactly as it was. *)
Theorem runSheet_stops_at_first_failure (fuel : nat) (user : User)
    (ui : SheetsViewState) (w : World) (msg : string)
    (Herr : sv_error (vr_ui (sheetRun fuel user ui w)) = Some msg)
    (Hactive : is_Some (sv_activeSheet ui)) :
  let r := sheetRun fuel user ui w in
  let type := from_option sheet_type image (sv_activeSheet ui) in
  ∃ pre p post,
    activePrompts ui = pre ++ p :: post ∧
    nonblank p = true ∧
    msg = "Failed to process prompt: " +:+ dq +:+ sp_prompt p +:+ dq ∧
    submittedPrompts (vr_trace r) =
      (sheetRequest type ∘ sp_prompt
         <$> filter (λ p, nonblank p = true) (pre ++ [p])) ∧
    vr_returned r = true ∧ sv_isProcessing (vr_ui r) = false ∧
    (∀ i q, activePrompts (vr_ui r) !! i = Some q →
       sp_id q = sp_id p → sp_status q = error) ∧
    (∀ i q, activePrompts ui !! i = Some q →
       sp_id q ∉ sp_id <$> filter (λ p, nonblank p = true) (pre ++ [p]) →
       activePrompts (vr_ui r) !! i = Some q).
Proof.
  intros r type. subst r type. destruct Hactive as [sheet Hs].
  rewrite (runSheet_active _ _ _ _ _ Hs) in Herr |- *. cbv zeta in Herr |- *.
  assert (activePrompts ui = sheet_prompts sheet) as Hui.
  { unfold activePrompts. by rewrite Hs. }
  rewrite !Hui, Hs. cbn [from_option].
  set (ui0 := setError None (setIsProcessing true ui)) in *.
  assert (sv_error (vr_ui (promptsRun fuel (sheet_type sheet) user
                             (sheet_prompts sheet) ui0 w)) = Some msg)
    as Herr0.
  { by destruct (vr_returned (promptsRun _ _ _ _ _ _)). }
  destruct (runPrompts_failure fuel (sheet_type sheet) user
              (sheet_prompts sheet) ui0 w msg eq_refl Herr0)
    as (pre & p & post & Hsplit & Hp & -> & Hsame & Hret & Hsub & Hst).
  exists pre, p, post. rewrite Hret.
  cbn [vr_ui vr_trace vr_returned].
  split; [done|]. split; [done|]. split; [done|]. split; [done|].
  split; [done|]. split; [done|]. split; [exact Hst|].
  intros i q Hq Hnot.
  change (activePrompts (setIsProcessing false ?u)) with (activePrompts u).
  rewrite <- Hsame. apply runPrompts_untouched.
  - subst ui0. unfold activePrompts.
    cbn [setError setIsProcessing sv_activeSheet]. by rewrite Hs.
  - intros p' Hp' Hnb Hid. apply Hnot.
    apply list_elem_of_fmap. exists p'. split; [done|].
    by apply list_elem_of_filter.
Qed.

(** X19. When [runSheet] has run to its end and shows no error, the sheet
    is done: every prompt on screen that shares its id with a prompt that
    is not blank is completed and carries a result locator and a caption,
    its id and text as before; every other prompt is exactly as it was;
    the processing flag is cleared. *)
Theorem runSheet_completes_the_sheet (fuel : nat) (user : User)
    (ui : SheetsViewState) (w : World)
    (Hret : vr_returned (sheetRun fuel user ui w) = true)
    (Herr : sv_error (vr_ui (sheetRun fuel user ui w)) = None)
    (Hactive : is_Some (sv_activeSheet ui)) :
  let r := sheetRun fuel user ui w in
  sv_isProcessing (vr_ui r) = false ∧
  ∀ i q, activePrompts ui !! i = Some q →
    if bool_decide (sp_id q ∈ sp_id <$>
                      filter (λ p, nonblank p = true) (activePrompts ui))
    then ∃ result,
           activePrompts (vr_ui r) !! i =
             Some (mkPrompt (sp_id q) (sp_prompt q) completed
                            (Some (url result)) (Some (caption result)))
    else activePrompts (vr_ui r) !! i = Some q.
Proof.
  intros r. subst r. destruct Hactive as [sheet Hs].
  rewrite (runSheet_active _ _ _ _ _ Hs) in Hret, Herr |- *.
  cbv zeta in Hret, Herr |- *.
  assert (activePrompts ui = sheet_prompts sheet) as Hui.
  { unfold activePrompts. by rewrite Hs. }
  rewrite !Hui.
  set (ui0 := setError None (setIsProcessing true ui)) in *.
  assert (activePrompts ui0 = sheet_prompts sheet) as Hui0.
  { subst ui0. unfold activePrompts.
    cbn [setError setIsProcessing sv_activeSheet]. by rewrite Hs. }
  destruct (vr_returned (promptsRun _ _ _ _ _ _)) eqn:Hret0;
    [|by rewrite Hret0 in Hret].
  cbn [vr_ui] in Herr |- *. split; [done|].
  intros i q Hq.
  change (activePrompts (setIsProcessing false ?u)) with (activePrompts u).
  destruct (bool_decide _) eqn:Hin.
  - apply bool_decide_eq_true in Hin.
    apply (runPrompts_completed fuel (sheet_type sheet) user
             (sheet_prompts sheet) ui0 w i q); try done.
    by rewrite Hui0.
  - apply bool_decide_eq_false in Hin.
    apply runPrompts_untouched; [by rewrite Hui0|].
    intros p' Hp' Hnb Hid. apply Hin.
    apply list_elem_of_fmap. exists p'. split; [done|].
    by apply list_elem_of_filter.
Qed.

Lemma settleSequence_0 order : settleSequence 0 order = [].
Proof.
  destruct (settleSequence 0 order) as [|i sq] eqn:Hsq; [done|].
  assert (i ∈ settleSequence 0 order) as Hin by (rewrite Hsq; left).
  apply settleSequence_elem in Hin. lia.
Qed.

(** X20. A provider that answers the batch request of an image sheet with
    no image at all makes the prompt fail, although the image workflow
    itself resolves: [runSheet] reads the first entry of an empty result,
    the error message naming that prompt is shown, the prompts after it
    are not submitted, no caption is asked for and no history entry is
    requested. *)
Theorem runSheet_no_image_is_a_failure (fuel : nat) (user : User)
    (ui : SheetsViewState) (w : World) (sheet : Sheet) (p : SheetPrompt)
    (rest : list SheetPrompt)
    (Hactive : sv_activeSheet ui = Some sheet)
    (Htype : sheet_type sheet = image)
    (Hprompts : sheet_prompts sheet = p :: rest)
    (Hnb : truthy (trim (sp_prompt p)) = true)
    (Hnone : (generateImages ai
                {| gip_model := "imagen-4.0-generate-001";
                   gip_prompt := sp_prompt p;
                   gip_numberOfImages := 1;
                   gip_outputMimeType := "image/jpeg";
                   gip_aspectRatio := "1:1" |} w).1
             = inr {| generatedImages := [] |}) :
  let r := sheetRun fuel user ui w in
  outcome (generateImagesAndCaptions ai (sp_prompt p) "" 1
             (Some (uid user)) w) = Resolved [] ∧
  sv_error (vr_ui r) = Some (failedToProcess (sp_prompt p)) ∧
  vr_returned r = true ∧
  submittedPrompts (vr_trace r) = [sp_prompt p] ∧
  captionRequests (vr_trace r) = [] ∧
  detachedCalls (vr_trace r) = [] ∧
  (∀ i q, activePrompts (vr_ui r) !! i = Some q →
     sp_id q = sp_id p → sp_status q = error).
Proof.
  intros r. subst r.
  assert (generateImagesAndCaptions ai (sp_prompt p) "" 1
            (Some (uid user)) w =
          mkRun (Resolved [])
            (generateImages ai (imageParams (sp_prompt p) "" 1) w).2
            [GenerateImages (imageParams (sp_prompt p) "" 1)
               (inr {| generatedImages := [] |})] []) as Himages.
  { unfold generateImagesAndCaptions. rewrite bind_run. unfold await.
    change {| gip_model := "imagen-4.0-generate-001";
              gip_prompt := imagePrompt (sp_prompt p) "";
              gip_numberOfImages := 1;
              gip_outputMimeType := "image/jpeg";
              gip_aspectRatio := "1:1" |}
      with (imageParams (sp_prompt p) "" 1).
    change {| gip_model := "imagen-4.0-generate-001";
              gip_prompt := sp_prompt p;
              gip_numberOfImages := 1;
              gip_outputMimeType := "image/jpeg";
              gip_aspectRatio := "1:1" |}
      with (imageParams (sp_prompt p) "" 1) in Hnone.
    destruct (generateImages ai (imageParams (sp_prompt p) "" 1) w)
      as [ret w1]. simpl in Hnone. subst ret. cbn [snd generatedImages].
    rewrite bind_run.
    change (mapM (startBranch ai (sp_prompt p)) [] w1)
      with (mkRun (World:=World) (Reason:=Reason)
              (Resolved (@nil (Branch (Reason:=Reason)))) w1 [] []).
    cbv beta iota. rewrite bind_run. cbv beta iota. rewrite bind_run.
    unfold promiseAll.
    cbn [fmap list_fmap length]. rewrite settleSequence_0. done. }
  split; [by rewrite Himages|].
  rewrite (runSheet_active _ _ _ _ _ Hactive). cbv zeta.
  rewrite Hprompts, Htype, runPrompts_cons.
  unfold nonblank. rewrite Hnb. cbn [negb]. cbv zeta.
  unfold generateForSheet. rewrite bind_run, Himages. cbv beta iota.
  unfold throw. cbn [outcome world trace late vr_returned vr_ui vr_trace].
  split; [done|]. split; [done|]. split; [done|]. split; [done|].
  split; [done|].
  intros i q Hq Hid.
  change (activePrompts (setIsProcessing false ?u)) with (activePrompts u)
    in Hq.
  rewrite markPrompt_lookup in Hq.
  destruct (activePrompts _ !! i) as [q0|]; [|done]. simpl in Hq.
  destruct (decide (sp_id q0 = sp_id p)) as [Heq|Hne].
  - by injection Hq as <-.
  - injection Hq as <-. done.
Qed.

End SheetsViewFacts.

Lemma withPrompts_same (sheet : Sheet) :
  withPrompts sheet (sheet_prompts sheet) = sheet.
Proof. by destruct sheet. Qed.

Lemma filter_other_id_length (l : list SheetPrompt) promptId :
  NoDup (sp_id <$> l) →
  length (filter (λ p, sp_id p ≠ promptId) l) =
  (length l - if decide (promptId ∈ sp_id <$> l) then 1 else 0)%nat.
Proof.
  induction l as [|p l IH]; intros Hnd; [done|].
  rewrite fmap_cons in Hnd. apply NoDup_cons in Hnd as [Hp Hnd].
  rewrite filter_cons, fmap_cons.
  destruct (decide (sp_id p ≠ promptId)) as [Hne|Heq].
  - cbn [length]. rewrite (IH Hnd).
    destruct (decide (promptId ∈ sp_id <$> l)) as [Hin|Hin].
    + rewrite decide_True by (by right).
      destruct l; [by apply elem_of_nil in Hin|]. simpl. lia.
    + rewrite decide_False; [lia|].
      intros [?|?]%elem_of_cons; [by apply Hne|done].
  - apply dec_stable in Heq. subst promptId.
    rewrite decide_True by (by left). rewrite (IH Hnd).
    rewrite decide_False by done. simpl. lia.
Qed.

Lemma filter_other_id_fresh (l : list SheetPrompt) promptId :
  promptId ∉ sp_id <$> l → filter (λ p, sp_id p ≠ promptId) l = l.
Proof.
  induction l as [|p l IH]; intros Hnot; [done|].
  rewrite fmap_cons, not_elem_of_cons in Hnot. destruct Hnot as [Hne Hnot].
  rewrite filter_cons, decide_True by done. by rewrite IH.
Qed.

(** X21. [handleRemovePrompt] never empties a sheet whose prompt ids are
    distinct: with two prompts or more on screen it removes the one prompt
    that has the id (none if the id is unknown) and keeps the others as
    they are and in order; a sheet with a single prompt is left alone.
    The sheet keeps its id, name and type. *)
Theorem handleRemovePrompt_keeps_a_prompt (promptId : string)
    (ui : SheetsViewState)
    (Hdistinct : NoDup (sp_id <$> activePrompts ui))
    (Hsome : activePrompts ui ≠ []) :
  let ui' := handleRemovePrompt promptId ui in
  activePrompts ui' ≠ [] ∧
  length (activePrompts ui') =
    (length (activePrompts ui) -
     if decide (promptId ∈ sp_id <$> activePrompts ui ∧
                2 ≤ length (activePrompts ui))%nat
     then 1 else 0)%nat ∧
  activePrompts ui' `sublist_of` activePrompts ui ∧
  (∀ p, p ∈ activePrompts ui → sp_id p ≠ promptId → p ∈ activePrompts ui') ∧
  (λ s, (sheet_id s, sheet_name s, sheet_type s)) <$> sv_activeSheet ui' =
  (λ s, (sheet_id s, sheet_name s, sheet_type s)) <$> sv_activeSheet ui.
Proof.
  intros ui'. subst ui'. unfold handleRemovePrompt, activePrompts in *.
  destruct (sv_activeSheet ui) as [sheet|] eqn:Hs; [|done].
  cbn [from_option] in *.
  destruct (bool_decide (length (sheet_prompts sheet) ≤ 1)%nat) eqn:Hlen.
  - apply bool_decide_eq_true in Hlen. rewrite Hs. cbn [from_option].
    split; [done|]. split.
    { rewrite decide_False by lia. lia. }
    by repeat split.
  - apply bool_decide_eq_false in Hlen.
    cbn [setActiveSheet sv_activeSheet from_option withPrompts sheet_prompts].
    pose proof (filter_other_id_length (sheet_prompts sheet) promptId
                  Hdistinct) as Hcount.
    split.
    { intros Hnil. rewrite Hnil in Hcount. simpl in Hcount.
      destruct (decide _); lia. }
    split.
    { rewrite Hcount.
      destruct (decide (promptId ∈ sp_id <$> sheet_prompts sheet)).
      - rewrite decide_True; [done|]. split; [done|lia].
      - rewrite decide_False; [done|]. by intros [? _]. }
    split; [apply sublist_filter|]. split; [|done].
    intros p Hp Hne. by apply list_elem_of_filter.
Qed.

(** X22. Adding a prompt and removing it again restores the screen, when
    the sheet had a prompt before and the id made from the clock reading
    is not already in use. *)
Theorem handleAddPrompt_then_remove (now : Z) (ui : SheetsViewState)
    (Hfresh : "prompt-" +:+ pretty now ∉ sp_id <$> activePrompts ui)
    (Hsome : activePrompts ui ≠ []) :
  activePrompts (handleAddPrompt now ui) =
    activePrompts ui ++
      [mkPrompt ("prompt-" +:+ pretty now) "" pending None None] ∧
  handleRemovePrompt ("prompt-" +:+ pretty now) (handleAddPrompt now ui) = ui.
Proof.
  unfold handleAddPrompt, handleRemovePrompt, activePrompts in *.
  destruct ui as [sheets [sheet|] isLoading isProcessing err]; [|done].
  cbn [sv_activeSheet from_option setActiveSheet withPrompts sheet_prompts
       sv_sheets sv_isLoading sv_isProcessing sv_error] in *.
  split; [done|].
  rewrite bool_decide_eq_false_2.
  2:{ rewrite length_app. simpl.
      destruct (sheet_prompts sheet); [done|simpl; lia]. }
  cbn [setActiveSheet withPrompts sheet_prompts sheet_id sheet_name
       sheet_type sv_sheets sv_activeSheet sv_isLoading sv_isProcessing
       sv_error].
  rewrite filter_app, filter_other_id_fresh by done.
  rewrite filter_cons, decide_False by (intros Hne; by apply Hne).
  rewrite filter_nil, app_nil_r. by destruct sheet.
Qed.

(** X23. For a user whose id names no member of [Object.prototype],
    [loadSheets] ends with a sheet on screen: the user's first stored
    sheet, or, for a user without sheets, a default image sheet with one
    blank pending prompt, which it also stores. The list on screen is the
    stored list, the loading flag is cleared, the other users' sheets are
    not touched, and loading again (whatever the clock says) shows the
    same and stores nothing new. *)
Theorem loadSheets_shows_a_sheet (idNow promptNow : Z) (user : User)
    (ui : SheetsViewState) (sheets : gmap string (list Sheet)) :
  uid user ∉ objectPrototypeNames →
  let loaded := loadSheets idNow promptNow user ui sheets in
  sv_isLoading loaded.1 = false ∧
  sv_sheets loaded.1 = listOf loaded.2 (uid user) ∧
  sv_sheets loaded.1 ≠ [] ∧
  sv_activeSheet loaded.1 = head (sv_sheets loaded.1) ∧
  (listOf sheets (uid user) ≠ [] →
     listOf loaded.2 (uid user) = listOf sheets (uid user)) ∧
  (listOf sheets (uid user) = [] →
     sv_sheets loaded.1 =
       [mkSheet ("sheet-" +:+ pretty idNow) "My First Image Sheet" image
          [mkPrompt ("prompt-" +:+ pretty promptNow) "" pending None None]]) ∧
  (∀ u, u ≠ uid user → loaded.2 !! u = sheets !! u) ∧
  (∀ idNow' promptNow' ui',
     sv_isProcessing ui' = sv_isProcessing ui → sv_error ui' = sv_error ui →
     loadSheets idNow' promptNow' user ui' loaded.2 = loaded).
Proof.
  intros _ loaded. subst loaded. unfold loadSheets, getSheets.
  change (default [] (ensureList (uid user) sheets !! uid user))
    with (listOf (ensureList (uid user) sheets) (uid user)).
  rewrite ensureList_lookup.
  destruct (listOf sheets (uid user)) as [|first others] eqn:Hlist.
  - set (defaultSheet := {| sheet_id := _ |}).
    cbn [fst snd sv_isLoading sv_sheets sv_activeSheet head].
    assert (listOf (saveSheet (uid user) defaultSheet
                      (ensureList (uid user) sheets)).2 (uid user)
            = [defaultSheet]) as Hsaved.
    { rewrite saveSheet_store, ensureList_lookup, Hlist. done. }
    split; [done|]. split; [by rewrite Hsaved|]. split; [done|].
    split; [done|]. split; [done|]. split; [done|]. split.
    { intros u Hne. unfold saveSheet. cbn [snd].
      destruct (findIndex _ _); rewrite lookup_insert_ne by done;
        rewrite !ensureList_other by done; done. }
    intros idNow' promptNow' ui' Hp He.
    change (default [] (ensureList (uid user) ?m !! uid user))
      with (listOf (ensureList (uid user) m) (uid user)).
    rewrite ensureList_lookup, Hsaved. rewrite Hp, He. f_equal.
    unfold saveSheet. cbn [snd].
    destruct (findIndex _ _);
      (erewrite ensureList_present; [done|apply lookup_insert_eq]).
  - cbn [fst snd sv_isLoading sv_sheets sv_activeSheet head].
    assert (∃ l, sheets !! uid user = Some l) as [l Hl].
    { unfold listOf in Hlist. destruct (sheets !! uid user); [eauto|done]. }
    rewrite (ensureList_present _ _ _ Hl).
    split; [done|]. split; [done|]. split; [done|]. split; [done|].
    split; [done|]. split; [done|]. split; [done|].
    intros idNow' promptNow' ui' Hp He.
    change (default [] (ensureList (uid user) ?m !! uid user))
      with (listOf (ensureList (uid user) m) (uid user)).
    rewrite ensureList_lookup, Hlist, (ensureList_present _ _ _ Hl).
    by rewrite Hp, He.
Qed.

(** ** AddToSheetModal: prompts sent from the chat to a sheet *)

Record AddToSheetState := mkAddToSheet {
  as_sheets : list Sheet;
  as_isLoading : bool;
  as_selectedSheetId : string;
  as_isCreatingNew : bool;
  as_newSheetName : string;
  as_newSheetType : MediaType;
  as_isSaving : bool;
}.

Definition setIsSaving (b : bool) (ui : AddToSheetState) : AddToSheetState :=
  mkAddToSheet (as_sheets ui) (as_isLoading ui) (as_selectedSheetId ui)
               (as_isCreatingNew ui) (as_newSheetName ui)
               (as_newSheetType ui) b.

(** [fetchSheets], the effect run when the modal opens. *)
Definition fetchSheets (user : User) (ui : AddToSheetState)
    (sheets : gmap string (list Sheet))
    : AddToSheetState * gmap string (list Sheet) :=
  let '(userSheets, sheets) := getSheets (uid user) sheets in
  match userSheets with
  | first :: _ =>
      (mkAddToSheet userSheets false (sheet_id first) (as_isCreatingNew ui)
                    (as_newSheetName ui) (as_newSheetType ui)
                    (as_isSaving ui),
       sheets)
  | [] =>
      (mkAddToSheet userSheets false (as_selectedSheetId ui) true
                    (as_newSheetName ui) (as_newSheetType ui)
                    (as_isSaving ui),
       sheets)
  end.

(** What a run of [handleAddPrompts] did besides changing the state and
    the store: the alerts shown, and whether [onClose] was called. *)
Record AddToSheetRun := mkAddToSheetRun {
  ar_ui : AddToSheetState;
  ar_sheets : gmap string (list Sheet);
  ar_alerts : list string;
  ar_closed : bool;
}.

(** [prompts.map(p => ...)]; [reading k] is what [Date.now()] and
    [Math.random()] give for the prompt at index [k]. *)
Definition newSheetPrompts (reading : nat → Z * string)
    (prompts : list string) : list SheetPrompt :=
  imap (λ k p, mkPrompt ("prompt-" +:+ pretty (reading k).1 +:+ "-"
                           +:+ (reading k).2)
                        p pending None None) prompts.

(** [handleAddPrompts]; [idNow] is the reading of [Date.now()] for the id
    of a new sheet. *)
Definition handleAddPrompts (trim : string → string)
    (reading : nat → Z * string) (idNow : Z) (user : User)
    (prompts : list string) (ui : AddToSheetState)
    (sheets : gmap string (list Sheet)) : AddToSheetRun :=
  let ui := setIsSaving true ui in
  let newPrompts := newSheetPrompts reading prompts in
  if as_isCreatingNew ui then
    if negb (truthy (trim (as_newSheetName ui))) then
      mkAddToSheetRun (setIsSaving false ui) sheets
                      ["Please enter a name for the new sheet."] false
    else
      let newSheet := {|
        sheet_id := "sheet-" +:+ pretty idNow;
        sheet_name := as_newSheetName ui;
        sheet_type := as_newSheetType ui;
        sheet_prompts := newPrompts;
      |} in
      mkAddToSheetRun (setIsSaving false ui)
                      (saveSheet (uid user) newSheet sheets).2 [] true
  else
    match findSheet (as_selectedSheetId ui) (as_sheets ui) with
    | Some targetSheet =>
        let updatedSheet :=
          withPrompts targetSheet (sheet_prompts targetSheet ++ newPrompts) in
        mkAddToSheetRun (setIsSaving false ui)
                        (saveSheet (uid user) updatedSheet sheets).2 [] true
    | None => mkAddToSheetRun (setIsSaving false ui) sheets [] true
    end.

Lemma saveSheet_finds (userId : string) (sheetToSave : Sheet)
    (sheets : gmap string (list Sheet)) :
  findSheet (sheet_id sheetToSave)
    (listOf (saveSheet userId sheetToSave sheets).2 userId) = Some sheetToSave.
Proof.
  rewrite saveSheet_store. unfold findIndex, findSheet.
  destruct (list_find (λ s, sheet_id s = sheet_id sheetToSave)
              (listOf sheets userId)) as [[i old]|] eqn:Hfind;
    cbn [fmap option_fmap option_map fst].
  - by rewrite (list_find_replace _ _ i sheetToSave old Hfind eq_refl).
  - by rewrite (list_find_snoc _ _ sheetToSave Hfind eq_refl).
Qed.

Lemma newSheetPrompts_texts reading prompts :
  sp_prompt <$> newSheetPrompts reading prompts = prompts ∧
  Forall (λ p, sp_status p = pending ∧ sp_resultUrl p = None ∧
               sp_caption p = None) (newSheetPrompts reading prompts).
Proof.
  unfold newSheetPrompts. revert reading.
  induction prompts as [|p prompts IH]; intros reading; [done|].
  simpl. destruct (IH (reading ∘ S)) as [Ht Hall]. split.
  - f_equal. exact Ht.
  - constructor; [done|]. exact Hall.
Qed.

(** X24. For a user whose id names no member of [Object.prototype],
    [handleAddPrompts] hands every prompt on as a pending prompt, in
    order and with its text unchanged. Into an existing sheet: the
    sheet stored under the selected id afterwards is the modal's copy of
    that sheet with the new prompts appended (whatever the store held
    under the id by then). As a new sheet: the sheet stored under the new
    id has the given name and type and exactly the new prompts. A blank
    name is refused with an alert: the store is not touched and the modal
    stays open. When the selected id is not among the modal's sheets the
    store is not touched either, and the modal closes all the same. The
    saving flag is always cleared. *)
Theorem handleAddPrompts_appends_pending_prompts (trim : string → string)
    (reading : nat → Z * string) (idNow : Z) (user : User)
    (prompts : list string) (ui : AddToSheetState)
    (sheets : gmap string (list Sheet)) :
  uid user ∉ objectPrototypeNames →
  let r := handleAddPrompts trim reading idNow user prompts ui sheets in
  let newPrompts := newSheetPrompts reading prompts in
  as_isSaving (ar_ui r) = false ∧
  sp_prompt <$> newPrompts = prompts ∧
  Forall (λ p, sp_status p = pending ∧ sp_resultUrl p = None ∧
               sp_caption p = None) newPrompts ∧
  (if as_isCreatingNew ui then
     if truthy (trim (as_newSheetName ui)) then
       ar_closed r = true ∧ ar_alerts r = [] ∧
       findSheet ("sheet-" +:+ pretty idNow)
                 (getSheets (uid user) (ar_sheets r)).1 =
         Some (mkSheet ("sheet-" +:+ pretty idNow) (as_newSheetName ui)
                       (as_newSheetType ui) newPrompts)
     else
       ar_closed r = false ∧ ar_sheets r = sheets ∧
       ar_alerts r = ["Please enter a name for the new sheet."]
   else
     ar_closed r = true ∧ ar_alerts r = [] ∧
     match findSheet (as_selectedSheetId ui) (as_sheets ui) with
     | Some targetSheet =>
         sheet_id targetSheet = as_selectedSheetId ui ∧
         findSheet (as_selectedSheetId ui)
                   (getSheets (uid user) (ar_sheets r)).1 =
           Some (mkSheet (sheet_id targetSheet) (sheet_name targetSheet)
                         (sheet_type targetSheet)
                         (sheet_prompts targetSheet ++ newPrompts))
     | None => ar_sheets r = sheets
     end).
Proof.
  intros _ r newPrompts. subst r newPrompts.
  assert (∀ m, (getSheets (uid user) m).1 = listOf m (uid user)) as Hget.
  { intros m. unfold getSheets. cbn [fst].
    apply (ensureList_lookup (uid user) (uid user) m). }
  destruct (newSheetPrompts_texts reading prompts) as [Htexts Hpending].
  unfold handleAddPrompts.
  cbn [setIsSaving as_isCreatingNew as_newSheetName as_newSheetType
       as_selectedSheetId as_sheets].
  destruct (as_isCreatingNew ui).
  - destruct (truthy (trim (as_newSheetName ui))); cbn [negb];
      cbn [ar_ui ar_sheets ar_alerts ar_closed as_isSaving].
    + repeat split; try done. rewrite Hget.
      apply (saveSheet_finds (uid user)
               (mkSheet ("sheet-" +:+ pretty idNow) (as_newSheetName ui)
                        (as_newSheetType ui)
                        (newSheetPrompts reading prompts))).
    + repeat split; done.
  - destruct (findSheet (as_selectedSheetId ui) (as_sheets ui))
      as [targetSheet|] eqn:Hfind;
      cbn [ar_ui ar_sheets ar_alerts ar_closed as_isSaving].
    + assert (sheet_id targetSheet = as_selectedSheetId ui) as Hid.
      { unfold findSheet in Hfind.
        destruct (list_find _ _) as [[i s]|] eqn:Hlf; [|done].
        injection Hfind as <-.
        by apply list_find_Some in Hlf as (_ & ? & _). }
      repeat split; try done. rewrite Hget, <- Hid.
      apply (saveSheet_finds (uid user)
               (withPrompts targetSheet
                  (sheet_prompts targetSheet ++
                   newSheetPrompts reading prompts))).
    + repeat split; done.
Qed.

(** X25. Opened for a user who has sheets and confirmed as it is, the
    modal adds the prompts to the user's first sheet: that sheet is
    stored with the new pending prompts after its own, and the user's
    other sheets stay as they were, in place. *)
Theorem modal_adds_to_first_sheet (trim : string → string)
    (reading : nat → Z * string) (idNow : Z) (user : User)
    (prompts : list string) (ui : AddToSheetState)
    (sheets : gmap string (list Sheet)) (first : Sheet)
    (others : list Sheet)
    (Hstored : listOf sheets (uid user) = first :: others)
    (Hexisting : as_isCreatingNew ui = false) :
  let opened := fetchSheets user ui sheets in
  let r := handleAddPrompts trim reading idNow user prompts
             opened.1 opened.2 in
  as_selectedSheetId opened.1 = sheet_id first ∧
  ar_closed r = true ∧
  listOf (ar_sheets r) (uid user) =
    mkSheet (sheet_id first) (sheet_name first) (sheet_type first)
            (sheet_prompts first ++ newSheetPrompts reading prompts)
      :: others ∧
  (∀ u, u ≠ uid user → ar_sheets r !! u = sheets !! u).
Proof.
  intros opened r. subst opened r. unfold fetchSheets, getSheets.
  change (default [] (ensureList (uid user) sheets !! uid user))
    with (listOf (ensureList (uid user) sheets) (uid user)).
  rewrite ensureList_lookup, Hstored. cbn [fst snd].
  assert (∃ l, sheets !! uid user = Some l) as [l Hl].
  { unfold listOf in Hstored. destruct (sheets !! uid user); [eauto|done]. }
  rewrite (ensureList_present _ _ _ Hl).
  unfold handleAddPrompts.
  cbn [setIsSaving as_isCreatingNew as_newSheetName as_newSheetType
       as_selectedSheetId as_sheets].
  rewrite Hexisting.
  assert (findSheet (sheet_id first) (first :: others) = Some first) as ->.
  { unfold findSheet. rewrite list_find_cons. by rewrite decide_True. }
  cbn [ar_ui ar_sheets ar_alerts ar_closed].
  split; [done|]. split; [done|]. split.
  - rewrite saveSheet_store, Hstored. unfold findIndex.
    rewrite list_find_cons. by rewrite decide_True.
  - intros u Hne. unfold saveSheet. cbn [snd].
    destruct (findIndex _ _); rewrite lookup_insert_ne by done;
      by apply ensureList_other.
Qed.

(** ** The generator views *)


Record VideoViewState := mkVideoView {
  vv_prompt : string;
  vv_musicSuggestion : string;
  vv_isLoading : bool;
  vv_loadingMessage : string;
  vv_error : option string;
  vv_generatedVideo : option MediaResult;
}.

Definition setLoadingMessage (message : string) (ui : VideoViewState)
    : VideoViewState :=
  mkVideoView (vv_prompt ui) (vv_musicSuggestion ui) (vv_isLoading ui)
              message (vv_error ui) (vv_generatedVideo ui).

(** The collaborators do not see the screen: their calls act on the first
    component of the world and leave the state of the view alone. *)
Definition withScreen {World UI Reason} (ai : Provider World Reason)
    : Provider (World * UI) Reason := {|
  generateImages := λ p wu,
    let '(r, w) := generateImages ai p wu.1 in (r, (w, wu.2));
  generateContent := λ p wu,
    let '(r, w) := generateContent ai p wu.1 in (r, (w, wu.2));
  generateVideos := λ p wu,
    let '(r, w) := generateVideos ai p wu.1 in (r, (w, wu.2));
  getVideosOperation := λ op wu,
    let '(r, w) := getVideosOperation ai op wu.1 in (r, (w, wu.2));
  fetch := λ input wu,
    let '(r, w) := fetch ai input wu.1 in (r, (w, wu.2));
  blob := λ resp wu,
    let '(r, w) := blob ai resp wu.1 in (r, (w, wu.2));
  createObjectURL := λ b wu,
    let '(r, w) := createObjectURL ai b wu.1 in (r, (w, wu.2));
  setTimeout := λ ms wu, (setTimeout ai ms wu.1, wu.2);
  settleOrder := λ n wu, settleOrder ai n wu.1;
  recorder := {|
    append userId itemData wu :=
      let '(r, w) := append (recorder ai) userId itemData wu.1 in
      (r, (w, wu.2))
  |};
|}.

(** [handleProgress] of the video view. *)
Definition handleProgress {World} (message : string)
    (wu : World * VideoViewState) : World * VideoViewState :=
  (wu.1, setLoadingMessage message wu.2).

Definition enterPrompt : string := "Please enter a prompt.".
Definition videoFailed : string :=
  "Failed to generate video. Please check your API key and network connection.".

Section GeneratorViews.
Context {World Reason : Type}.
Context (ai : Provider World Reason) (API_KEY : string).
Context (trim : string → string).


(** [handleGenerate] of the video view. The progress callback writes the
    message to the screen, so the workflow runs on the world together
    with the state of the view. *)
Definition handleGenerateVideo (fuel : nat) (user : option User)
    (ui : VideoViewState) (w : World)
    : ViewRun VideoViewState World Reason :=
  if negb (truthy (trim (vv_prompt ui))) then
    mkViewRun (mkVideoView (vv_prompt ui) (vv_musicSuggestion ui)
                 (vv_isLoading ui) (vv_loadingMessage ui) (Some enterPrompt)
                 (vv_generatedVideo ui))
              w [] true
  else
    let ui := mkVideoView (vv_prompt ui) (vv_musicSuggestion ui) true
                (vv_loadingMessage ui) None None in
    let r := generateVideoAndCaption (withScreen ai) API_KEY fuel
               (vv_prompt ui) (vv_musicSuggestion ui) handleProgress
               (uid <$> user) (w, ui) in
    let ui := (world r).2 in
    match outcome r with
    | Resolved generated =>
        mkViewRun (mkVideoView (vv_prompt ui) (vv_musicSuggestion ui) false
                     "" (vv_error ui) (Some generated))
                  (world r).1 (trace r ++ late r) true
    | Rejected e =>
        mkViewRun (mkVideoView (vv_prompt ui) (vv_musicSuggestion ui) false
                     "" (Some videoFailed) (vv_generatedVideo ui))
                  (world r).1 (trace r ++ late r) true
    | Pending => mkViewRun ui (world r).1 (trace r) false
    end.

End GeneratorViews.

Section GeneratorViewFacts.
Context {World Reason : Type}.
Context (ai : Provider World Reason) (API_KEY : string).
Context (trim : string → string).

(** The screen after the progress messages [ms] were reported. *)
Definition screenAfter (ms : list string) (ui : VideoViewState)
    : VideoViewState :=
  foldl (λ ui m, setLoadingMessage m ui) ui ms.

Lemma screenAfter_app ms1 ms2 ui :
  screenAfter (ms1 ++ ms2) ui = screenAfter ms2 (screenAfter ms1 ui).
Proof. apply foldl_app. Qed.

Lemma screenAfter_last ms ui :
  screenAfter ms ui =
  mkVideoView (vv_prompt ui) (vv_musicSuggestion ui) (vv_isLoading ui)
              (default (vv_loadingMessage ui) (last ms)) (vv_error ui)
              (vv_generatedVideo ui).
Proof.
  revert ui. induction ms as [|m ms IH]; intros ui; [by destruct ui|].
  change (screenAfter (m :: ms) ui)
    with (screenAfter ms (setLoadingMessage m ui)).
  rewrite IH. cbn [setLoadingMessage vv_prompt vv_musicSuggestion
                   vv_isLoading vv_loadingMessage vv_error vv_generatedVideo].
  destruct ms as [|m' ms]; [done|].
  destruct (last (m' :: ms)) eqn:Hl; [by rewrite (last_cons_cons m), Hl|].
  by apply last_None in Hl.
Qed.

(** [Screened m m0]: in front of the screen, [m] makes the calls [m0]
    makes without it and settles alike; the screen shows the progress
    message reported last. *)
Definition Screened {A} (m : M (World * VideoViewState) Reason A)
    (m0 : M World Reason A) : Prop :=
  ∀ w ui,
    outcome (m (w, ui)) = outcome (m0 w) ∧
    trace (m (w, ui)) = trace (m0 w) ∧
    late (m (w, ui)) = late (m0 w) ∧
    world (m (w, ui)) = (world (m0 w), screenAfter (progressOf (trace (m0 w))) ui).

Lemma Screened_bind {A B} m m0
    (k : A → M (World * VideoViewState) Reason B) k0 :
  Screened m m0 → (∀ a, Screened (k a) (k0 a)) →
  Screened (m ≫= k) (m0 ≫= k0).
Proof.
  intros Hm Hk w ui. rewrite !bind_run.
  destruct (Hm w ui) as (Ho & Ht & Hl & Hw).
  destruct (m (w, ui)) as [o wu t l], (m0 w) as [o0 w0 t0 l0].
  cbn [outcome world trace late] in *. subst o t l wu.
  destruct o0 as [a|e|]; [|done..].
  destruct (Hk a w0 (screenAfter (progressOf t0) ui)) as (Ho & Ht & Hl & Hw).
  destruct (k a _) as [o wu t l], (k0 a w0) as [o1 w1 t1 l1].
  cbn [outcome world trace late] in *. subst o t l wu.
  by rewrite progressOf_app, screenAfter_app.
Qed.

Lemma Screened_ret {A} (a : A) : Screened (mret a) (mret a).
Proof. done. Qed.

Lemma Screened_throw {A} e : Screened (throw (A:=A) e) (throw e).
Proof. done. Qed.

Lemma Screened_suspended {A} : Screened (suspended (A:=A)) suspended.
Proof. done. Qed.

Lemma Screened_await {A} call call0 (ev : Reason + A → Event Reason) :
  (∀ w ui, call (w, ui) = let '(r, w') := call0 w in (r, (w', ui))) →
  (∀ r, progressOf [ev r] = []) →
  Screened (await call ev) (await call0 ev).
Proof.
  intros Hcall Hev w ui. unfold await. rewrite Hcall.
  destruct (call0 w) as [[reason|a] w']; cbn [outcome world trace late];
    by rewrite Hev.
Qed.

Lemma Screened_perform {A} call call0 (ev : A → Event Reason) :
  (∀ w ui, call (w, ui) = let '(r, w') := call0 w in (r, (w', ui))) →
  (∀ r, progressOf [ev r] = []) →
  Screened (perform call ev) (perform call0 ev).
Proof.
  intros Hcall Hev w ui. unfold perform. rewrite Hcall.
  destruct (call0 w) as [a w']; cbn [outcome world trace late];
    by rewrite Hev.
Qed.

Lemma Screened_report message :
  Screened (report handleProgress message) (report (λ _ w, w) message).
Proof. done. Qed.

Lemma Screened_sleep ms : Screened (sleep (withScreen ai) ms) (sleep ai ms).
Proof. done. Qed.

Lemma pollLoop_withScreen fuel : ∀ k op,
  Screened (pollLoop (withScreen ai) fuel handleProgress k op)
           (pollLoop ai fuel (λ _ w, w) k op).
Proof.
  induction fuel as [|fuel IH]; intros k op; simpl;
    destruct (op_done op); try apply Screened_ret;
    try apply Screened_suspended.
  apply Screened_bind; [apply Screened_report|intros _].
  apply Screened_bind; [apply Screened_sleep|intros _].
  apply Screened_bind; [|intros op'; apply IH].
  by apply Screened_await.
Qed.

(** The video workflow in front of the screen. *)
Lemma video_withScreen fuel prompt musicSuggestion userId :
  Screened (generateVideoAndCaption (withScreen ai) API_KEY fuel prompt
              musicSuggestion handleProgress userId)
           (generateVideoAndCaption ai API_KEY fuel prompt musicSuggestion
              (λ _ w, w) userId).
Proof.
  unfold generateVideoAndCaption.
  apply Screened_bind; [apply Screened_report|intros _].
  apply Screened_bind; [apply Screened_report|intros _].
  apply Screened_bind; [by apply Screened_await|intros op].
  apply Screened_bind; [apply pollLoop_withScreen|intros op'].
  apply Screened_bind; [apply Screened_report|intros _].
  destruct (negb (truthy_opt (downloadLinkOf op'))); [apply Screened_throw|].
  apply Screened_bind; [by apply Screened_await|intros resp].
  apply Screened_bind; [by apply Screened_await|intros b].
  apply Screened_bind; [by apply Screened_perform|intros videoUrl].
  apply Screened_bind; [apply Screened_report|intros _].
  apply Screened_bind; [by apply Screened_await|intros captionResponse].
  apply Screened_bind; [apply Screened_report|intros _].
  apply Screened_bind; [|intros _; apply Screened_ret].
  destruct (truthy_opt userId); [|apply Screened_ret].
  unfold addToHistoryDetached. apply Screened_perform; [|done].
  intros w ui. cbn [withScreen recorder append fst snd].
  by destruct (append (recorder ai) _ _ w).
Qed.

Lemma VideoRun_pending_progress prompt musicSuggestion userId
    (t : list (Event Reason)) :
  VideoRun API_KEY prompt musicSuggestion userId t Pending →
  progressOf t =
    [craftingMessage; sendingMessage]
      ++ (flavor <$> seq 0 (length (refreshesOf t))).
Proof.
  inversion 1 as [|op t0 Hp| |op t0 op' t' o Hp Hf]; subst.
  - rewrite progressOf_app, refreshesOf_app.
    by rewrite (PollTrace_progress _ _ _ _ Hp).
  - inversion Hf.
Qed.

(** X26. [handleGenerate] of the video view shows on screen what the
    workflow reports: the calls it makes are those of the workflow run on
    its own, while the workflow is pending the loading flag is set and the
    message on screen is the progress message reported last, and once it
    has settled the flag and the message are cleared, with the video on
    screen after a success and the error message after a failure, never
    both. A prompt that is blank once trimmed is refused before anything
    is asked of the provider. *)
Theorem handleGenerateVideo_screen (fuel : nat) (user : option User)
    (ui : VideoViewState) (w : World) :
  let r := handleGenerateVideo ai API_KEY trim fuel user ui w in
  let r0 := generateVideoAndCaption ai API_KEY fuel (vv_prompt ui)
              (vv_musicSuggestion ui) (λ _ w, w) (uid <$> user) w in
  if truthy (trim (vv_prompt ui)) then
    vr_trace r = trace r0 ++ late r0 ∧ vr_world r = world r0 ∧
    match outcome r0 with
    | Resolved generated =>
        vr_returned r = true ∧
        vr_ui r = mkVideoView (vv_prompt ui) (vv_musicSuggestion ui) false
                              "" None (Some generated)
    | Rejected _ =>
        vr_returned r = true ∧
        vr_ui r = mkVideoView (vv_prompt ui) (vv_musicSuggestion ui) false
                              "" (Some videoFailed) None
    | Pending =>
        vr_returned r = false ∧
        ∃ message,
          last (progressOf (trace r0)) = Some message ∧
          vr_ui r = mkVideoView (vv_prompt ui) (vv_musicSuggestion ui) true
                                message None None
    end
  else
    vr_trace r = [] ∧ vr_world r = w ∧ vr_returned r = true ∧
    vr_ui r = mkVideoView (vv_prompt ui) (vv_musicSuggestion ui)
                (vv_isLoading ui) (vv_loadingMessage ui)
                (Some "Please enter a prompt.") (vv_generatedVideo ui).
Proof.
  intros r r0. subst r r0. unfold handleGenerateVideo.
  destruct (truthy (trim (vv_prompt ui))); cbn [negb]; [|done].
  cbv zeta.
  cbn [vv_prompt vv_musicSuggestion vv_isLoading vv_loadingMessage vv_error
       vv_generatedVideo].
  destruct (video_withScreen fuel (vv_prompt ui) (vv_musicSuggestion ui)
              (uid <$> user) w
              (mkVideoView (vv_prompt ui) (vv_musicSuggestion ui) true
                 (vv_loadingMessage ui) None None))
    as (Ho & Ht & Hl & Hw).
  rewrite Ho, Ht, Hl, Hw. clear Ho Ht Hl Hw.
  destruct (generateVideoAndCaption_shape API_KEY (vv_prompt ui)
              (vv_musicSuggestion ui) (uid <$> user) ai fuel (λ _ w, w) w)
    as [Hrun Hlate].
  cbv zeta in Hrun, Hlate.
  destruct (generateVideoAndCaption ai API_KEY fuel (vv_prompt ui)
              (vv_musicSuggestion ui) (λ _ w, w) (uid <$> user) w)
    as [[generated|e|] w0 t0 l0]; cbn [outcome world trace late] in *;
    subst l0; rewrite ?app_nil_r; cbn [fst snd];
    rewrite screenAfter_last;
    cbn [vv_prompt vv_musicSuggestion vv_isLoading vv_loadingMessage vv_error
         vv_generatedVideo vr_trace vr_world vr_returned vr_ui];
    try done.
  split; [done|]. split; [done|]. split; [done|].
  destruct (last (progressOf t0)) as [message|] eqn:Hlast; [by exists message|].
  rewrite (VideoRun_pending_progress _ _ _ _ Hrun) in Hlast.
  by apply last_None in Hlast.
Qed.


End GeneratorViewFacts.

(** ** authService: the mock sign-in

    The module keeps three variables. The callbacks are the subscribers'
    functions; they are taken not to call back into the module, and what
    the module does to them is recorded: [notified] lists the calls made,
    in order, each with its argument. [timers] holds the start-up timers
    not yet fired, each with the callback it was created for; they all
    wait the same 50 ms, so they fire in the order they were set. *)

Definition mockUser : User := {|
  uid := "mock-user-123";
  displayName := "Alex Doe";
  photoURL := "https://api.dicebear.com/8.x/avataaars/svg?seed=alex";
|}.

Section Auth.
Context {Callback : Type} `{EqDecision Callback}.

Record AuthState := mkAuth {
  authStateChangeCallback : option Callback;
  currentUser : option User;
  isInitialized : bool;
  timers : list Callback;
  notified : list (Callback * option User);
}.

Definition authStart : AuthState := mkAuth None None false [] [].

(** [onAuthStateChanged(callback)] *)
Definition onAuthStateChanged (callback : Callback) (st : AuthState)
    : AuthState :=
  if negb (isInitialized st) then
    mkAuth (Some callback) (currentUser st) (isInitialized st)
           (timers st ++ [callback]) (notified st)
  else
    mkAuth (Some callback) (currentUser st) (isInitialized st) (timers st)
           (notified st ++ [(callback, currentUser st)]).

(** The function [onAuthStateChanged] returns. *)
Definition unsubscribe (st : AuthState) : AuthState :=
  mkAuth None (currentUser st) (isInitialized st) (timers st) (notified st).

(** The body of a start-up timer, when it fires. *)
Definition fireTimer (st : AuthState) : AuthState :=
  match timers st with
  | [] => st
  | callback :: rest =>
      mkAuth (authStateChangeCallback st) (currentUser st) true rest
             (notified st ++ [(callback, currentUser st)])
  end.

(** [login()] *)
Definition login (st : AuthState) : AuthState :=
  match currentUser st with
  | Some _ => st
  | None =>
      mkAuth (authStateChangeCallback st) (Some mockUser) (isInitialized st)
             (timers st)
             (notified st ++
              match authStateChangeCallback st with
              | Some callback => [(callback, Some mockUser)]
              | None => []
              end)
  end.

(** [logout()] *)
Definition logout (st : AuthState) : AuthState :=
  mkAuth (authStateChangeCallback st) None (isInitialized st) (timers st)
         (notified st ++
          match authStateChangeCallback st with
          | Some callback => [(callback, None)]
          | None => []
          end).

(** What can happen to the module. *)
Inductive AuthAction :=
| Subscribe (callback : Callback)
| Unsubscribe
| TimerFires
| Login
| Logout.

Definition authStep (st : AuthState) (a : AuthAction) : AuthState :=
  match a with
  | Subscribe callback => onAuthStateChanged callback st
  | Unsubscribe => unsubscribe st
  | TimerFires => fireTimer st
  | Login => login st
  | Logout => logout st
  end.

Definition authRun (actions : list AuthAction) : AuthState :=
  foldl authStep authStart actions.

(** What a callback was told last. *)
Definition lastTold (callback : Callback)
    (calls : list (Callback * option User)) : option (option User) :=
  snd <$> last (filter (λ call, call.1 = callback) calls).

(** ** Properties of the sign-in *)

Lemma lastTold_snoc callback calls callback' user :
  lastTold callback (calls ++ [(callback', user)]) =
  if decide (callback' = callback) then Some user
  else lastTold callback calls.
Proof.
  unfold lastTold. rewrite filter_app, filter_cons, filter_nil.
  cbn [fst]. destruct (decide (callback' = callback)).
  - by rewrite last_snoc.
  - by rewrite app_nil_r.
Qed.

(** X28. [login] signs the mock user in once: on a signed-in module it
    does nothing at all and tells nobody, so it is idempotent; otherwise
    it sets the mock user and tells the subscriber, if there is one.
    [logout] always clears the user and always tells the subscriber, also
    when nobody was signed in. Neither touches the subscription or the
    start-up timers. *)
Theorem login_once_logout_always (st : AuthState) :
  login (login st) = login st ∧
  (is_Some (currentUser st) → login st = st) ∧
  currentUser (login st) =
    Some (default mockUser (currentUser st)) ∧
  (currentUser st = None →
   notified (login st) =
     notified st ++
     match authStateChangeCallback st with
     | Some callback => [(callback, Some mockUser)]
     | None => []
     end) ∧
  currentUser (logout st) = None ∧
  notified (logout st) =
    notified st ++
    match authStateChangeCallback st with
    | Some callback => [(callback, None)]
    | None => []
    end ∧
  currentUser (login (logout st)) = Some mockUser ∧
  authStateChangeCallback (login st) = authStateChangeCallback st ∧
  authStateChangeCallback (logout st) = authStateChangeCallback st ∧
  timers (login st) = timers st ∧ timers (logout st) = timers st.
Proof.
  unfold login, logout.
  destruct st as [cb [u|] init ts ns]; cbn; repeat split; try done.
Qed.

(** The invariant of the module. *)
Definition AuthInv (st : AuthState) : Prop :=
  (currentUser st = None ∨ currentUser st = Some mockUser) ∧
  Forall (λ call, call.2 = None ∨ call.2 = Some mockUser) (notified st) ∧
  match authStateChangeCallback st with
  | Some callback =>
      callback ∈ timers st ∨
      lastTold callback (notified st) = Some (currentUser st)
  | None => True
  end.

Lemma authStep_inv st a : AuthInv st → AuthInv (authStep st a).
Proof.
  intros Hinv. pose proof Hinv as (Hu & Hn & Hcb).
  assert (∀ (calls : list (Callback * option User)) call,
            Forall (λ call, call.2 = None ∨ call.2 = Some mockUser) calls →
            (call.2 = None ∨ call.2 = Some mockUser) →
            Forall (λ call, call.2 = None ∨ call.2 = Some mockUser)
                   (calls ++ [call])) as Hsnoc.
  { intros calls call Hall Hc. apply Forall_app. split; [done|].
    constructor; [done|constructor]. }
  destruct a as [callback| | | |]; cbn [authStep].
  - unfold onAuthStateChanged.
    destruct (isInitialized st); cbn [negb].
    + split; [done|]. split; [by apply Hsnoc|]. 
      cbn [authStateChangeCallback notified currentUser timers].
      right. rewrite lastTold_snoc. by rewrite decide_True.
    + split; [done|]. split; [done|]. 
      cbn [authStateChangeCallback notified currentUser timers].
      left. apply elem_of_app. right. by left.
  - by split.
  - unfold fireTimer. destruct (timers st) as [|callback rest] eqn:Hts.
    { exact Hinv. }
    split; [done|]. split; [by apply Hsnoc|]. 
    cbn [authStateChangeCallback notified currentUser timers].
    destruct (authStateChangeCallback st) as [cb|]; [|done].
    rewrite lastTold_snoc.
    destruct (decide (callback = cb)) as [->|Hne]; [by right|].
    destruct Hcb as [Hin|Hlast]; [|by right].
    left. apply elem_of_cons in Hin as [->|Hin]; done.
  - unfold login. destruct (currentUser st) as [u|] eqn:Hcur.
    { exact Hinv. }
    split; [by right|]. split.
    { destruct (authStateChangeCallback st); [|by rewrite app_nil_r].
      apply Hsnoc; [done|by right]. }
    
    cbn [authStateChangeCallback notified currentUser timers].
    destruct (authStateChangeCallback st) as [cb|]; [|done].
    right. rewrite lastTold_snoc. by rewrite decide_True.
  - unfold logout. split; [by left|]. split.
    { destruct (authStateChangeCallback st); [|by rewrite app_nil_r].
      apply Hsnoc; [done|by left]. }
    
    cbn [authStateChangeCallback notified currentUser timers].
    destruct (authStateChangeCallback st) as [cb|]; [|done].
    right. rewrite lastTold_snoc. by rewrite decide_True.
Qed.

(** X29. Whatever is done to the module, in whatever order: the user is
    nobody or the mock user, no callback is ever told anything else, and
    the subscriber is up to date, in that the last thing it was told is
    the current user, unless its start-up timer has not fired yet (and
    then the timer will tell it). *)
Theorem subscriber_is_up_to_date (actions : list AuthAction) :
  let st := authRun actions in
  (currentUser st = None ∨ currentUser st = Some mockUser) ∧
  Forall (λ call, call.2 = None ∨ call.2 = Some mockUser) (notified st) ∧
  match authStateChangeCallback st with
  | Some callback =>
      callback ∈ timers st ∨
      lastTold callback (notified st) = Some (currentUser st)
  | None => True
  end.
Proof.
  intros st. subst st. change (AuthInv (authRun actions)). unfold authRun.
  assert (AuthInv authStart) as Hstart by (by repeat split; left).
  revert Hstart. generalize authStart.
  induction actions as [|a actions IH]; intros st Hst; [done|].
  simpl. by apply IH, authStep_inv.
Qed.

(** X30. The start-up and the subscription of the module. Until the first
    start-up timer has fired, a subscriber is not called at once but gets
    a timer of its own; afterwards it is called at once with the current
    user. A start-up timer calls the callback it was set for with the user
    current when it fires, also when that subscriber has left in the
    meantime or another has taken its place, and the first one to fire
    ends the start-up. There is one subscription only: a new subscriber
    takes the place of the old one, and the function returned to any
    subscriber ends the subscription of whoever holds it, after which
    [login] and [logout] tell nobody. *)
Theorem startup_and_subscription (st : AuthState)
    (callback other : Callback) :
  (isInitialized st = false →
     notified (onAuthStateChanged callback st) = notified st ∧
     timers (onAuthStateChanged callback st) = timers st ++ [callback]) ∧
  (isInitialized st = true →
     notified (onAuthStateChanged callback st) =
       notified st ++ [(callback, currentUser st)] ∧
     timers (onAuthStateChanged callback st) = timers st) ∧
  (isInitialized st = false → timers st = [] →
     notified (fireTimer (unsubscribe (onAuthStateChanged callback st))) =
       notified st ++ [(callback, currentUser st)] ∧
     notified (fireTimer (login (onAuthStateChanged other
                                   (onAuthStateChanged callback st)))) =
       notified (login (onAuthStateChanged other st)) ++
         [(callback, Some (default mockUser (currentUser st)))]) ∧
  (timers st ≠ [] → isInitialized (fireTimer st) = true) ∧
  authStateChangeCallback
    (onAuthStateChanged other (onAuthStateChanged callback st)) = Some other ∧
  authStateChangeCallback
    (unsubscribe (onAuthStateChanged other (onAuthStateChanged callback st)))
    = None ∧
  notified (login (unsubscribe st)) = notified st ∧
  notified (logout (unsubscribe st)) = notified st.
Proof.
  unfold onAuthStateChanged, unsubscribe, fireTimer, login, logout.
  destruct st as [cb u init ts ns].
  cbn [authStateChangeCallback currentUser isInitialized timers notified].
  split; [by intros ->|]. split; [by intros ->|]. split.
  { intros -> ->. cbn. split; [done|]. by destruct u. }
  split.
  { intros Hts. by destruct ts. }
  split; [by destruct init|]. split; [done|].
  split; [destruct u; cbn; by rewrite ?app_nil_r|].
  cbn. by rewrite app_nil_r.
Qed.

End Auth.

(** ** The properties on concrete inputs *)

(** [trim] on strings of ASCII characters. *)
Definition isSpace (c : ascii) : bool :=
  match c with
  | " "%char | "009"%char | "010"%char | "011"%char | "012"%char
  | "013"%char => true
  | _ => false
  end.

Fixpoint trimStart (s : string) : string :=
  match s with
  | String c s' => if isSpace c then trimStart s' else s
  | EmptyString => EmptyString
  end.

Fixpoint trimEnd (s : string) : string :=
  match s with
  | String c s' =>
      match trimEnd s' with
      | EmptyString => if isSpace c then EmptyString else String c EmptyString
      | rest => String c rest
      end
  | EmptyString => EmptyString
  end.

Definition trimAscii (s : string) : string := trimEnd (trimStart s).

Module Sample.

Definition oldEntry : GeneratedMedia := {|
  media_id := "media-1-0.5";
  media_type := image;
  media_prompt := "a cat";
  media_url := "data:image/jpeg;base64,AAAA";
  media_caption := "Cat! #cat";
  media_timestamp := 5;
|}.

Definition history : HistoryDb := {[ "u1" := [oldEntry] ]}.

Definition newData : MediaItemData := {|
  item_url := "blob:mp4";
  item_caption := "Ride on! #bike";
  item_prompt := "a bike";
  item_type := video;
|}.

Definition alex : User := mockUser.

Definition catPrompt : SheetPrompt := mkPrompt "p1" "a cat" pending None None.
Definition blankPrompt : SheetPrompt := mkPrompt "p2" "  " pending None None.
Definition dogPrompt : SheetPrompt := mkPrompt "p3" "a dog" pending None None.

Definition sheetOf (type : MediaType) : Sheet :=
  mkSheet "sheet-1" "Pets" type [catPrompt; blankPrompt; dogPrompt].

Definition screen (type : MediaType) : SheetsViewState :=
  mkSheetsView [sheetOf type] (Some (sheetOf type)) false false None.

(** The provider answers the batch request with no image. *)
Definition noImages : Stub.Script := {|
  Stub.images := inr {| generatedImages := [] |};
  Stub.captions := [];
  Stub.submitted := Stub.submitted Stub.happy;
  Stub.refreshed := [];
  Stub.fetched := Stub.fetched Stub.happy;
  Stub.blobbed := Stub.blobbed Stub.happy;
  Stub.settles := [];
|}.

(** Enough captions for the two prompts of the sheet. *)
Definition twoPrompts : Stub.Script := {|
  Stub.images := inr {| generatedImages := [Stub.picture "AAAA"] |};
  Stub.captions := [inr {| text := "Cat! #cat" |};
                    inr {| text := "Dog! #dog" |}];
  Stub.submitted := Stub.submitted Stub.happy;
  Stub.refreshed := [];
  Stub.fetched := Stub.fetched Stub.happy;
  Stub.blobbed := Stub.blobbed Stub.happy;
  Stub.settles := [];
|}.

Definition modal : AddToSheetState :=
  mkAddToSheet [] true "" false "" image false.

Definition stored : gmap string (list Sheet) :=
  {[ "mock-user-123" := [sheetOf image; mkSheet "sheet-2" "Clips" video []] ]}.

Definition readings (k : nat) : Z * string := (100 + Z.of_nat k, "0.5")%Z.

End Sample.

Ltac ordinary_name := apply (bool_decide_unpack _); vm_compute; exact I.

(** C10 on a log with one entry. *)
Lemma C10_witness :
  let entries := (getHistory "u1" Sample.history).1 in
  let history' := (getHistory "u1" Sample.history).2 in
  getHistoryAt "u1" Sample.history = (Some entries, history') ∧
  entries ≡ₚ historyOf Sample.history "u1" ∧
  StronglySorted newerOrEqual entries ∧
  (∀ ts, filter (λ y, media_timestamp y = ts) entries =
         filter (λ y, media_timestamp y = ts)
                (historyOf Sample.history "u1")) ∧
  (∀ u, historyOf history' u = historyOf Sample.history u) ∧
  history' = match Sample.history !! "u1" with
             | Some _ => Sample.history
             | None => <["u1" := []]> Sample.history
             end ∧
  (∀ u, u ≠ "u1" → history' !! u = Sample.history !! u) ∧
  (getHistory "u1" history').1 = entries.
Proof.
  apply (C10_getHistory_sorted_and_readonly "u1" Sample.history).
  ordinary_name.
Defined.

(** X1 on a log with one entry. *)
Lemma addToHistory_then_getHistory_witness :
  historyOf (addToHistory 9 "0.25" 9 "u1" Sample.newData Sample.history).2
            "u1"
  = historyOf Sample.history "u1" ++
      [(addToHistory 9 "0.25" 9 "u1" Sample.newData Sample.history).1].
Proof.
  refine (proj1 (addToHistory_then_getHistory 9 "0.25" 9 "u1" Sample.newData
                   Sample.history _)).
  ordinary_name.
Defined.

(** X6 on a store with two sheets, one of them under the id saved. *)
Lemma saveSheet_then_find_witness :
  (saveSheet "mock-user-123" (Sample.sheetOf video) Sample.stored).1
    = Sample.sheetOf video ∧
  findSheet (sheet_id (Sample.sheetOf video))
    (getSheets "mock-user-123"
       (saveSheet "mock-user-123" (Sample.sheetOf video) Sample.stored).2).1
    = Some (Sample.sheetOf video).
Proof.
  destruct (saveSheet_then_find "mock-user-123" (Sample.sheetOf video)
              Sample.stored) as (Hback & Hfind & _).
  { ordinary_name. }
  split; [exact Hback|exact Hfind].
Defined.

(** X7 on that store. *)
Lemma saveSheet_upsert_witness :
  (saveSheet "mock-user-123" (Sample.sheetOf video)
     (saveSheet "mock-user-123" (Sample.sheetOf video) Sample.stored).2).2
  = (saveSheet "mock-user-123" (Sample.sheetOf video) Sample.stored).2.
Proof.
  destruct (saveSheet_upsert "mock-user-123" (Sample.sheetOf video)
              Sample.stored) as (_ & _ & Hagain).
  { ordinary_name. }
  exact Hagain.
Defined.

(** X8 on an empty store. *)
Lemma chat_store_round_trip_witness :
  let messages := [mkMessage user ["a red bicycle"] 7 None] in
  (getChatHistory "u1" (saveChatHistory "u1" messages ∅)).1 = messages ∧
  (getChatHistory "u1" (clearChatHistory "u1" ∅)).1 = [].
Proof.
  destruct (chat_store_round_trip "u1"
              [mkMessage user ["a red bicycle"] 7 None] ∅)
    as (Hsaved & Hcleared & _).
  { ordinary_name. }
  split; [exact Hsaved|exact Hcleared].
Defined.

(** X14 on the provider for which everything succeeds, in front of a
    store with one entry. *)
Lemma video_result_reaches_history_witness :
  let rw := mkMem Sample.history [(9, "0.25", 9)] in
  let r := generateVideoAndCaption (withRecorder memoryRecorder Stub.scripted)
             "KEY" 0 "a bike" "jazz" (besideRecorder Stub.silent) (Some "u1")
             (Stub.happy, rw) in
  let history' := mem_history (world r).2 in
  match outcome r with
  | Resolved result =>
      if truthy_opt (Some "u1") then
        ∃ item,
          historyOf history' (default "" (Some "u1")) =
            historyOf (mem_history rw) (default "" (Some "u1")) ++ [item] ∧
          item ∈ (getHistory (default "" (Some "u1")) history').1 ∧
          media_url item = url result ∧
          media_caption item = caption result ∧
          media_prompt item = "a bike" ∧
          media_type item = video
      else (world r).2 = rw
  | _ => (world r).2 = rw
  end.
Proof.
  apply (video_result_reaches_history Stub.scripted "KEY" "a bike" "jazz"
           Stub.silent (Some "u1") 0%nat Stub.happy
           (mkMem Sample.history [(9, "0.25", 9)])).
  ordinary_name.
Defined.

(** X23 for a user with two stored sheets. *)
Lemma loadSheets_shows_a_sheet_witness :
  let loaded := loadSheets 1 2 Sample.alex (Sample.screen image)
                  Sample.stored in
  sv_isLoading loaded.1 = false ∧
  sv_sheets loaded.1 = listOf loaded.2 (uid Sample.alex).
Proof.
  destruct (loadSheets_shows_a_sheet 1 2 Sample.alex (Sample.screen image)
              Sample.stored) as (Hflag & Hlist & _).
  { ordinary_name. }
  split; [exact Hflag|exact Hlist].
Defined.

(** X24 on a store with two sheets. *)
Lemma handleAddPrompts_appends_pending_prompts_witness :
  let r := handleAddPrompts trimAscii Sample.readings 5 Sample.alex
             ["a fox"; "an owl"] Sample.modal Sample.stored in
  as_isSaving (ar_ui r) = false ∧
  sp_prompt <$> newSheetPrompts Sample.readings ["a fox"; "an owl"]
    = ["a fox"; "an owl"].
Proof.
  destruct (handleAddPrompts_appends_pending_prompts trimAscii
              Sample.readings 5 Sample.alex ["a fox"; "an owl"] Sample.modal
              Sample.stored) as (Hflag & Htexts & _).
  { ordinary_name. }
  split; [exact Hflag|exact Htexts].
Defined.

(** X2 on a log with one older entry. *)
Lemma addToHistory_newest_comes_first_witness :
  (getHistory "u1"
     (addToHistory 9 "0.25" 9 "u1" Sample.newData Sample.history).2).1 =
  (addToHistory 9 "0.25" 9 "u1" Sample.newData Sample.history).1
    :: (getHistory "u1" Sample.history).1.
Proof.
  apply (addToHistory_newest_comes_first 9 "0.25" 9 "u1" Sample.newData
           Sample.history).
  - ordinary_name.
  - vm_compute. constructor; [reflexivity|constructor].
Defined.

(** X4 on a log whose entry has another id. *)
Lemma addToHistory_then_delete_witness :
  historyOf
    (deleteFromHistory "u1"
       (media_id (addToHistory 9 "0.25" 9 "u1" Sample.newData
                               Sample.history).1)
       (addToHistory 9 "0.25" 9 "u1" Sample.newData Sample.history).2)
    "u1"
  = historyOf Sample.history "u1".
Proof.
  apply (addToHistory_then_delete 9 "0.25" 9 "u1" Sample.newData
           Sample.history).
  vm_compute. constructor; [discriminate|constructor].
Defined.

(** X9 on the provider for which everything succeeds. *)
Lemma video_result_provenance_witness :
  let r := generateVideoAndCaption Stub.scripted "KEY" 0 "a bike" "jazz"
             Stub.silent (Some "u1") Stub.happy in
  let result := {| url := "blob:mp4"; caption := "Ride on! #bike" |} in
  outcome r = Resolved result ∧
  ∃ lead op resp b c,
    trace r =
      lead ++
      [Progress fetchingMessage;
       Fetch (default "undefined" (downloadLinkOf op) +:+ "&key=" +:+ "KEY")
             (inr resp);
       ReadBlob resp (inr b); CreateObjectURL b (url result);
       Progress captioningMessage;
       GenerateContent {| gcp_model := "gemini-2.5-flash";
                          gcp_contents := videoCaptionPrompt "a bike" |}
                       (inr c);
       Progress doneMessage] ++
      videoHistoryCall "a bike" (Some "u1") result ∧
    lastHandle lead = Some op ∧ op_done op = true ∧
    truthy_opt (downloadLinkOf op) = true ∧
    Forall (λ e, isFetch e = false) lead ∧
    caption result = text c.
Proof.
  intros r result. split; [reflexivity|].
  apply (video_result_provenance Stub.scripted "KEY" "a bike" "jazz"
           Stub.silent (Some "u1") 0%nat Stub.happy result).
  reflexivity.
Defined.

(** X13 on the provider whose job never completes, after seven turns. *)
Lemma video_polls_without_bound_witness :
  let r := generateVideoAndCaption neverDone "KEY" 7 "a bike" "jazz"
             Stub.silent None () in
  outcome r = Pending ∧
  length (refreshesOf (trace r)) = 7%nat ∧
  sleepsOf (trace r) = replicate 7 10000%Z ∧
  (∀ input ret, Fetch input ret ∉ trace r).
Proof.
  apply (video_polls_without_bound neverDone "KEY" "a bike" "jazz"
           Stub.silent None 7%nat ()).
  - intros p w. eexists _, _. split; reflexivity.
  - intros op w. eexists _, _. split; reflexivity.
Defined.

(** X18 on a video sheet, with the provider that refuses the job creation. *)
Lemma runSheet_stops_at_first_failure_witness :
  let ui := Sample.screen video in
  let r := runSheet Stub.scripted "KEY" trimAscii 0 Sample.alex ui
             Stub.submitFails in
  sv_error (vr_ui r) = Some (failedToProcess "a cat") ∧
  ∃ pre p post,
    activePrompts ui = pre ++ p :: post ∧
    nonblank trimAscii p = true ∧
    failedToProcess "a cat" =
      "Failed to process prompt: " +:+ dq +:+ sp_prompt p +:+ dq ∧
    submittedPrompts (vr_trace r) =
      (sheetRequest video ∘ sp_prompt
         <$> filter (λ p, nonblank trimAscii p = true) (pre ++ [p])) ∧
    vr_returned r = true ∧ sv_isProcessing (vr_ui r) = false ∧
    (∀ i q, activePrompts (vr_ui r) !! i = Some q →
       sp_id q = sp_id p → sp_status q = error) ∧
    (∀ i q, activePrompts ui !! i = Some q →
       sp_id q ∉ sp_id <$> filter (λ p, nonblank trimAscii p = true)
                             (pre ++ [p]) →
       activePrompts (vr_ui r) !! i = Some q).
Proof.
  intros ui r. split; [reflexivity|].
  apply (runSheet_stops_at_first_failure Stub.scripted "KEY" trimAscii
           0%nat Sample.alex ui Stub.submitFails (failedToProcess "a cat")).
  - reflexivity.
  - by eexists.
Defined.

(** X19 on an image sheet with two prompts and a blank one. *)
Lemma runSheet_completes_the_sheet_witness :
  let ui := Sample.screen image in
  let r := runSheet Stub.scripted "KEY" trimAscii 0 Sample.alex ui
             Sample.twoPrompts in
  vr_returned r = true ∧ sv_error (vr_ui r) = None ∧
  sv_isProcessing (vr_ui r) = false ∧
  ∀ i q, activePrompts ui !! i = Some q →
    if bool_decide (sp_id q ∈ sp_id <$>
                      filter (λ p, nonblank trimAscii p = true)
                             (activePrompts ui))
    then ∃ result,
           activePrompts (vr_ui r) !! i =
             Some (mkPrompt (sp_id q) (sp_prompt q) completed
                            (Some (url result)) (Some (caption result)))
    else activePrompts (vr_ui r) !! i = Some q.
Proof.
  intros ui r. split; [reflexivity|]. split; [reflexivity|].
  apply (runSheet_completes_the_sheet Stub.scripted "KEY" trimAscii
           0%nat Sample.alex ui Sample.twoPrompts).
  - reflexivity.
  - reflexivity.
  - by eexists.
Defined.

(** X20 on the provider that returns no image. *)
Lemma runSheet_no_image_is_a_failure_witness :
  let ui := Sample.screen image in
  let r := runSheet Stub.scripted "KEY" trimAscii 0 Sample.alex ui
             Sample.noImages in
  outcome (generateImagesAndCaptions Stub.scripted "a cat" "" 1
             (Some (uid Sample.alex)) Sample.noImages) = Resolved [] ∧
  sv_error (vr_ui r) = Some (failedToProcess "a cat") ∧
  vr_returned r = true ∧
  submittedPrompts (vr_trace r) = ["a cat"] ∧
  captionRequests (vr_trace r) = [] ∧
  detachedCalls (vr_trace r) = [] ∧
  (∀ i q, activePrompts (vr_ui r) !! i = Some q →
     sp_id q = sp_id Sample.catPrompt → sp_status q = error).
Proof.
  apply (runSheet_no_image_is_a_failure Stub.scripted "KEY" trimAscii
           0%nat Sample.alex (Sample.screen image) Sample.noImages
           (Sample.sheetOf image) Sample.catPrompt
           [Sample.blankPrompt; Sample.dogPrompt]);
    reflexivity.
Defined.

(** X21 on a sheet with three prompts. *)
Lemma handleRemovePrompt_keeps_a_prompt_witness :
  let ui := Sample.screen image in
  let ui' := handleRemovePrompt "p2" ui in
  activePrompts ui' ≠ [] ∧
  length (activePrompts ui') =
    (length (activePrompts ui) -
     if decide ("p2" ∈ sp_id <$> activePrompts ui ∧
                2 ≤ length (activePrompts ui))%nat
     then 1 else 0)%nat ∧
  activePrompts ui' `sublist_of` activePrompts ui ∧
  (∀ p, p ∈ activePrompts ui → sp_id p ≠ "p2" → p ∈ activePrompts ui') ∧
  (λ s, (sheet_id s, sheet_name s, sheet_type s)) <$> sv_activeSheet ui' =
  (λ s, (sheet_id s, sheet_name s, sheet_type s)) <$> sv_activeSheet ui.
Proof.
  apply (handleRemovePrompt_keeps_a_prompt "p2" (Sample.screen image)).
  - apply (bool_decide_unpack _). vm_compute. exact I.
  - discriminate.
Defined.

(** X22 on a sheet with three prompts, at clock reading 7. *)
Lemma handleAddPrompt_then_remove_witness :
  let ui := Sample.screen image in
  activePrompts (handleAddPrompt 7 ui) =
    activePrompts ui ++ [mkPrompt ("prompt-" +:+ pretty 7%Z) "" pending None None] ∧
  handleRemovePrompt ("prompt-" +:+ pretty 7%Z) (handleAddPrompt 7 ui) = ui.
Proof.
  apply (handleAddPrompt_then_remove 7 (Sample.screen image)).
  - apply (bool_decide_unpack _). vm_compute. exact I.
  - discriminate.
Defined.

(** X25 on a store with two sheets. *)
Lemma modal_adds_to_first_sheet_witness :
  let opened := fetchSheets Sample.alex Sample.modal Sample.stored in
  let r := handleAddPrompts trimAscii Sample.readings 5 Sample.alex
             ["a fox"; "an owl"] opened.1 opened.2 in
  as_selectedSheetId opened.1 = "sheet-1" ∧
  ar_closed r = true ∧
  listOf (ar_sheets r) (uid Sample.alex) =
    mkSheet "sheet-1" "Pets" image
      ([Sample.catPrompt; Sample.blankPrompt; Sample.dogPrompt] ++
       newSheetPrompts Sample.readings ["a fox"; "an owl"])
      :: [mkSheet "sheet-2" "Clips" video []] ∧
  (∀ u, u ≠ uid Sample.alex → ar_sheets r !! u = Sample.stored !! u).
Proof.
  apply (modal_adds_to_first_sheet trimAscii Sample.readings 5 Sample.alex
           ["a fox"; "an owl"] Sample.modal Sample.stored
           (Sample.sheetOf image) [mkSheet "sheet-2" "Clips" video []]);
    reflexivity.
Defined.
